(** * py2neo.data: the in-memory property-graph data model

    A shallow embedding of [py2neo/data.py]: nodes, relationships, the
    Python equality and hashing they define, subgraphs with their set
    algebra, walkables and the [walk] traversal.

    A Python object is a record that carries its address ([id(self)]), so
    that two objects with the same contents stay distinct values and
    [a is b] is the equality of the two values.  Whatever the module imports from the
    rest of the package (the graph a bound entity points to, the hashes
    computed by the interpreter for tuples and classes) is an operation of
    the class [Externals]. *)

From Stdlib Require Import ZArith Lia Ascii.
From stdpp Require Import base decidable option list strings gmap pretty.

(** ** Exceptions and results *)

Inductive Exception :=
  | ValueError    (* "Subgraphs must contain at least one node", "Cannot append walkable ..." *)
  | TypeError
  | IndexError.

Inductive result (A : Type) :=
  | Ok (a : A)
  | Raise (e : Exception).
Arguments Ok {A} a.
Arguments Raise {A} e.

Definition bind {A B} (r : result A) (k : A → result B) : result B :=
  match r with
  | Ok a => k a
  | Raise e => Raise e
  end.

Notation "x ←? r ; k" := (bind r (fun x => k))
  (at level 100, r at next level, right associativity, only parsing).

(** ** Entities *)

(** Property values: the integers and strings of a property map, compared
    by [==]. *)
Inductive PropValue :=
  | PInt (z : Z)
  | PStr (s : string).

#[global] Instance PropValue_eq_dec : EqDecision PropValue.
Proof. solve_decision. Defined.

(** [type(r)]: the class [Relationship] itself or the subclass that
    [Relationship.type(name)] keeps for a type name. *)
Inductive RelType :=
  | RelationshipClass
  | NamedType (name : string).

#[global] Instance RelType_eq_dec : EqDecision RelType.
Proof. solve_decision. Defined.

(** [issubclass(sub, sup) and sub is not sup] on relationship classes. *)
Definition proper_subclass (sub sup : RelType) : bool :=
  match sub, sup with
  | NamedType _, RelationshipClass => true
  | _, _ => false
  end.

Section Entities.
Context {Graph : Type} `{!EqDecision Graph}.

Record Node := mkNode {
  n_id : Z;                              (* id(self) *)
  n_uuid : string;                       (* self.__uuid__ *)
  n_graph : option Graph;                (* self.graph, None until bound *)
  n_identity : option Z;                 (* self.identity, None until bound *)
  n_remote_labels : gset string;         (* self._remote_labels *)
  n_labels : gset string;                (* self._labels *)
  n_properties : gmap string PropValue;  (* the PropertyDict part *)
  n_stale : gset string;                 (* self._stale *)
}.

Record Relationship := mkRelationship {
  r_id : Z;
  r_uuid : string;
  r_type : RelType;                      (* type(self) *)
  r_start : Node;                        (* n[0] of the sequence (n[0], self, n[1]) *)
  r_end : Node;                          (* n[1] *)
  r_graph : option Graph;
  r_identity : option Z;
  r_properties : gmap string PropValue;
  r_stale : gset string;
}.

Inductive Entity :=
  | ENode (n : Node)
  | ERel (r : Relationship).

#[global] Instance Node_eq_dec : EqDecision Node.
Proof. solve_decision. Defined.

#[global] Instance Relationship_eq_dec : EqDecision Relationship.
Proof. solve_decision. Defined.

#[global] Instance Entity_eq_dec : EqDecision Entity.
Proof. solve_decision. Defined.

Definition e_graph (e : Entity) : option Graph :=
  match e with ENode n => n_graph n | ERel r => r_graph r end.

Definition e_identity (e : Entity) : option Z :=
  match e with ENode n => n_identity n | ERel r => r_identity r end.

Definition is_Node (e : Entity) : bool :=
  match e with ENode _ => true | ERel _ => false end.

Definition is_Relationship (e : Entity) : bool :=
  match e with ENode _ => false | ERel _ => true end.

(** [a is b] *)
Definition entity_is (a b : Entity) : bool := bool_decide (a = b).

(** Rebinding and retagging, used to state what a method does not read. *)
Definition n_with_uuid (u : string) (n : Node) : Node :=
  mkNode (n_id n) u (n_graph n) (n_identity n) (n_remote_labels n)
         (n_labels n) (n_properties n) (n_stale n).

Definition r_with_uuid (u : string) (r : Relationship) : Relationship :=
  mkRelationship (r_id r) u (r_type r) (r_start r) (r_end r) (r_graph r)
                 (r_identity r) (r_properties r) (r_stale r).

Definition r_bind (g : option Graph) (i : option Z) (r : Relationship) : Relationship :=
  mkRelationship (r_id r) (r_uuid r) (r_type r) (r_start r) (r_end r) g i
                 (r_properties r) (r_stale r).

Definition n_with_cache (labels : gset string) (props : gmap string PropValue)
    (n : Node) : Node :=
  mkNode (n_id n) (n_uuid n) (n_graph n) (n_identity n) (n_remote_labels n)
         labels props (n_stale n).
End Entities.
Arguments Node : clear implicits.
Arguments Relationship : clear implicits.
Arguments Entity : clear implicits.

(** ** Entity.__init__: the generated token *)

(** [uuid[-7]] *)
Definition seventh_from_end (uuid : string) : option Ascii.ascii :=
  let n := String.length uuid in
  if (n <? 7)%nat then None else String.get (n - 7) uuid.

(** ["0" <= c <= "9"] *)
Definition is_digit (c : Ascii.ascii) : bool :=
  let k := Ascii.nat_of_ascii c in (48 <=? k)%nat && (k <=? 57)%nat.

(** The loop [while "0" <= uuid[-7] <= "9": uuid = str(uuid4())] over the
    successive values of [str(uuid4())]. *)
Fixpoint Entity_uuid (draws : list string) : option string :=
  match draws with
  | [] => None
  | uuid :: later =>
      match seventh_from_end uuid with
      | Some c => if is_digit c then Entity_uuid later else Some uuid
      | None => None
      end
  end.

(** ** What the module takes from outside *)

Class Externals (Graph : Type) := {
  graph_eq : Graph → Graph → bool;   (* g1 == g2 *)
  graph_bool : Graph → bool;         (* bool(g) *)
  hash_database : Graph → Z;         (* hash(g.database) *)
  hash_name : Graph → Z;             (* hash(g.name) *)
  hash_tuple : list Z → Z;           (* hash of a tuple, from the hashes of its items *)
  hash_type : RelType → Z;           (* hash of a class object *)
}.

(** [hash] of an integer (64-bit build): reduction modulo [2^61 - 1], the
    sign kept, and [-1] replaced by [-2]. *)
Definition hash_modulus : Z := 2 ^ 61 - 1.

Definition hash_int (z : Z) : Z :=
  let h := (Z.sgn z * (Z.abs z mod hash_modulus))%Z in
  if (h =? -1)%Z then (-2)%Z else h.

Section Equality.
Context {Graph : Type} `{!EqDecision Graph, !Externals Graph}.
Local Open Scope Z_scope.

(** *** Node.__eq__ and Node.__hash__ *)

Definition Node_eq (self : Node Graph) (other : Entity Graph) : bool :=
  if entity_is (ENode self) other then true
  else
    match n_graph self, e_graph other, n_identity self, e_identity other with
    | Some g, Some g', Some i, Some i' =>
        is_Node other && graph_eq g g' && (i =? i')
    | _, _, _, _ => false
    end.

Definition Node_hash (self : Node Graph) : Z :=
  match n_graph self, n_identity self with
  | Some g, Some i =>
      if graph_bool g && negb (i =? 0)
      then Z.lxor (Z.lxor (hash_database g) (hash_name g)) (hash_int i)
      else hash_int (n_id self)
  | _, _ => hash_int (n_id self)
  end.

(** *** Relationship.__eq__ and Relationship.__hash__ *)

(** [self.nodes] of a relationship: [self.__sequence[0::2]]. *)
Definition r_nodes (r : Relationship Graph) : list (Node Graph) :=
  [r_start r; r_end r].

(** Comparison of two items inside a list or tuple comparison:
    identity first, then [==]. *)
Definition node_item_eq (a b : Node Graph) : bool :=
  bool_decide (a = b) || Node_eq a (ENode b).

Fixpoint items_eq {A} (item_eq : A → A → bool) (l1 l2 : list A) : bool :=
  match l1, l2 with
  | [], [] => true
  | x :: l1', y :: l2' => item_eq x y && items_eq item_eq l1' l2'
  | _, _ => false
  end.

Definition Relationship_eq (self : Relationship Graph) (other : Entity Graph) : bool :=
  if entity_is (ERel self) other then true
  else
    match r_graph self, e_graph other, r_identity self, e_identity other with
    | Some g, Some g', Some i, Some i' =>
        is_Relationship other && graph_eq g g' && (i =? i')
    | _, _, _, _ =>
        match other with
        | ERel o =>
            bool_decide (r_type self = r_type o)
            && items_eq node_item_eq (r_nodes self) (r_nodes o)
            && bool_decide (r_properties self = r_properties o)
        | ENode _ => false
        end
    end.

Definition Relationship_hash (self : Relationship Graph) : Z :=
  Z.lxor (hash_tuple (map Node_hash (r_nodes self))) (hash_type (r_type self)).

(** *** [a == b] and [hash(a)] on entities *)

(** The operand whose class is a proper subclass of the other's is asked
    first; neither [__eq__] ever answers [NotImplemented]. *)
Definition py_eq (a b : Entity Graph) : bool :=
  match a, b with
  | ENode x, _ => Node_eq x b
  | ERel x, ENode _ => Relationship_eq x b
  | ERel x, ERel y =>
      if proper_subclass (r_type y) (r_type x)
      then Relationship_eq y a
      else Relationship_eq x b
  end.

Definition py_hash (e : Entity Graph) : Z :=
  match e with
  | ENode n => Node_hash n
  | ERel r => Relationship_hash r
  end.

(** Items of tuples, lists and sets are compared by identity, then [==]. *)
Definition item_eq (a b : Entity Graph) : bool :=
  entity_is a b || py_eq a b.

(** *** Lifecycle states *)

(** Not bound: the graph or the identity is still [None]. *)
Definition unbound_node (n : Node Graph) : Prop :=
  n_graph n = None ∨ n_identity n = None.

Definition unbound_relationship (r : Relationship Graph) : Prop :=
  r_graph r = None ∨ r_identity r = None.

(** Both bound, to graphs that compare equal and with the same identity. *)
Definition same_remote_node (a b : Node Graph) : Prop :=
  ∃ g g' i, n_graph a = Some g ∧ n_graph b = Some g'
            ∧ n_identity a = Some i ∧ n_identity b = Some i
            ∧ graph_eq g g' = true.

(** [==] on graphs is transitive. *)
Definition graph_eq_transitive : Prop :=
  ∀ g1 g2 g3 : Graph,
    graph_eq g1 g2 = true → graph_eq g2 g3 = true → graph_eq g1 g3 = true.
End Equality.

(** ** Python sets

    A set is the list of its stored keys.  A key is found when a stored key
    has the same hash and is the same object or compares equal: this is the
    lookup of [set], [frozenset] and [dict].  The order in which a set is
    iterated is not fixed by the language; the list keeps insertion order,
    and nothing below depends on it. *)

Section PySet.
Context {A : Type} (hash : A → Z) (eqb : A → A → bool).

Definition same_key (stored key : A) : bool :=
  (hash stored =? hash key)%Z && eqb stored key.

(** [key in s] *)
Definition set_contains (s : list A) (key : A) : bool :=
  existsb (fun stored => same_key stored key) s.

(** [s.add(key)] *)
Definition set_add (s : list A) (key : A) : list A :=
  if set_contains s key then s else s ++ [key].

(** [s.update(iterable)] *)
Definition set_update (s : list A) (iterable : list A) : list A :=
  fold_left set_add iterable s.

(** [set(iterable)], [frozenset(iterable)] *)
Definition set_of (iterable : list A) : list A := set_update [] iterable.

(** [s | t]: a copy of [s] updated with [t]. *)
Definition set_union (s t : list A) : list A := set_update s t.

(** [s & t]: the smaller operand is iterated, the larger one searched. *)
Definition set_intersection (s t : list A) : list A :=
  if (length s <? length t)%nat
  then List.filter (set_contains t) s
  else List.filter (set_contains s) t.

(** [s - t]: the keys of [s] not found in [t]. *)
Definition set_difference (s t : list A) : list A :=
  List.filter (fun key => negb (set_contains t key)) s.

(** [s.discard(key)], telling whether a key was removed. *)
Fixpoint set_discard (s : list A) (key : A) : option (list A) :=
  match s with
  | [] => None
  | stored :: s' =>
      if same_key stored key then Some s'
      else option_map (cons stored) (set_discard s' key)
  end.

(** [s ^ t]: a copy of [t] in which every key of [s] is removed when
    found and added otherwise. *)
Definition set_toggle (acc : list A) (key : A) : list A :=
  match set_discard acc key with
  | Some acc' => acc'
  | None => acc ++ [key]
  end.

Definition set_symmetric_difference (s t : list A) : list A :=
  fold_left set_toggle s (set_of t).

(** [s == t] on sets: same size and every key of [s] found in [t]. *)
Definition set_eq (s t : list A) : bool :=
  (length s =? length t)%nat && forallb (set_contains t) s.
End PySet.

(** ** Sequences: indexing, slicing, enumeration *)

(** [l[i]] *)
Definition py_index {A} (l : list A) (i : Z) : result A :=
  let n := Z.of_nat (length l) in
  let j := if (i <? 0)%Z then (i + n)%Z else i in
  if (j <? 0)%Z then Raise IndexError
  else match l !! Z.to_nat j with
       | Some x => Ok x
       | None => Raise IndexError
       end.

(** A slice bound brought into [0..n]. *)
Definition slice_bound (n b : Z) : Z :=
  if (b <? 0)%Z then Z.max 0 (b + n) else Z.min b n.

(** [l[start:stop]] *)
Definition py_slice {A} (l : list A) (start stop : option Z) : list A :=
  let n := Z.of_nat (length l) in
  let lo := match start with None => 0%Z | Some a => slice_bound n a end in
  let hi := match stop with None => n | Some b => slice_bound n b end in
  take (Z.to_nat (hi - lo)) (drop (Z.to_nat lo) l).

(** [l[0::2]] *)
Fixpoint every_other {A} (l : list A) : list A :=
  match l with
  | [] => []
  | x :: l' => x :: match l' with
                    | [] => []
                    | _ :: l'' => every_other l''
                    end
  end.

(** [l[k::2]] for [k >= 0] *)
Definition slice_step2 {A} (k : nat) (l : list A) : list A :=
  every_other (drop k l).

(** [enumerate(l)] *)
Definition enumerate {A} (l : list A) : list (nat * A) :=
  combine (seq 0 (length l)) l.

Section Structures.
Context {Graph : Type} `{!EqDecision Graph, !Externals Graph}.
Local Open Scope Z_scope.

#[local] Abbreviation Node := (Node Graph).
#[local] Abbreviation Relationship := (Relationship Graph).
#[local] Abbreviation Entity := (Entity Graph).

(** Sets of entities. *)
Definition contains := set_contains py_hash item_eq.
Definition frozenset := set_of py_hash item_eq.
Definition union := set_union py_hash item_eq.

(** ** Subgraph *)

Record Subgraph := mkSubgraph {
  sg_nodes : list Entity;            (* self.__nodes *)
  sg_relationships : list Entity;    (* self.__relationships *)
}.

(** [x or []] *)
Definition or_empty (x : option (list Entity)) : list Entity :=
  match x with
  | Some (y :: l) => y :: l
  | _ => []
  end.

(** [e.nodes]: the tuple [self.__sequence[0::2]] of the entity, whose
    sequence is [(self,)] for a node and [(n[0], self, n[1])] for a
    relationship. *)
Definition entity_sequence (e : Entity) : list Entity :=
  match e with
  | ENode n => [ENode n]
  | ERel r => [ENode (r_start r); ERel r; ENode (r_end r)]
  end.

Definition entity_nodes (e : Entity) : list Entity :=
  slice_step2 0 (entity_sequence e).

(** [chain] over [r.nodes] for [r] in the relationships *)
Definition endpoints (relationships : list Entity) : list Entity :=
  concat (map entity_nodes relationships).

(** The node set the constructor ends with. *)
Definition closed_nodes (nodes relationships : option (list Entity)) : list Entity :=
  union (frozenset (or_empty nodes))
        (frozenset (endpoints (frozenset (or_empty relationships)))).

Definition Subgraph_init (nodes relationships : option (list Entity)) : result Subgraph :=
  let self_nodes := frozenset (or_empty nodes) in
  let self_relationships := frozenset (or_empty relationships) in
  let self_nodes := union self_nodes (frozenset (endpoints self_relationships)) in
  match self_nodes with
  | [] => Raise ValueError
  | _ :: _ => Ok (mkSubgraph self_nodes self_relationships)
  end.

(** Closure: the node set holds the nodes of every relationship. *)
Definition closed (sg : Subgraph) : Prop :=
  ∀ r e, r ∈ sg_relationships sg → e ∈ entity_nodes r →
         contains (sg_nodes sg) e = true.

(** What holds of a construction that ends with the node set [node_set]:
    it raises ValueError exactly when that set is empty and raises nothing
    else, and the subgraph it returns has that node set, which is not empty
    and is closed. *)
Definition construction_checked (outcome : result Subgraph)
    (node_set : list Entity) : Prop :=
  (outcome = Raise ValueError ↔ node_set = [])
  ∧ (∀ e, outcome = Raise e → e = ValueError)
  ∧ (∀ sg, outcome = Ok sg →
       sg_nodes sg = node_set ∧ sg_nodes sg ≠ []
       ∧ (graph_eq_transitive → closed sg)).

(** [order(sg)] and [size(sg)] *)
Definition order (sg : Subgraph) : nat := length (sg_nodes sg).
Definition size (sg : Subgraph) : nat := length (sg_relationships sg).

(** Subgraph.__eq__ on two plain Subgraph objects, whose [nodes] and
    [relationships] properties return the two frozen sets.  The method on
    operands of which one is a Walkable, where the properties return
    tuples, is [Subgraph_eq_structures] below. *)
Definition Subgraph_eq (self other : Subgraph) : bool :=
  (order self =? order other)%nat
  && (size self =? size other)%nat
  && set_eq py_hash item_eq (sg_nodes self) (sg_nodes other)
  && set_eq py_hash item_eq (sg_relationships self) (sg_relationships other).

(** What the operators read from an operand: its [nodes] and
    [relationships] attributes, frozen sets on a Subgraph and tuples on a
    Walkable. *)
Class GraphStructure (T : Type) := {
  nodes_of : T → list Entity;
  relationships_of : T → list Entity;
}.

#[global] Instance Subgraph_structure : GraphStructure Subgraph := {|
  nodes_of := sg_nodes;
  relationships_of := sg_relationships;
|}.

(** [set().union] of [set(rel.nodes)] for [rel] in [r] *)
Definition union_of_endpoints (r : list Entity) : list Entity :=
  fold_left (fun acc rel => set_update py_hash item_eq acc (frozenset (entity_nodes rel))) r [].

Section Operators.
Context {S T : Type} `{!GraphStructure S, !GraphStructure T}.

Definition or_nodes (self : S) (other : T) : list Entity :=
  union (frozenset (nodes_of self)) (frozenset (nodes_of other)).

Definition or_relationships (self : S) (other : T) : list Entity :=
  union (frozenset (relationships_of self)) (frozenset (relationships_of other)).

Definition Subgraph_or (self : S) (other : T) : result Subgraph :=
  Subgraph_init (Some (or_nodes self other)) (Some (or_relationships self other)).

Definition and_nodes (self : S) (other : T) : list Entity :=
  set_intersection py_hash item_eq
    (frozenset (nodes_of self)) (frozenset (nodes_of other)).

Definition and_relationships (self : S) (other : T) : list Entity :=
  set_intersection py_hash item_eq
    (frozenset (relationships_of self)) (frozenset (relationships_of other)).

Definition Subgraph_and (self : S) (other : T) : result Subgraph :=
  Subgraph_init (Some (and_nodes self other)) (Some (and_relationships self other)).

Definition sub_relationships (self : S) (other : T) : list Entity :=
  set_difference py_hash item_eq
    (frozenset (relationships_of self)) (frozenset (relationships_of other)).

Definition sub_nodes (self : S) (other : T) : list Entity :=
  union (set_difference py_hash item_eq
           (frozenset (nodes_of self)) (frozenset (nodes_of other)))
        (union_of_endpoints (sub_relationships self other)).

Definition Subgraph_sub (self : S) (other : T) : result Subgraph :=
  let r := sub_relationships self other in
  let n := sub_nodes self other in
  Subgraph_init (Some n) (Some r).

Definition xor_relationships (self : S) (other : T) : list Entity :=
  set_symmetric_difference py_hash item_eq
    (frozenset (relationships_of self)) (frozenset (relationships_of other)).

Definition xor_nodes (self : S) (other : T) : list Entity :=
  union (set_symmetric_difference py_hash item_eq
           (frozenset (nodes_of self)) (frozenset (nodes_of other)))
        (union_of_endpoints (xor_relationships self other)).

Definition Subgraph_xor (self : S) (other : T) : result Subgraph :=
  let r := xor_relationships self other in
  let n := xor_nodes self other in
  Subgraph_init (Some n) (Some r).
End Operators.

(** ** Walkable *)

Record Walkable := mkWalkable {
  w_sequence : list Entity;   (* self.__sequence *)
  w_subgraph : Subgraph;      (* the Subgraph part, set by Subgraph.__init__ *)
}.

Definition Walkable_init (iterable : list Entity) : result Walkable :=
  let sequence := iterable in
  sg ←? Subgraph_init (Some (slice_step2 0 sequence)) (Some (slice_step2 1 sequence));
  Ok (mkWalkable sequence sg).

(** The [nodes] and [relationships] properties of a Walkable are tuples. *)
Definition Walkable_nodes (self : Walkable) : list Entity :=
  slice_step2 0 (w_sequence self).

Definition Walkable_relationships (self : Walkable) : list Entity :=
  slice_step2 1 (w_sequence self).

#[global] Instance Walkable_structure : GraphStructure Walkable := {|
  nodes_of := Walkable_nodes;
  relationships_of := Walkable_relationships;
|}.

Definition Walkable_walk (self : Walkable) : list Entity := w_sequence self.

Definition start_node (self : Walkable) : result Entity := py_index (w_sequence self) 0.

Definition end_node (self : Walkable) : result Entity := py_index (w_sequence self) (-1).

(** Walkable.__len__ *)
Definition Walkable_len (self : Walkable) : Z :=
  (Z.of_nat (length (w_sequence self)) - 1) / 2.

(** Walkable.__getitem__ *)
Inductive Index :=
  | Int (index : Z)
  | Slice (start stop : option Z).

Inductive Item :=
  | AnEntity (e : Entity)
  | AWalkable (w : Walkable).

Definition Walkable_getitem (self : Walkable) (index : Index) : result Item :=
  match index with
  | Slice start stop =>
      let start :=
        match start with
        | Some start =>
            let start := if start <? 0 then start + Walkable_len self else start in
            Some (2 * start)
        | None => None
        end in
      let stop :=
        match stop with
        | Some stop =>
            let stop := if stop <? 0 then stop + Walkable_len self else stop in
            Some (2 * stop + 1)
        | None => None
        end in
      w ←? Walkable_init (py_slice (w_sequence self) start stop);
      Ok (AWalkable w)
  | Int index =>
      if index <? 0 then
        e ←? py_index (w_sequence self) (2 * index); Ok (AnEntity e)
      else
        e ←? py_index (w_sequence self) (2 * index + 1); Ok (AnEntity e)
  end.

(** A slice bound counted from the end when negative:
    [if bound < 0: bound += len(self)]. *)
Definition from_end (self : Walkable) (bound : Z) : Z :=
  if bound <? 0 then bound + Walkable_len self else bound.

(** Nodes at the even positions, relationships at the odd ones, a node last. *)
Fixpoint alternating (sequence : list Entity) : bool :=
  match sequence with
  | [] => false
  | x :: after =>
      is_Node x && match after with
                   | [] => true
                   | y :: after => is_Relationship y && alternating after
                   end
  end.

(** ** walk *)

(** What the generator has yielded and the exception that ended it, if
    one did. *)
Record Walk := mkWalk {
  yielded : list Entity;
  raised : option Exception;
}.

(** [tuple(walk(...))], [list(walk(...))] *)
Definition collect (w : Walk) : result (list Entity) :=
  match raised w with
  | None => Ok (yielded w)
  | Some e => Raise e
  end.

(** [for i, entity in enumerate(entities): if i > 0: yield entity] *)
Definition yield_after_first (entities : list Entity) : list Entity :=
  map snd (List.filter (fun p => (0 <? fst p)%nat) (enumerate entities)).

(** The body of the [try] for one further walkable: the entities to
    yield and the new running end. *)
Definition walk_attach (running_end : Entity) (walkable : Walkable)
    : result (list Entity * Entity) :=
  s ←? start_node walkable;
  if py_eq running_end s then
    e ←? end_node walkable;
    Ok (Walkable_walk walkable, e)
  else
    e ←? end_node walkable;
    if py_eq running_end e then
      s ←? start_node walkable;
      Ok (rev (Walkable_walk walkable), s)
    else Raise ValueError.

Fixpoint walk_from (running_end : Entity) (walkables : list Walkable) : Walk :=
  match walkables with
  | [] => mkWalk [] None
  | walkable :: later =>
      match walk_attach running_end walkable with
      | Raise e => mkWalk [] (Some e)
      | Ok (entities, running_end) =>
          let rest := walk_from running_end later in
          mkWalk (yield_after_first entities ++ yielded rest) (raised rest)
      end
  end.

Definition walk (walkables : list Walkable) : Walk :=
  match walkables with
  | [] => mkWalk [] None
  | walkable :: later =>
      let entities := Walkable_walk walkable in
      match end_node walkable with
      | Raise e => mkWalk entities (Some e)
      | Ok running_end =>
          let rest := walk_from running_end later in
          mkWalk (entities ++ yielded rest) (raised rest)
      end
  end.

(** Walkable.__eq__ *)
Definition Walkable_eq (self other : Walkable) : result bool :=
  match collect (walk [other]) with
  | Raise TypeError => Ok false
  | Raise e => Raise e
  | Ok other_walk =>
      self_walk ←? collect (walk [self]);
      Ok (items_eq item_eq self_walk other_walk)
  end.

(** *** Subgraph.__eq__ on any two graph structures

    The method reads [order], [size] and the properties [nodes] and
    [relationships] of both operands.  The counts come from the private
    sets, which a Walkable has too; the properties return the frozen sets
    on a plain Subgraph and the tuples [sequence[0::2]] and
    [sequence[1::2]] on a Walkable, which overrides them. *)
Inductive Members :=
  | FrozenSet (keys : list Entity)
  | Tuple (items : list Entity).

(** [==] between two such values: equality of sets, equality of tuples
    item by item, and False between a set and a tuple. *)
Definition Members_eq (a b : Members) : bool :=
  match a, b with
  | FrozenSet s, FrozenSet t => set_eq py_hash item_eq s t
  | Tuple s, Tuple t => items_eq item_eq s t
  | _, _ => false
  end.

Inductive Structure :=
  | Plain (sg : Subgraph)
  | Walked (w : Walkable).

(** The sets [__nodes] and [__relationships] of the object. *)
Definition private_sets (x : Structure) : Subgraph :=
  match x with
  | Plain sg => sg
  | Walked w => w_subgraph w
  end.

Definition Structure_nodes (x : Structure) : Members :=
  match x with
  | Plain sg => FrozenSet (sg_nodes sg)
  | Walked w => Tuple (Walkable_nodes w)
  end.

Definition Structure_relationships (x : Structure) : Members :=
  match x with
  | Plain sg => FrozenSet (sg_relationships sg)
  | Walked w => Tuple (Walkable_relationships w)
  end.

Definition Subgraph_eq_structures (self other : Structure) : bool :=
  (order (private_sets self) =? order (private_sets other))%nat
  && (size (private_sets self) =? size (private_sets other))%nat
  && Members_eq (Structure_nodes self) (Structure_nodes other)
  && Members_eq (Structure_relationships self) (Structure_relationships other).

(** Walkable.__add__ *)
Definition Walkable_add (self : Walkable) (other : option Walkable) : result Walkable :=
  match other with
  | None => Ok self
  | Some other =>
      entities ←? collect (walk [self; other]);
      Walkable_init entities
  end.

(** *** The traversal in the words of the specification

    Seed with the first walkable's full sequence; then, for each further
    walkable, append its sequence forward when the running end equals its
    start node, reversed when the running end equals its end node, in both
    cases without the first element, and fail otherwise. *)

Definition DisconnectedWalkError : Exception := ValueError.

Fixpoint spliced (running_end : Entity) (rest : list Walkable) : Walk :=
  match rest with
  | [] => mkWalk [] None
  | next :: rest =>
      match head (w_sequence next), last (w_sequence next) with
      | Some next_start, Some next_end =>
          if py_eq running_end next_start then
            let later := spliced next_end rest in
            mkWalk (tail (w_sequence next) ++ yielded later) (raised later)
          else if py_eq running_end next_end then
            let later := spliced next_start rest in
            mkWalk (tail (rev (w_sequence next)) ++ yielded later) (raised later)
          else mkWalk [] (Some DisconnectedWalkError)
      | _, _ => mkWalk [] None
      end
  end.

Definition walk_spec (walkables : list Walkable) : Walk :=
  match walkables with
  | [] => mkWalk [] None
  | first :: rest =>
      match last (w_sequence first) with
      | Some running_end =>
          let later := spliced running_end rest in
          mkWalk (w_sequence first ++ yielded later) (raised later)
      | None => mkWalk [] None
      end
  end.

(** The entities a sequence brings into a subgraph: its items and the
    nodes of each of them. *)
Definition universe (sequence : list Entity) : list Entity :=
  sequence ++ endpoints sequence.

(** Distinct objects are distinct set keys: none of them is found when
    another one is looked up. *)
Definition keys_distinct (entities : list Entity) : Prop :=
  ∀ x y, x ∈ entities → y ∈ entities →
         same_key py_hash item_eq x y = true → x = y.

Definition keys_distinctb (entities : list Entity) : bool :=
  forallb (fun x =>
    forallb (fun y => implb (same_key py_hash item_eq x y) (bool_decide (x = y)))
            entities) entities.

(** Distinct objects are distinct entities: no two of them compare equal
    as items of a tuple. *)
Definition entities_distinct (entities : list Entity) : Prop :=
  ∀ x y, x ∈ entities → y ∈ entities → item_eq x y = true → x = y.

Definition entities_distinctb (entities : list Entity) : bool :=
  forallb (fun x =>
    forallb (fun y => implb (item_eq x y) (bool_decide (x = y)))
            entities) entities.

(** The number of entities in the sequences of some walkables. *)
Definition total_length (walkables : list Walkable) : nat :=
  sum_list (map (fun w => length (w_sequence w)) walkables).
End Structures.
Arguments Subgraph : clear implicits.
Arguments Walkable : clear implicits.
Arguments Item : clear implicits.
Arguments Walk : clear implicits.

(** ** Node: labels and properties behind the stale flags *)

Section NodeMethods.
Context {Graph : Type}.

(** [graph.pull(node)]: the owning graph refreshes the node in place.  It
    lives outside this module; the methods below only call it. *)
Variable pull : Graph → Node Graph → Node Graph.

(** A call made to the owning graph. *)
Inductive Call :=
  | Pull (g : Graph) (node : Z).

(** A method run on [self]: the value returned, [self] afterwards and the
    calls made to the graph, in order. *)
Definition Method (A : Type) : Type := Node Graph → A * Node Graph * list Call.

Definition ret {A} (a : A) : Method A := fun self => (a, self, []).

Definition and_then {A B} (m : Method A) (k : A → Method B) : Method B :=
  fun self =>
    let '(a, self1, calls1) := m self in
    let '(b, self2, calls2) := k a self1 in
    (b, self2, calls1 ++ calls2).

Definition get {A} (f : Node Graph → A) : Method A := fun self => (f self, self, []).

Definition update (f : Node Graph → Node Graph) : Method unit :=
  fun self => (tt, f self, []).

Definition graph_pull (g : Graph) : Method unit :=
  fun self => (tt, pull g self, [Pull g (n_id self)]).

Notation "m >> k" := (and_then m (fun _ => k)) (at level 61, left associativity).

(** [self.graph is not None and self.identity is not None and what in self._stale] *)
Definition bound_and_stale (what : string) (self : Node Graph) : option Graph :=
  match n_graph self, n_identity self with
  | Some g, Some _ => if bool_decide (what ∈ n_stale self) then Some g else None
  | _, _ => None
  end.

Definition pull_if_stale (what : string) : Method unit :=
  fun self =>
    match bound_and_stale what self with
    | Some g => graph_pull g self
    | None => ret tt self
    end.

(** [self._labels] replaced by [f self._labels], nothing else touched. *)
Definition on_labels (f : gset string → gset string) (n : Node Graph) : Node Graph :=
  mkNode (n_id n) (n_uuid n) (n_graph n) (n_identity n) (n_remote_labels n)
         (f (n_labels n)) (n_properties n) (n_stale n).

(** Node.__getitem__; [Entity.__getitem__] is the lookup of the property
    map, [None] for a missing key. *)
Definition Node_getitem (item : string) : Method (option PropValue) :=
  pull_if_stale "properties" >> get (fun self => n_properties self !! item).

Definition Node_ensure_labels : Method unit := pull_if_stale "labels".

Definition Node_labels : Method (gset string) :=
  Node_ensure_labels >> get n_labels.

Definition Node_has_label (label : string) : Method bool :=
  Node_ensure_labels >> get (fun self => bool_decide (label ∈ n_labels self)).

Definition Node_add_label (label : string) : Method unit :=
  Node_ensure_labels >> update (on_labels (fun labels => labels ∪ {[label]})).

Definition Node_remove_label (label : string) : Method unit :=
  Node_ensure_labels >> update (on_labels (fun labels => labels ∖ {[label]})).

Definition Node_clear_labels : Method unit :=
  Node_ensure_labels >> update (on_labels (fun _ => ∅)).

Definition Node_update_labels (labels : list string) : Method unit :=
  Node_ensure_labels >> update (on_labels (fun old => old ∪ list_to_set labels)).

(** What a run leaves behind. *)
Definition value_of {A} (r : A * Node Graph * list Call) : A := r.1.1.
Definition self_after {A} (r : A * Node Graph * list Call) : Node Graph := r.1.2.
Definition calls_of {A} (r : A * Node Graph * list Call) : list Call := r.2.
End NodeMethods.
Arguments Call : clear implicits.

(** ** Hashes and truth values of subgraphs and walkables *)

Section Hashes.
Context {Graph : Type} `{!EqDecision Graph, !Externals Graph}.

(** [value ^= hash(entity)] over some entities. *)
Definition xor_hashes (value : Z) (entities : list (Entity Graph)) : Z :=
  fold_left (fun value entity => Z.lxor value (py_hash entity)) entities value.

(** Subgraph.__hash__ *)
Definition Subgraph_hash (self : Subgraph Graph) : Z :=
  let value := 0%Z in
  let value := xor_hashes value (sg_nodes self) in
  let value := xor_hashes value (sg_relationships self) in
  value.

(** Walkable.__hash__ *)
Definition Walkable_hash (self : Walkable Graph) : Z :=
  xor_hashes 0%Z (w_sequence self).

(** Subgraph.__len__ and Subgraph.__bool__; a Walkable overrides the
    first and inherits the second. *)
Definition Subgraph_len (self : Subgraph Graph) : nat := length (sg_relationships self).

Definition Subgraph_bool (self : Subgraph Graph) : bool :=
  match sg_relationships self with
  | [] => false
  | _ :: _ => true
  end.

(** A list in which no stored key is found when a later one is looked up:
    the shape of every set built by [add]. *)
Inductive KeySet : list (Entity Graph) → Prop :=
  | KeySet_nil : KeySet []
  | KeySet_snoc s key :
      KeySet s → contains s key = false → KeySet (s ++ [key]).
End Hashes.

(** ** Strings: replace *)

(** [s.replace(old, new)] for a non-empty [old], read from left to right;
    [skip] characters of a replaced occurrence are still to be passed. *)
Fixpoint replace_from (skip : nat) (old new s : string) : string :=
  match s with
  | EmptyString => EmptyString
  | String c rest =>
      match skip with
      | S skip => replace_from skip old new rest
      | O =>
          if String.prefix old s
          then new +:+ replace_from (String.length old - 1) old new rest
          else String c (replace_from 0 old new rest)
      end
  end.

(** [s.replace("", new)]: [new] before every character and at the end. *)
Fixpoint interleave (new s : string) : string :=
  match s with
  | EmptyString => new
  | String c rest => new +:+ String c (interleave new rest)
  end.

Definition str_replace (old new s : string) : string :=
  match old with
  | EmptyString => interleave new s
  | String _ _ => replace_from 0 old new s
  end.

(** The characters of a string, and [ch in s] for a character. *)
Definition chars (s : string) : list ascii := String.list_ascii_of_string s.

Definition char_in (ch : ascii) (s : string) : bool :=
  existsb (fun c => bool_decide (c = ch)) (chars s).

(** The double quote, carriage return and line feed. *)
Definition quote_char : ascii := ascii_of_nat 34.
Definition cr_char : ascii := ascii_of_nat 13.
Definition lf_char : ascii := ascii_of_nat 10.

(** ** html_escape *)

Definition html_escape (s : string) : string :=
  str_replace "'" "&#039;"
    (str_replace (String quote_char EmptyString) "&quot;"
       (str_replace ">" "&gt;"
          (str_replace "<" "&lt;"
             (str_replace "&" "&amp;" s)))).

(** Each character replaced by a string. *)
Fixpoint expand (f : ascii → string) (s : string) : string :=
  match s with
  | EmptyString => EmptyString
  | String c rest => f c +:+ expand f rest
  end.

(** The entity of each of the five characters. *)
Definition escape_char (c : ascii) : string :=
  if decide (c = "&"%char) then "&amp;"
  else if decide (c = "<"%char) then "&lt;"
  else if decide (c = ">"%char) then "&gt;"
  else if decide (c = quote_char) then "&quot;"
  else if decide (c = "'"%char) then "&#039;"
  else String c EmptyString.

Definition html_special (c : ascii) : bool :=
  bool_decide (c = "&"%char) || bool_decide (c = "<"%char) || bool_decide (c = ">"%char)
  || bool_decide (c = quote_char) || bool_decide (c = "'"%char).

(** ** Table *)

(** The values of a record: [None], booleans, integers, strings, and any
    other value, of a class that derives from none of these, by the name
    of its class and its text. *)
Inductive PyValue :=
  | VNone
  | VBool (b : bool)
  | VInt (z : Z)
  | VStr (s : string)
  | VOther (class_name : string) (text : string).

Inductive PyType :=
  | BoolType
  | IntType
  | StrType
  | NoneType
  | OtherType (class_name : string).

#[global] Instance PyValue_eq_dec : EqDecision PyValue.
Proof. solve_decision. Defined.

#[global] Instance PyType_eq_dec : EqDecision PyType.
Proof. solve_decision. Defined.

(** [type(value)] *)
Definition type_of (value : PyValue) : PyType :=
  match value with
  | VNone => NoneType
  | VBool _ => BoolType
  | VInt _ => IntType
  | VStr _ => StrType
  | VOther class_name _ => OtherType class_name
  end.

(** The ["type"] of a field: the one class seen, or the tuple of them. *)
Inductive FieldType :=
  | OneType (t : PyType)
  | TypeTuple (types : list PyType).

Record Field := mkField {
  f_type : FieldType;
  f_numeric : bool;
  f_optional : bool;
}.

Record Table := mkTable {
  t_records : list (list PyValue);   (* the list part: one tuple per record *)
  t_keys : list string;              (* self._keys *)
  t_fields : list Field;             (* self._fields *)
}.

(** KeyError carries its key; the other exceptions are the built-in ones. *)
Inductive TableException :=
  | KeyError (key : string)
  | Builtin (e : Exception).

(** [range(start, stop)] *)
Definition py_range (start stop : Z) : list Z :=
  map (fun i => (start + Z.of_nat i)%Z) (seq 0 (Z.to_nat (stop - start))).

(** [keys.index(key)] *)
Fixpoint list_index (key : string) (keys : list string) : option nat :=
  match keys with
  | [] => None
  | k :: later =>
      if decide (k = key) then Some 0%nat
      else option_map S (list_index key later)
  end.

(** [types.add(t)] on the set of classes of a column. *)
Definition type_add (types : list PyType) (t : PyType) : list PyType :=
  if decide (t ∈ types) then types else types ++ [t].

Section Tables.
(** [numeric_types], from the compatibility module. *)
Variable numeric_types : list PyType.

(** The two lists filled while the records are read: the classes seen in
    each column and whether a [None] was seen there. *)
Definition Columns : Type := list (list PyType) * list bool.

(** [if value is None: o[i] = True else: t[i].add(type(value))] *)
Definition note_value (columns : Columns) (i : nat) (value : PyValue) : result Columns :=
  let '(t, o) := columns in
  match value with
  | VNone =>
      if decide (i < length o) then Ok (t, <[i := true]> o) else Raise IndexError
  | _ =>
      match t !! i with
      | Some types => Ok (<[i := type_add types (type_of value)]> t, o)
      | None => Raise IndexError
      end
  end.

Fixpoint note_values (columns : Columns) (numbered : list (nat * PyValue)) : result Columns :=
  match numbered with
  | [] => Ok columns
  | (i, value) :: later =>
      columns ←? note_value columns i value;
      note_values columns later
  end.

Fixpoint note_records (columns : Columns) (records : list (list PyValue)) : result Columns :=
  match records with
  | [] => Ok columns
  | record :: later =>
      columns ←? note_values columns (enumerate record);
      note_records columns later
  end.

(** One entry of [f]. *)
Definition make_field (types : list PyType) (optional : bool) : Field :=
  mkField
    (match types with
     | [t] => OneType t
     | _ => TypeTuple types
     end)
    (forallb (fun t => bool_decide (t ∈ numeric_types)) types)
    optional.

(** Table.__init__; [records_keys] is [records.keys()] when the records
    have that method, [keys] the argument of that name. *)
Definition Table_init (records : list (list PyValue))
    (records_keys keys : option (list string)) : result Table :=
  k ←? match keys with
       | None =>
           match records_keys with
           | Some k => Ok k
           | None => Raise ValueError
           end
       | Some keys => Ok keys
       end;
  let width := length k in
  let t := replicate width [] in
  let o := replicate width false in
  columns ←? note_records (t, o) records;
  let f := map (fun i => make_field (default [] (columns.1 !! i))
                                    (default false (columns.2 !! i)))
               (seq 0 width) in
  Ok (mkTable records k f).

(** Table.keys *)
Definition Table_keys (self : Table) : list string := t_keys self.

(** [isinstance(key, integer_types)], with the integer the key stands
    for as an index: a bool is an int, [False] being 0 and [True] 1. *)
Definition as_integer (key : PyValue) : option Z :=
  match key with
  | VInt z => Some z
  | VBool b => Some (if b then 1 else 0)%Z
  | _ => None
  end.

(** [isinstance(key, string_types)] *)
Definition as_string (key : PyValue) : option string :=
  match key with
  | VStr s => Some s
  | _ => None
  end.

(** Table.field *)
Definition Table_field (self : Table) (key : PyValue) : TableException + Field :=
  match as_integer key with
  | Some key =>
      match py_index (t_fields self) key with
      | Ok field => inr field
      | Raise e => inl (Builtin e)
      end
  | None =>
      match as_string key with
      | Some key =>
          match list_index key (t_keys self) with
          | None => inl (KeyError key)
          | Some index =>
              match py_index (t_fields self) (Z.of_nat index) with
              | Ok field => inr field
              | Raise e => inl (Builtin e)
              end
          end
      | None => inl (Builtin TypeError)
      end
  end.

(** Table._range *)
Definition Table_range (self : Table) (skip limit : option Z) : list Z :=
  let len := Z.of_nat (length (t_records self)) in
  let skip := match skip with None => 0%Z | Some skip => skip end in
  match limit with
  | None => py_range skip len
  | Some limit =>
      if (len <? skip + limit)%Z then py_range skip len
      else py_range skip (skip + limit)
  end.

(** *** write_separated_values

    What is sent to the file is the list of the strings of the successive
    calls of [secho]; the styles are left out. *)

(** [cypher_repr], from the Cypher writer. *)
Variable cypher_repr : PyValue → string.

Section Separated.
Variables (separator newline quote : string).

Definition escaped_quote : string := quote +:+ quote.
Definition quotable : string := separator +:+ newline +:+ quote.

Definition write_value (value : PyValue) : list string :=
  match value with
  | VNone => []
  | VStr value =>
      [if existsb (fun ch => char_in ch value) (chars quotable)
       then quote +:+ str_replace quote escaped_quote value +:+ quote
       else value]
  | _ => [cypher_repr value]
  end.

Definition write_line (values : list PyValue) : list string :=
  flat_map (fun '(i, value) =>
              (if (0 <? i)%nat then [separator] else []) ++ write_value value)
           (enumerate values)
  ++ [newline].

(** The loop of [apply]: [count] rows are behind, the indices are still to
    be written.  A row that cannot be fetched ends the loop with what has
    been written so far. *)
Fixpoint write_rows (self : Table) (header : bool) (count : nat) (indices : list Z)
    : list string * result nat :=
  match indices with
  | [] => ([], Ok count)
  | index :: later =>
      let count := S count in
      let heading :=
        if (count =? 1)%nat && header
        then write_line (map VStr (Table_keys self))
        else [] in
      match py_index (t_records self) index with
      | Raise e => (heading, Raise e)
      | Ok record =>
          let '(written, outcome) := write_rows self header count later in
          (heading ++ write_line record ++ written, outcome)
      end
  end.

Definition write_separated_values (self : Table) (header : bool)
    (skip limit : option Z) : list string * result nat :=
  write_rows self header 0 (Table_range self skip limit).
End Separated.

Definition crlf : string := String cr_char (String lf_char EmptyString).
Definition double_quote : string := String quote_char EmptyString.
Definition tab : string := String (ascii_of_nat 9) EmptyString.

(** Table.write_csv and Table.write_tsv *)
Definition write_csv (self : Table) (header : bool) (skip limit : option Z)
    : list string * result nat :=
  write_separated_values "," crlf double_quote self header skip limit.

Definition write_tsv (self : Table) (header : bool) (skip limit : option Z)
    : list string * result nat :=
  write_separated_values tab crlf double_quote self header skip limit.
End Tables.

(** *** write_html

    What is sent to the file is the list of the strings of the successive
    calls of [echo]. *)

Section Html.
(** [cypher_str], from the Cypher writer. *)
Variable cypher_str : PyValue → string.

(** The two templates of a cell, filled in. *)
Definition cell_template (on_right : bool) (tag text : string) : string :=
  "<" +:+ tag +:+ " style=" +:+ double_quote
  +:+ (if on_right then "text-align:right" else "text-align:left")
  +:+ double_quote +:+ ">" +:+ text +:+ "</" +:+ tag +:+ ">".

(** [auto_align and self._fields[i]["numeric"]] *)
Definition right_aligned (self : Table) (auto_align : bool) (i : nat) : result bool :=
  if auto_align
  then field ←? py_index (t_fields self) (Z.of_nat i); Ok (f_numeric field)
  else Ok false.

(** The loop of [write_tr]. *)
Fixpoint write_cells (self : Table) (auto_align : bool) (tag : string)
    (numbered : list (nat * PyValue)) : list string * result unit :=
  match numbered with
  | [] => ([], Ok tt)
  | (i, value) :: later =>
      match right_aligned self auto_align i with
      | Raise e => ([], Raise e)
      | Ok on_right =>
          let '(written, outcome) := write_cells self auto_align tag later in
          (cell_template on_right tag (html_escape (cypher_str value)) :: written, outcome)
      end
  end.

Definition write_tr (self : Table) (auto_align : bool) (values : list PyValue)
    (tag : string) : list string * result unit :=
  let '(written, outcome) := write_cells self auto_align tag (enumerate values) in
  match outcome with
  | Ok _ => ("<tr>"%string :: written ++ ["</tr>"%string], Ok tt)
  | Raise e => ("<tr>"%string :: written, Raise e)
  end.

(** The loop over the selected rows: [count] rows are behind. *)
Fixpoint write_html_rows (self : Table) (auto_align header : bool) (count : nat)
    (indices : list Z) : list string * result nat :=
  match indices with
  | [] => ([], Ok count)
  | index :: later =>
      let count := S count in
      let '(heading, outcome) :=
        if (count =? 1)%nat && header
        then write_tr self auto_align (map VStr (Table_keys self)) "th"
        else ([], Ok tt) in
      match outcome with
      | Raise e => (heading, Raise e)
      | Ok _ =>
          match py_index (t_records self) index with
          | Raise e => (heading, Raise e)
          | Ok record =>
              let '(row, outcome) := write_tr self auto_align record "td" in
              match outcome with
              | Raise e => (heading ++ row, Raise e)
              | Ok _ =>
                  let '(written, outcome) :=
                    write_html_rows self auto_align header count later in
                  (heading ++ row ++ written, outcome)
              end
          end
      end
  end.

Definition write_html (self : Table) (auto_align header : bool)
    (skip limit : option Z) : list string * result nat :=
  let '(written, outcome) :=
    write_html_rows self auto_align header 0 (Table_range self skip limit) in
  match outcome with
  | Ok count => ("<table>"%string :: written ++ ["</table>"%string], Ok count)
  | Raise e => ("<table>"%string :: written, Raise e)
  end.
End Html.

(** ** Sample objects

    An environment in which a graph is known by its name, and a few
    entities in the states the statements below need. *)

#[local] Instance sample_externals : Externals string := {|
  graph_eq := String.eqb;
  graph_bool := fun _ => true;
  hash_database := fun _ => 17%Z;
  hash_name := fun g => Z.of_nat (String.length g);
  hash_tuple := fun hashes => fold_left (fun h x => (31 * h + x)%Z) hashes 7%Z;
  hash_type := fun t => match t with
                        | RelationshipClass => 1%Z
                        | NamedType name => (2 + Z.of_nat (String.length name))%Z
                        end;
|}.

Definition fresh_node (addr : Z) (uuid : string) : Node string :=
  mkNode addr uuid None None ∅ ∅ ∅ ∅.

Definition alice : Node string := fresh_node 4096 "0b9f6c1e-52a7-4d0e-8c3b-6f1de2af7c90".
Definition bob : Node string := fresh_node 4160 "7d3a1f08-9c4e-4b7a-a2d5-13ffcb206e55".
Definition carol : Node string := fresh_node 4224 "e81c07d2-33b9-4f5a-9d6e-20b4a7cd1f3a".

Definition related (addr : Z) (uuid : string) (t : string) (a b : Node string)
    : Relationship string :=
  mkRelationship addr uuid (NamedType t) a b None None ∅ ∅.

Definition alice_knows_bob : Relationship string :=
  related 8192 "c45e9a10-0f6b-4c2d-b7e1-88aadf301b27" "KNOWS" alice bob.

(** A second object built by the same call, [Relationship(alice, "KNOWS", bob)]. *)
Definition alice_knows_bob_again : Relationship string :=
  related 8256 "19d0b6f3-a7c2-4e81-8f0a-5b23c9e4d716" "KNOWS" alice bob.

Definition bob_likes_carol : Relationship string :=
  related 8320 "5fa2c8e7-6d14-4b39-a0c5-f7e2d91b4a68" "LIKES" bob carol.

(** [Relationship(alice, "KNOWS")], from alice to herself. *)
Definition alice_knows_alice : Relationship string :=
  related 8448 "3a7f9c2e-b5d1-4a68-9e04-7c1b8d6fae53" "KNOWS" alice alice.

Definition carol_knows_bob : Relationship string :=
  related 8384 "8e6b2d4f-c1a9-4f70-b3d8-0a9c5e7f1b42" "KNOWS" carol bob.

(** Two objects for the node with identity 0 of the graph ["data"], and two
    for the node with identity 7, whose label caches differ. *)
Definition remote (addr : Z) (uuid : string) (identity : Z) (labels : gset string)
    : Node string :=
  mkNode addr uuid (Some "data"%string) (Some identity) ∅ labels ∅ ∅.

Definition first_node : Node string :=
  remote 12288 "a3e4f5b6-1c2d-4e3f-8a9b-0c1d2e3fab45" 0 ∅.
Definition first_node_again : Node string :=
  remote 12352 "b7c8d9e0-5f6a-4b7c-9d0e-1f2a3b4cde67" 0 ∅.
Definition seventh_node : Node string :=
  remote 12416 "d1e2f3a4-9b0c-4d1e-a2f3-4a5b6c7def89" 7 {["Person"%string]}.
Definition seventh_node_again : Node string :=
  remote 12480 "f5a6b7c8-3d4e-4f5a-b6c7-8d9e0f1abc23" 7 ∅.

(** A bound node whose labels and properties are marked stale. *)
Definition stale_node : Node string :=
  mkNode 16384 "2c3d4e5f-7a8b-4c9d-8e0f-1a2b3c4dfe01" (Some "data"%string) (Some 7%Z)
         ∅ ∅ ∅ {["labels"%string; "properties"%string]}.

(** A graph whose pull finds nothing to refresh and leaves the node as it is. *)
Definition idle_pull (g : string) (n : Node string) : Node string := n.

(** A graph whose pull fetches the label Person and marks the node fresh. *)
Definition refreshing_pull (g : string) (n : Node string) : Node string :=
  mkNode (n_id n) (n_uuid n) (n_graph n) (n_identity n) {["Person"%string]}
         {["Person"%string]} (n_properties n) ∅.

(** The walkable built from a sequence known to hold a node. *)
Definition walkable_of (sequence : list (Entity string)) : Walkable string :=
  match Walkable_init sequence with
  | Ok w => w
  | Raise _ => mkWalkable [] (mkSubgraph [] [])
  end.

Definition forward : list (Entity string) :=
  [ENode alice; ERel alice_knows_bob; ENode bob; ERel bob_likes_carol; ENode carol].

Definition backward : list (Entity string) := rev forward.

Definition alice_to_bob : Walkable string :=
  walkable_of [ENode alice; ERel alice_knows_bob; ENode bob].

(** The relationships [alice_knows_bob] and [bob_likes_carol] as walkables. *)
Definition ab : Walkable string := walkable_of (entity_sequence (ERel alice_knows_bob)).
Definition bc : Walkable string := walkable_of (entity_sequence (ERel bob_likes_carol)).
Definition cb : Walkable string := walkable_of (entity_sequence (ERel carol_knows_bob)).

(** [Subgraph([alice, bob])] *)
Definition two_nodes : Subgraph string := mkSubgraph [ENode alice; ENode bob] [].

(** A token drawn with a digit seventh from the end, then the token of [bob]. *)
Definition drawn_tokens : list string :=
  ["0b9f6c1e-52a7-4d0e-8c3b-6f1de2a47c90"%string; n_uuid bob].

(** The numeric classes, a Cypher writer, and a table of three records
    under the keys name and age. *)
Definition sample_numeric_types : list PyType := [IntType; OtherType "float"].

Definition sample_cypher_repr (value : PyValue) : string :=
  match value with
  | VNone => "null"
  | VBool true => "true"
  | VBool false => "false"
  | VInt z => pretty z
  | VStr s => "'" +:+ s +:+ "'"
  | VOther _ text => text
  end.

Definition people_records : list (list PyValue) :=
  [[VStr "Alice"; VInt 33]; [VStr "Bob, Jr."; VNone]; [VStr "Carol"; VOther "float" "44.5"]].

Definition people_keys : list string := ["name"%string; "age"%string].

Definition people : Table :=
  match Table_init sample_numeric_types people_records None (Some people_keys) with
  | Ok table => table
  | Raise _ => mkTable [] [] []
  end.

Definition sample_cypher_str (value : PyValue) : string :=
  match value with
  | VStr s => s
  | _ => sample_cypher_repr value
  end.

(** * Properties *)

Section EqualityFacts.
Context {Graph : Type} `{!EqDecision Graph, !Externals Graph}.

Lemma entity_is_refl (x : Entity Graph) : entity_is x x = true.
Proof. unfold entity_is. by apply bool_decide_eq_true_2. Qed.

Lemma item_eq_refl (x : Entity Graph) : item_eq x x = true.
Proof. unfold item_eq. by rewrite entity_is_refl. Qed.

Lemma Node_eq_spec (a b : Node Graph) :
  Node_eq a (ENode b) = true ↔ a = b ∨ same_remote_node a b.
Proof.
  unfold Node_eq, entity_is, same_remote_node. simpl.
  case_bool_decide as Hab.
  - split; [intros _; left; congruence | done].
  - destruct (n_graph a) as [g|], (n_graph b) as [g'|],
      (n_identity a) as [i|], (n_identity b) as [i'|]; simpl;
      try (split; [done | intros [-> | (? & ? & ? & ? & ? & ? & ? & ?)]; congruence]).
    rewrite andb_true_iff, Z.eqb_eq. split.
    + intros [Hg ->]. right. by exists g, g', i'.
    + intros [-> | (? & ? & ? & ? & ? & ? & ? & ?)]; [done |]. split; congruence.
Qed.

Lemma node_item_eq_spec (a b : Node Graph) :
  node_item_eq a b = true ↔ a = b ∨ same_remote_node a b.
Proof.
  unfold node_item_eq. rewrite orb_true_iff, bool_decide_eq_true, Node_eq_spec. tauto.
Qed.

Lemma item_eq_nodes (a b : Node Graph) :
  item_eq (ENode a) (ENode b) = true ↔ a = b ∨ same_remote_node a b.
Proof.
  unfold item_eq, entity_is. simpl.
  rewrite orb_true_iff, bool_decide_eq_true, Node_eq_spec.
  split; [intros [? | ?]; [left; congruence | done] | intros [-> | ?]; auto].
Qed.

(** Only a node is found equal to a node. *)
Lemma item_eq_to_node (x : Entity Graph) (b : Node Graph) :
  item_eq x (ENode b) = true → ∃ a, x = ENode a.
Proof.
  destruct x as [a | r]; [by exists a |].
  unfold item_eq, entity_is, py_eq, Relationship_eq, entity_is. simpl.
  destruct (r_graph r), (n_graph b), (r_identity r), (n_identity b); simpl; discriminate.
Qed.

(** If [==] on graphs is transitive, so is the comparison of set keys
    that ends on a node. *)
Lemma same_key_node_trans (z y : Entity Graph) (e : Node Graph) :
  (∀ g1 g2 g3, graph_eq g1 g2 = true → graph_eq g2 g3 = true → graph_eq g1 g3 = true) →
  same_key py_hash item_eq z y = true →
  same_key py_hash item_eq y (ENode e) = true →
  same_key py_hash item_eq z (ENode e) = true.
Proof.
  intros Htrans. unfold same_key. rewrite !andb_true_iff, !Z.eqb_eq.
  intros [Hzy Ezy] [Hye Eye].
  destruct (item_eq_to_node _ _ Eye) as [b ->].
  destruct (item_eq_to_node _ _ Ezy) as [a ->].
  split; [congruence |].
  apply item_eq_nodes in Ezy, Eye. apply item_eq_nodes.
  destruct Ezy as [-> | Hab]; [done |].
  destruct Eye as [<- | Hbe]; [by right |].
  right.
  destruct Hab as (g1 & g2 & i & Ha & Hb & Hia & Hib & Hg).
  destruct Hbe as (g2' & g3 & i' & Hb' & He & Hib' & Hie & Hg').
  exists g1, g3, i. repeat split; try done; [congruence |].
  apply (Htrans g1 g2 g3); [done | congruence].
Qed.

(** ** Nodes *)

Lemma py_eq_unbound_nodes (a b : Node Graph) :
  unbound_node a ∨ unbound_node b →
  py_eq (ENode a) (ENode b) = true ↔ a = b.
Proof.
  intros Hunbound. simpl. rewrite Node_eq_spec. split; [| by left].
  intros [-> | (g & g' & i & Ha & Hb & Hia & Hib & _)]; [done |].
  destruct Hunbound as [[H | H] | [H | H]]; congruence.
Qed.

(** C3: two nodes of which one has no graph or no identity are equal
    exactly when they are the same object; two nodes that are both bound,
    to equal graphs and with equal identities, are equal whichever objects
    they are and whatever labels and properties they hold. *)
Theorem C3_node_equality (a b : Node Graph) :
  (unbound_node a ∨ unbound_node b →
     (py_eq (ENode a) (ENode b) = true ↔ a = b))
  ∧ (∀ g g' i labels props labels' props',
       n_graph a = Some g → n_graph b = Some g' →
       n_identity a = Some i → n_identity b = Some i →
       graph_eq g g' = true →
       py_eq (ENode (n_with_cache labels props a))
             (ENode (n_with_cache labels' props' b)) = true).
Proof.
  split; [apply py_eq_unbound_nodes |].
  intros g g' i labels props labels' props' Ha Hb Hia Hib Hg.
  simpl. apply Node_eq_spec. right. by exists g, g', i.
Qed.

(** A bound node whose graph and identity are both truthy hashes by graph
    and identity; every other node hashes by its address. *)
Lemma Node_hash_bound (n : Node Graph) (g : Graph) (i : Z) :
  n_graph n = Some g → n_identity n = Some i →
  graph_bool g = true → i ≠ 0%Z →
  Node_hash n = Z.lxor (Z.lxor (hash_database g) (hash_name g)) (hash_int i).
Proof.
  intros Hg Hi Ht Hz. unfold Node_hash. rewrite Hg, Hi, Ht. simpl.
  by destruct (Z.eqb_spec i 0).
Qed.

Lemma Node_hash_unbound (n : Node Graph) :
  unbound_node n → Node_hash n = hash_int (n_id n).
Proof.
  unfold Node_hash. intros [H | H]; rewrite H; [done |]. by destruct (n_graph n).
Qed.

(** ** Relationships *)

(** The hash of a relationship is the hash of the tuple of its two nodes
    combined by exclusive or with the hash of its class; the graph and
    identity of the relationship are not read. *)
Lemma Relationship_hash_ignores_binding (r : Relationship Graph) g i :
  Relationship_hash (r_bind g i r)
  = Z.lxor (hash_tuple [Node_hash (r_start r); Node_hash (r_end r)])
           (hash_type (r_type r))
  ∧ Relationship_hash (r_bind g i r) = Relationship_hash r.
Proof. done. Qed.

Lemma Relationship_eq_unbound (a b : Relationship Graph) :
  unbound_relationship a ∨ unbound_relationship b →
  Relationship_eq a (ERel b) = true ↔
    a = b ∨ (r_type a = r_type b
             ∧ node_item_eq (r_start a) (r_start b) = true
             ∧ node_item_eq (r_end a) (r_end b) = true
             ∧ r_properties a = r_properties b).
Proof.
  intros Hunbound. unfold Relationship_eq, entity_is. simpl.
  case_bool_decide as Hab.
  { split; [intros _; left; congruence | done]. }
  assert (∀ P : Prop, (a = b ∨ P) ↔ P) as Hor.
  { intros P. split; [intros [-> | ?]; [by destruct Hab | done] | by right]. }
  rewrite Hor.
  assert (bool_decide (r_type a = r_type b)
          && (node_item_eq (r_start a) (r_start b)
              && (node_item_eq (r_end a) (r_end b) && true))
          && bool_decide (r_properties a = r_properties b) = true
          ↔ r_type a = r_type b
            ∧ node_item_eq (r_start a) (r_start b) = true
            ∧ node_item_eq (r_end a) (r_end b) = true
            ∧ r_properties a = r_properties b) as Hstruct.
  { rewrite !andb_true_iff, !bool_decide_eq_true. tauto. }
  unfold unbound_relationship in Hunbound.
  destruct (r_graph a), (r_graph b), (r_identity a), (r_identity b);
    try exact Hstruct.
  destruct Hunbound as [[H | H] | [H | H]]; discriminate.
Qed.

(** C9, as the code has it: before binding, two nodes are equal exactly
    when they are the same object, and two relationships are equal when
    they are the same object or have the same class, equal start nodes,
    equal end nodes and equal properties; an unbound node hashes by its
    address; the generated token is read by no comparison and no hash. *)
Theorem C9_unbound_equality :
  (∀ a b : Node Graph, unbound_node a ∨ unbound_node b →
     (py_eq (ENode a) (ENode b) = true ↔ a = b))
  ∧ (∀ a b : Relationship Graph,
       unbound_relationship a ∨ unbound_relationship b →
       (py_eq (ERel a) (ERel b) = true ↔
          a = b ∨ (r_type a = r_type b
                   ∧ node_item_eq (r_start a) (r_start b) = true
                   ∧ node_item_eq (r_end a) (r_end b) = true
                   ∧ r_properties a = r_properties b)))
  ∧ (∀ (n : Node Graph) u, unbound_node n →
       Node_hash n = hash_int (n_id n) ∧ Node_hash (n_with_uuid u n) = Node_hash n)
  ∧ (∀ (r : Relationship Graph) u,
       Relationship_hash (r_with_uuid u r) = Relationship_hash r).
Proof.
  split; [| split; [| split]].
  - apply py_eq_unbound_nodes.
  - intros a b Hunbound. simpl.
    destruct (proper_subclass (r_type b) (r_type a)) eqn:Hsub.
    + rewrite Relationship_eq_unbound by tauto.
      assert (r_type a ≠ r_type b) as Hne.
      { intros Heq. rewrite Heq in Hsub. by destruct (r_type b). }
      split.
      * intros [-> | (Heq & _)]; [by left | by destruct Hne].
      * intros [-> | (Heq & _)]; [by left | by destruct Hne].
    + by apply Relationship_eq_unbound.
  - intros n u Hunbound. split; [by apply Node_hash_unbound | done].
  - done.
Qed.
End EqualityFacts.

(** ** Python sets *)

Section PySetFacts.
Context {A : Type} (hash : A → Z) (eqb : A → A → bool).
Hypothesis eqb_refl : ∀ x, eqb x x = true.

#[local] Abbreviation has := (set_contains hash eqb).
#[local] Abbreviation add := (set_add hash eqb).
#[local] Abbreviation upd := (set_update hash eqb).

Lemma same_key_refl x : same_key hash eqb x x = true.
Proof. unfold same_key. by rewrite Z.eqb_refl, eqb_refl. Qed.

Lemma set_contains_app s t key : has (s ++ t) key = has s key || has t key.
Proof. unfold set_contains. apply existsb_app. Qed.

Lemma set_contains_stored s key :
  has s key = true ↔ ∃ stored, stored ∈ s ∧ same_key hash eqb stored key = true.
Proof.
  unfold set_contains. rewrite existsb_exists.
  split; intros (x & Hx & Hk); exists x; split; try done; by apply list_elem_of_In.
Qed.

Lemma set_contains_elem s x : x ∈ s → has s x = true.
Proof. intros Hx. apply set_contains_stored. exists x. by rewrite same_key_refl. Qed.

Lemma set_add_keeps s x key : has s key = true → has (add s x) key = true.
Proof.
  intros Hk. unfold set_add. destruct (has s x); [done |].
  by rewrite set_contains_app, Hk.
Qed.

Lemma set_add_has s x : has (add s x) x = true.
Proof.
  unfold set_add. destruct (has s x) eqn:Hx; [done |].
  rewrite set_contains_app. simpl. by rewrite same_key_refl, orb_true_r.
Qed.

Lemma set_update_keeps iterable : ∀ s key, has s key = true → has (upd s iterable) key = true.
Proof.
  induction iterable as [| x iterable IH]; intros s key Hk; [done |].
  simpl. apply IH. by apply set_add_keeps.
Qed.

Lemma set_update_has iterable : ∀ s x, x ∈ iterable → has (upd s iterable) x = true.
Proof.
  induction iterable as [| y iterable IH]; intros s x Hx; [by apply elem_of_nil in Hx |].
  simpl. apply elem_of_cons in Hx as [-> | Hx].
  - apply set_update_keeps, set_add_has.
  - by apply IH.
Qed.

Lemma set_add_length s x : length s ≤ length (add s x).
Proof. unfold set_add. destruct (has s x); [done |]. rewrite length_app. lia. Qed.

Lemma set_update_length iterable : ∀ s, length s ≤ length (upd s iterable).
Proof.
  induction iterable as [| x iterable IH]; intros s; [done |].
  simpl. etrans; [apply (set_add_length s x) | apply IH].
Qed.

Lemma set_update_nil_inv s iterable : upd s iterable = [] → s = [].
Proof.
  intros Hnil. pose proof (set_update_length iterable s) as Hlen.
  rewrite Hnil in Hlen. destruct s; [done | simpl in Hlen; lia].
Qed.

Lemma set_of_nil_inv iterable : set_of hash eqb iterable = [] → iterable = [].
Proof.
  destruct iterable as [| x iterable]; [done |].
  unfold set_of. simpl. intros Hnil%set_update_nil_inv. by destruct (has [] x).
Qed.

(** No key of a set survives the difference with the set itself. *)
Lemma set_difference_diag s : set_difference hash eqb s s = [].
Proof.
  unfold set_difference.
  assert (∀ l, (∀ x, x ∈ l → has s x = true) →
               List.filter (fun key => negb (has s key)) l = []) as Hall.
  { induction l as [| x l IH]; intros Hl; [done |].
    simpl. rewrite (Hl x) by (apply elem_of_cons; auto). simpl.
    apply IH. intros y Hy. apply Hl, elem_of_cons. auto. }
  apply Hall. intros x. apply set_contains_elem.
Qed.

(** A set equals another only if it has as many keys. *)
Lemma set_eq_length s t : set_eq hash eqb s t = true → length s = length t.
Proof. unfold set_eq. rewrite andb_true_iff, Nat.eqb_eq. tauto. Qed.

(** *** Sets of keys that are pairwise distinct

    Among keys of which no two distinct ones match, a set is the list of
    the keys added, without repetition. *)

Variable U : list A.
Hypothesis distinct :
  ∀ x y, x ∈ U → y ∈ U → same_key hash eqb x y = true → x = y.

Lemma distinct_contains s key :
  s ⊆ U → key ∈ U → has s key = true ↔ key ∈ s.
Proof.
  intros Hs Hkey. split; [| apply set_contains_elem].
  intros (stored & Hstored & Hmatch)%set_contains_stored.
  by rewrite <- (distinct stored key (Hs _ Hstored) Hkey Hmatch).
Qed.

Lemma distinct_add s key x :
  s ⊆ U → key ∈ U → x ∈ add s key ↔ x ∈ s ∨ x = key.
Proof.
  intros Hs Hkey. unfold set_add.
  destruct (has s key) eqn:Hhas.
  - apply (distinct_contains s key Hs Hkey) in Hhas. split; [by left |].
    by intros [? | ->].
  - rewrite elem_of_app, list_elem_of_singleton. done.
Qed.

Lemma distinct_add_NoDup s key :
  s ⊆ U → key ∈ U → NoDup s → NoDup (add s key).
Proof.
  intros Hs Hkey Hnodup. unfold set_add.
  destruct (has s key) eqn:Hhas; [done |].
  apply NoDup_app. split; [done |]. split; [| apply NoDup_singleton].
  intros x Hx ->%list_elem_of_singleton.
  apply (distinct_contains s key Hs Hkey) in Hx. congruence.
Qed.

Lemma distinct_update iterable : ∀ s,
  s ⊆ U → iterable ⊆ U → NoDup s →
  NoDup (upd s iterable) ∧ ∀ x, x ∈ upd s iterable ↔ x ∈ s ∨ x ∈ iterable.
Proof.
  induction iterable as [| key iterable IH]; intros s Hs Hit Hnodup.
  { split; [done |]. intros x. rewrite elem_of_nil. tauto. }
  assert (key ∈ U) as Hkey by (apply Hit; left).
  assert (iterable ⊆ U) as Hit' by (intros x Hx; apply Hit; by right).
  assert (add s key ⊆ U) as Hadd.
  { intros x [Hx | ->]%(distinct_add s key x Hs Hkey); auto. }
  destruct (IH (add s key) Hadd Hit' (distinct_add_NoDup s key Hs Hkey Hnodup))
    as [Hnodup' Helems].
  split; [done |]. intros x. simpl. rewrite Helems, elem_of_cons.
  rewrite (distinct_add s key x Hs Hkey). tauto.
Qed.

(** Two sets without repetition that hold the same keys are equal. *)
Lemma NoDup_set_eq s t :
  NoDup s → NoDup t → (∀ x, x ∈ s ↔ x ∈ t) → set_eq hash eqb s t = true.
Proof.
  intros Hnodup_s Hnodup_t Hsame. unfold set_eq.
  apply andb_true_iff. split.
  - apply Nat.eqb_eq, Permutation_length. by apply NoDup_Permutation.
  - apply forallb_forall. intros x Hx%list_elem_of_In.
    apply set_contains_elem. by apply Hsame.
Qed.
(** Among such keys, two sets that compare equal hold the same keys. *)
Lemma distinct_set_eq s t :
  s ⊆ U → t ⊆ U → NoDup s →
  set_eq hash eqb s t = true → ∀ x, x ∈ s ↔ x ∈ t.
Proof.
  intros Hs Ht Hnodup. unfold set_eq.
  rewrite andb_true_iff, Nat.eqb_eq, forallb_forall. intros [Hlen Hall].
  assert (s ≡ₚ t) as Hperm.
  { apply submseteq_length_Permutation; [| lia].
    apply NoDup_submseteq; [done |]. intros x Hx.
    apply (distinct_contains t x Ht (Hs x Hx)). by apply Hall, list_elem_of_In. }
  intros x. by rewrite Hperm.
Qed.
End PySetFacts.

(** ** Subgraphs *)

Section SubgraphFacts.
Context {Graph : Type} `{!EqDecision Graph, !Externals Graph}.

Lemma entity_nodes_are_nodes (r e : Entity Graph) :
  e ∈ entity_nodes r → ∃ n, e = ENode n.
Proof.
  destruct r as [n | r]; unfold entity_nodes, slice_step2; cbn.
  - intros ->%list_elem_of_singleton. by eexists.
  - rewrite !elem_of_cons. intros [-> | [-> | []%elem_of_nil]]; by eexists.
Qed.

Lemma Subgraph_init_unfold nodes relationships :
  Subgraph_init nodes relationships
  = match closed_nodes nodes relationships with
    | [] => Raise ValueError
    | _ :: _ => Ok (mkSubgraph (closed_nodes nodes relationships)
                               (frozenset (or_empty relationships)))
    end.
Proof. unfold Subgraph_init, closed_nodes. by destruct (union _ _). Qed.

Lemma closed_nodes_closure nodes relationships (r e : Entity Graph) :
  graph_eq_transitive →
  r ∈ frozenset (or_empty relationships) → e ∈ entity_nodes r →
  contains (closed_nodes nodes relationships) e = true.
Proof.
  intros Htrans Hr He.
  destruct (entity_nodes_are_nodes _ _ He) as [n ->].
  assert (ENode n ∈ endpoints (frozenset (or_empty relationships))) as Hin.
  { unfold endpoints. apply list_elem_of_In, in_concat. exists (entity_nodes r).
    split; [apply in_map |]; by apply list_elem_of_In. }
  pose proof (set_update_has py_hash item_eq item_eq_refl _ [] _ Hin) as Hy.
  apply set_contains_stored in Hy as (y & Hy & Hye).
  pose proof (set_update_has py_hash item_eq item_eq_refl _
                (frozenset (or_empty nodes)) _ Hy) as Hz.
  apply set_contains_stored in Hz as (z & Hz & Hzy).
  unfold contains. apply set_contains_stored. exists z. split; [done |].
  by apply (same_key_node_trans z y n Htrans).
Qed.

Lemma Subgraph_init_checked nodes relationships :
  construction_checked (Subgraph_init nodes relationships)
                       (closed_nodes nodes relationships).
Proof.
  unfold construction_checked. rewrite Subgraph_init_unfold.
  destruct (closed_nodes nodes relationships) as [| x l] eqn:Hnodes.
  - split; [done | split; [by intros e [= <-] | by intros sg]].
  - split; [by split | split; [by intros e |]].
    intros sg [= <-]. simpl. split; [done | split; [done |]].
    intros Htrans r e Hr He.
    pose proof (closed_nodes_closure nodes relationships r e Htrans Hr He) as Hin.
    by rewrite Hnodes in Hin.
Qed.

(** C1: the constructor and the four operators end in a subgraph whose
    node set holds both end nodes of each of its relationships, or in
    ValueError, and in ValueError exactly when the node set obtained after
    adding the end nodes is empty; no subgraph without a node is returned.
    Closure is stated for a transitive [==] on graphs. *)
Theorem C1_subgraph_invariant :
  (∀ nodes relationships,
     construction_checked (Subgraph_init nodes relationships)
                          (closed_nodes nodes relationships))
  ∧ (∀ (S T : Type) (GS : GraphStructure S) (GT : GraphStructure T)
       (self : S) (other : T),
       construction_checked (Subgraph_or self other)
         (closed_nodes (Some (or_nodes self other)) (Some (or_relationships self other)))
       ∧ construction_checked (Subgraph_and self other)
           (closed_nodes (Some (and_nodes self other)) (Some (and_relationships self other)))
       ∧ construction_checked (Subgraph_sub self other)
           (closed_nodes (Some (sub_nodes self other)) (Some (sub_relationships self other)))
       ∧ construction_checked (Subgraph_xor self other)
           (closed_nodes (Some (xor_nodes self other)) (Some (xor_relationships self other)))).
Proof.
  split; [apply Subgraph_init_checked |].
  intros S T GS GT self other.
  split; [| split; [| split]]; apply Subgraph_init_checked.
Qed.

(** C6, as the code has it: the difference of a graph structure with
    itself always fails with ValueError, since no node and no relationship
    survive it. *)
Theorem C6_difference_with_itself (S : Type) (GS : GraphStructure S) (A : S) :
  sub_relationships A A = []
  ∧ sub_nodes A A = []
  ∧ Subgraph_sub A A = Raise ValueError.
Proof.
  assert (sub_relationships A A = []) as Hr.
  { unfold sub_relationships. apply set_difference_diag, item_eq_refl. }
  assert (sub_nodes A A = []) as Hn.
  { unfold sub_nodes. rewrite Hr.
    by rewrite (set_difference_diag py_hash item_eq item_eq_refl). }
  repeat split; try done.
  unfold Subgraph_sub. by rewrite Hr, Hn.
Qed.
End SubgraphFacts.

(** ** Sequences *)

Section SequenceFacts.
Context {A : Type}.
Implicit Types l : list A.

Lemma every_other_lookup (i : nat) : ∀ l, every_other l !! i = l !! (2 * i)%nat.
Proof.
  induction i as [| i IH]; intros [| x [| y l]]; try done.
  simpl every_other. replace (2 * S i)%nat with (S (S (2 * i))) by lia.
  simpl. apply IH.
Qed.

Lemma slice_step2_lookup (k i : nat) l : slice_step2 k l !! i = l !! (k + 2 * i)%nat.
Proof. unfold slice_step2. by rewrite every_other_lookup, lookup_drop. Qed.

Lemma every_other_length_bounded (n : nat) :
  ∀ l, length l ≤ n → length (every_other l) = Nat.div2 (S (length l)).
Proof.
  induction n as [| n IH]; intros [| x [| y l]] Hlen; try done.
  - simpl in Hlen. lia.
  - simpl every_other. simpl length. rewrite IH by (simpl in Hlen; lia). done.
Qed.

Lemma every_other_length l : length (every_other l) = Nat.div2 (S (length l)).
Proof. by apply (every_other_length_bounded (length l)). Qed.

(** In a sequence of [2k+1] items, [k+1] stand at even and [k] at odd
    positions. *)
Lemma slice_step2_lengths (k : nat) l :
  length l = (2 * k + 1)%nat →
  length (slice_step2 0 l) = S k ∧ length (slice_step2 1 l) = k.
Proof.
  intros Hlen. unfold slice_step2.
  rewrite !every_other_length, !length_drop, Hlen.
  replace (S (2 * k + 1 - 0)) with (2 * (S k))%nat by lia.
  replace (S (2 * k + 1 - 1)) with (S (2 * k))%nat by lia.
  rewrite Nat.div2_double, Nat.div2_succ_double. done.
Qed.

Lemma py_index_natural l (i : Z) :
  (0 <= i)%Z →
  py_index l i = match l !! Z.to_nat i with
                 | Some x => Ok x
                 | None => Raise IndexError
                 end.
Proof.
  intros Hi. unfold py_index.
  assert ((i <? 0)%Z = false) as Hge by (apply Z.ltb_ge; lia).
  by rewrite !Hge.
Qed.

Lemma py_index_negative l (i : Z) :
  (i < 0)%Z →
  py_index l i = if (i + Z.of_nat (length l) <? 0)%Z then Raise IndexError
                 else match l !! Z.to_nat (i + Z.of_nat (length l)) with
                      | Some x => Ok x
                      | None => Raise IndexError
                      end.
Proof.
  intros Hi. unfold py_index.
  assert ((i <? 0)%Z = true) as Hlt by (apply Z.ltb_lt; lia).
  by rewrite Hlt.
Qed.

Lemma py_index_first l : py_index l 0 = match head l with
                                        | Some x => Ok x
                                        | None => Raise IndexError
                                        end.
Proof. by destruct l. Qed.

Lemma py_index_last l : py_index l (-1) = match last l with
                                          | Some x => Ok x
                                          | None => Raise IndexError
                                          end.
Proof.
  unfold py_index. rewrite last_lookup. simpl.
  destruct l as [| x l]; [done |].
  destruct (Z.ltb_spec (-1 + Z.of_nat (length (x :: l))) 0) as [Hneg | _].
  { simpl length in Hneg. lia. }
  replace (Z.to_nat (-1 + Z.of_nat (length (x :: l)))) with (pred (length (x :: l)))
    by (simpl length; lia).
  done.
Qed.

(** [enumerate] numbers the items from 0, so only the first fails [i > 0]. *)
Lemma filter_positive_indices l : ∀ k,
  map snd (List.filter (fun p : nat * A => (0 <? fst p)%nat)
             (combine (seq (S k) (length l)) l)) = l.
Proof.
  induction l as [| x l IH]; intros k; [done |].
  simpl. f_equal. apply IH.
Qed.

Lemma items_eq_refl (item_eq : A → A → bool) l :
  (∀ x, item_eq x x = true) → items_eq item_eq l l = true.
Proof. intros Hrefl. induction l as [| x l IH]; [done |]. simpl. by rewrite Hrefl. Qed.

(** Two sequences compare equal only if they have the same length and
    equal items at every position. *)
Lemma items_eq_true (item_eq : A → A → bool) : ∀ l1 l2,
  items_eq item_eq l1 l2 = true →
  length l1 = length l2
  ∧ ∀ i x y, l1 !! i = Some x → l2 !! i = Some y → item_eq x y = true.
Proof.
  induction l1 as [| a l1 IH]; intros [| b l2] Heq; try done.
  simpl in Heq. apply andb_true_iff in Heq as [Hab Heq].
  destruct (IH _ Heq) as [Hlen Hitems]. split; [simpl; congruence |].
  intros [| i] x y; simpl; [congruence | apply Hitems].
Qed.
End SequenceFacts.

(** ** Walkables and walk *)

Section WalkableFacts.
Context {Graph : Type} `{!EqDecision Graph, !Externals Graph}.
Implicit Types w : Walkable Graph.

Lemma Walkable_init_nil : Walkable_init (Graph := Graph) [] = Raise ValueError.
Proof. done. Qed.

Lemma Walkable_init_cons (x : Entity Graph) l :
  ∃ sg, Walkable_init (x :: l) = Ok (mkWalkable (x :: l) sg).
Proof.
  unfold Walkable_init. rewrite Subgraph_init_unfold.
  destruct (closed_nodes _ _) as [| y nodes] eqn:Hnodes; [| by eexists].
  unfold closed_nodes, union, set_union in Hnodes.
  apply set_update_nil_inv in Hnodes.
  apply (set_of_nil_inv py_hash item_eq) in Hnodes. by destruct l.
Qed.

(** A walkable is built from a sequence that is not empty, and keeps it. *)
Lemma Walkable_init_sequence iterable w :
  Walkable_init iterable = Ok w → w_sequence w = iterable ∧ iterable ≠ [].
Proof.
  destruct iterable as [| x l]; [by rewrite Walkable_init_nil |].
  destruct (Walkable_init_cons x l) as [sg ->]. by intros [= <-].
Qed.

(** Every node and every relationship is a walkable. *)
Lemma Entity_walkable (e : Entity Graph) :
  ∃ w, Walkable_init (entity_sequence e) = Ok w ∧ w_sequence w = entity_sequence e.
Proof.
  destruct e as [n | r]; simpl.
  - destruct (Walkable_init_cons (ENode n) []) as [sg ->]. by eexists.
  - destruct (Walkable_init_cons (ENode (r_start r)) [ERel r; ENode (r_end r)]) as [sg ->].
    by eexists.
Qed.

Lemma yield_after_first_tail (entities : list (Entity Graph)) :
  yield_after_first entities = tail entities.
Proof.
  destruct entities as [| x l]; [done |].
  unfold yield_after_first, enumerate. simpl. apply filter_positive_indices.
Qed.

Lemma walk_attach_nonempty running_end w s e :
  head (w_sequence w) = Some s → last (w_sequence w) = Some e →
  walk_attach running_end w
  = if py_eq running_end s then Ok (w_sequence w, e)
    else if py_eq running_end e then Ok (rev (w_sequence w), s)
    else Raise ValueError.
Proof.
  intros Hs He. unfold walk_attach, start_node, end_node, Walkable_walk.
  rewrite py_index_first, py_index_last, Hs, He. simpl.
  by destruct (py_eq running_end s), (py_eq running_end e).
Qed.

Lemma nonempty_ends (l : list (Entity Graph)) :
  l ≠ [] → ∃ s e, head l = Some s ∧ last l = Some e.
Proof.
  intros Hl. destruct l as [| x l]; [done |]. exists x.
  destruct (last (x :: l)) as [e |] eqn:He; [by exists e |].
  by apply last_None in He.
Qed.

Lemma walk_from_spliced (walkables : list (Walkable Graph)) :
  Forall (fun w => w_sequence w ≠ []) walkables →
  ∀ running_end, walk_from running_end walkables = spliced running_end walkables.
Proof.
  induction 1 as [| w later Hw _ IH]; intros running_end; [done |].
  destruct (nonempty_ends _ Hw) as (s & e & Hs & He).
  simpl. rewrite (walk_attach_nonempty _ _ s e Hs He), Hs, He.
  destruct (py_eq running_end s).
  { by rewrite yield_after_first_tail, IH. }
  destruct (py_eq running_end e); [| done].
  by rewrite yield_after_first_tail, IH.
Qed.

Lemma spliced_length (walkables : list (Walkable Graph)) :
  Forall (fun w => w_sequence w ≠ []) walkables →
  ∀ running_end, raised (spliced running_end walkables) = None →
  (length (yielded (spliced running_end walkables)) + length walkables
   = total_length walkables)%nat.
Proof.
  unfold total_length.
  induction 1 as [| w later Hw _ IH]; intros running_end; [done |].
  destruct (nonempty_ends _ Hw) as (s & e & Hs & He).
  simpl. rewrite Hs, He.
  assert (length (tail (w_sequence w)) = pred (length (w_sequence w))) as Htail.
  { by destruct (w_sequence w). }
  assert (length (w_sequence w) ≠ 0%nat) as Hpos.
  { by destruct (w_sequence w). }
  destruct (py_eq running_end s).
  { simpl. intros Hok. specialize (IH _ Hok). rewrite length_app, Htail. lia. }
  destruct (py_eq running_end e); [| done].
  simpl. intros Hok. specialize (IH _ Hok).
  assert (length (tail (rev (w_sequence w))) = pred (length (w_sequence w))) as Hrev.
  { rewrite <- (length_rev (w_sequence w)). by destruct (rev (w_sequence w)). }
  rewrite length_app, Hrev. lia.
Qed.

(** C2: on walkables with their sequences, walk yields the first
    walkable's sequence and then, for each further walkable, its sequence
    without the first element, forward when the running end equals its
    start node, reversed when the running end equals its end node, and
    stops with ValueError otherwise; when no walkable is refused, the
    traversal of [n] walkables is [n - 1] shorter than their sequences
    together. *)
Theorem C2_walk (walkables : list (Walkable Graph)) :
  Forall (fun w => w_sequence w ≠ []) walkables →
  walk walkables = walk_spec walkables
  ∧ (walkables ≠ [] → raised (walk walkables) = None →
     (length (yielded (walk walkables)) + length walkables
      = S (total_length walkables))%nat).
Proof.
  intros Hall.
  assert (walk walkables = walk_spec walkables) as Heq.
  { destruct Hall as [| w later Hw Hlater]; [done |].
    destruct (nonempty_ends _ Hw) as (s & e & Hs & He).
    unfold walk, walk_spec, end_node, Walkable_walk.
    by rewrite py_index_last, He, walk_from_spliced. }
  split; [done |]. rewrite Heq.
  destruct Hall as [| w later Hw Hlater]; [done |]. intros _.
  destruct (nonempty_ends _ Hw) as (s & e & Hs & He).
  unfold walk_spec. rewrite He. simpl. intros Hok.
  pose proof (spliced_length later Hlater e Hok) as Hlen.
  unfold total_length in *. simpl. rewrite length_app. lia.
Qed.

Lemma collect_walk_single (iterable : list (Entity Graph)) w :
  Walkable_init iterable = Ok w → collect (walk [w]) = Ok iterable.
Proof.
  intros Hinit. destruct (Walkable_init_sequence _ _ Hinit) as [Hseq Hne].
  destruct (nonempty_ends (w_sequence w)) as (s & e & Hs & He); [by rewrite Hseq |].
  unfold walk, end_node, Walkable_walk. rewrite py_index_last, He. simpl.
  unfold collect. simpl. by rewrite app_nil_r, Hseq.
Qed.

(** *** The Subgraph part of a walkable, among pairwise distinct keys *)

Lemma or_empty_Some (l : list (Entity Graph)) : or_empty (Some l) = l.
Proof. by destruct l. Qed.

Lemma slice_step2_subset (k : nat) (sequence : list (Entity Graph)) :
  slice_step2 k sequence ⊆ sequence.
Proof.
  intros x (i & Hi)%list_elem_of_lookup. rewrite slice_step2_lookup in Hi.
  by apply list_elem_of_lookup_2 in Hi.
Qed.

Lemma elem_of_endpoints (x : Entity Graph) l :
  x ∈ endpoints l ↔ ∃ r, r ∈ l ∧ x ∈ entity_nodes r.
Proof.
  unfold endpoints. rewrite list_elem_of_In, in_concat. split.
  - intros (nodes & (r & <- & Hr)%in_map_iff & Hx).
    exists r. by rewrite !list_elem_of_In.
  - intros (r & Hr & Hx). exists (entity_nodes r).
    split; [apply in_map |]; by apply list_elem_of_In.
Qed.

Lemma endpoints_subset (l l' : list (Entity Graph)) :
  l ⊆ l' → endpoints l ⊆ endpoints l'.
Proof.
  intros Hl x (r & Hr & Hx)%elem_of_endpoints.
  apply elem_of_endpoints. exists r. auto.
Qed.

Lemma keys_distinctb_sound (entities : list (Entity Graph)) :
  keys_distinctb entities = true → keys_distinct entities.
Proof.
  unfold keys_distinctb. rewrite forallb_forall. intros Hall x y Hx Hy Hmatch.
  apply list_elem_of_In in Hx, Hy. specialize (Hall x Hx).
  rewrite forallb_forall in Hall. specialize (Hall y Hy).
  rewrite Hmatch in Hall. by apply bool_decide_eq_true in Hall.
Qed.

Lemma Walkable_init_subgraph (sequence : list (Entity Graph)) w :
  Walkable_init sequence = Ok w →
  w_subgraph w
  = mkSubgraph
      (union (frozenset (slice_step2 0 sequence))
             (frozenset (endpoints (frozenset (slice_step2 1 sequence)))))
      (frozenset (slice_step2 1 sequence)).
Proof.
  unfold Walkable_init. rewrite Subgraph_init_unfold.
  unfold closed_nodes. rewrite !or_empty_Some.
  destruct (union _ _) as [| y nodes]; [done |].
  simpl. by intros [= <-].
Qed.

(** The two sets of a walkable hold, once each, the items at the even
    positions with the nodes of the items at the odd positions, and the
    items at the odd positions. *)
Lemma Walkable_members (U sequence : list (Entity Graph)) w :
  keys_distinct U → universe sequence ⊆ U →
  Walkable_init sequence = Ok w →
  let sg := w_subgraph w in
  sg_nodes sg ⊆ U ∧ sg_relationships sg ⊆ U
  ∧ NoDup (sg_nodes sg) ∧ NoDup (sg_relationships sg)
  ∧ (∀ x, x ∈ sg_relationships sg ↔ x ∈ slice_step2 1 sequence)
  ∧ (∀ x, x ∈ sg_nodes sg ↔
          x ∈ slice_step2 0 sequence ∨ x ∈ endpoints (slice_step2 1 sequence)).
Proof.
  intros Hdistinct HU Hinit. rewrite (Walkable_init_subgraph _ _ Hinit). simpl.
  set (E := slice_step2 0 sequence). set (R := slice_step2 1 sequence).
  assert ([] ⊆ U) as Hnil by (intros x Hx; by apply elem_of_nil in Hx).
  assert (E ⊆ U) as HE.
  { intros x Hx. apply HU, elem_of_app. left. by apply (slice_step2_subset 0). }
  assert (R ⊆ U) as HR.
  { intros x Hx. apply HU, elem_of_app. left. by apply (slice_step2_subset 1). }
  assert (∀ l, l ⊆ sequence → endpoints l ⊆ U) as Hends.
  { intros l Hl x Hx. apply HU, elem_of_app. right. by apply (endpoints_subset l). }
  destruct (distinct_update py_hash item_eq item_eq_refl U Hdistinct R [])
    as [HR_nodup HR_elems]; [done | done | apply NoDup_nil_2 |].
  fold (frozenset R) in HR_nodup, HR_elems.
  assert (∀ x, x ∈ frozenset R ↔ x ∈ R) as HR_same.
  { intros x. rewrite HR_elems, elem_of_nil. tauto. }
  assert (frozenset R ⊆ sequence) as HR_seq.
  { intros x Hx%HR_same. by apply (slice_step2_subset 1). }
  destruct (distinct_update py_hash item_eq item_eq_refl U Hdistinct E [])
    as [HE_nodup HE_elems]; [done | done | apply NoDup_nil_2 |].
  fold (frozenset E) in HE_nodup, HE_elems.
  destruct (distinct_update py_hash item_eq item_eq_refl U Hdistinct
              (endpoints (frozenset R)) [])
    as [HX_nodup HX_elems]; [done | by apply Hends | apply NoDup_nil_2 |].
  fold (frozenset (endpoints (frozenset R))) in HX_nodup, HX_elems.
  assert (frozenset E ⊆ U) as HfE.
  { intros x Hx%HE_elems. destruct Hx as [[]%elem_of_nil | Hx]. by apply HE. }
  assert (frozenset (endpoints (frozenset R)) ⊆ U) as HfX.
  { intros x Hx%HX_elems. destruct Hx as [[]%elem_of_nil | Hx]. by apply (Hends (frozenset R)). }
  destruct (distinct_update py_hash item_eq item_eq_refl U Hdistinct
              (frozenset (endpoints (frozenset R))) (frozenset E))
    as [HN_nodup HN_elems]; [done | done | done |].
  fold (union (frozenset E) (frozenset (endpoints (frozenset R)))) in HN_nodup, HN_elems.
  repeat split; try done.
  - intros x Hx%HN_elems. destruct Hx as [Hx | Hx]; auto.
  - intros x Hx%HR_same. by apply HR.
  - by apply HR_same.
  - by apply HR_same.
  - intros Hx%HN_elems. destruct Hx as [Hx%HE_elems | Hx%HX_elems].
    + left. destruct Hx as [[]%elem_of_nil | Hx]. done.
    + right. destruct Hx as [[]%elem_of_nil | Hx].
      apply elem_of_endpoints in Hx as (r & Hr%HR_same & Hx).
      apply elem_of_endpoints. by exists r.
  - intros Hx. apply HN_elems. destruct Hx as [Hx | Hx].
    + left. apply HE_elems. by right.
    + right. apply HX_elems. right.
      apply elem_of_endpoints in Hx as (r & Hr%HR_same & Hx).
      apply elem_of_endpoints. by exists r.
Qed.

(** The walk of an odd number of items read backwards has the same items
    at the even and at the odd positions. *)
Lemma slice_step2_rev_1 {A} (j k : nat) (l : list A) x :
  (j ≤ 1)%nat → length l = (2 * k + 1)%nat →
  x ∈ slice_step2 j (rev l) → x ∈ slice_step2 j l.
Proof.
  intros Hj Hlen (i & Hi)%list_elem_of_lookup.
  rewrite slice_step2_lookup, rev_alt in Hi.
  change (rev_append l []) with (reverse l) in Hi.
  apply reverse_lookup_Some in Hi as [Hi Hbound]. rewrite Hlen in Hi.
  apply list_elem_of_lookup. exists (k - j - i)%nat.
  rewrite slice_step2_lookup. rewrite <- Hi. f_equal. lia.
Qed.

Lemma slice_step2_rev {A} (j k : nat) (l : list A) x :
  (j ≤ 1)%nat → length l = (2 * k + 1)%nat →
  x ∈ slice_step2 j l ↔ x ∈ slice_step2 j (rev l).
Proof.
  intros Hj Hlen. split; [| by apply slice_step2_rev_1 with k].
  intros Hx. apply (slice_step2_rev_1 j k (rev l)); [done | |].
  - by rewrite length_rev.
  - by rewrite rev_involutive.
Qed.

(** *** Tuples of pairwise distinct entities *)

Lemma entities_distinct_keys (U : list (Entity Graph)) :
  entities_distinct U → keys_distinct U.
Proof.
  intros Hdistinct x y Hx Hy. unfold same_key. rewrite andb_true_iff.
  intros [_ Hxy]. by apply Hdistinct.
Qed.

Lemma entities_distinctb_sound (entities : list (Entity Graph)) :
  entities_distinctb entities = true → entities_distinct entities.
Proof.
  unfold entities_distinctb. rewrite forallb_forall. intros Hall x y Hx Hy Hmatch.
  apply list_elem_of_In in Hx, Hy. specialize (Hall x Hx).
  rewrite forallb_forall in Hall. specialize (Hall y Hy).
  rewrite Hmatch in Hall. by apply bool_decide_eq_true in Hall.
Qed.

(** Two tuples of such entities are equal exactly when they are the same
    list of objects. *)
Lemma distinct_items_eq (U : list (Entity Graph)) :
  entities_distinct U →
  ∀ s t, s ⊆ U → t ⊆ U → items_eq item_eq s t = bool_decide (s = t).
Proof.
  intros Hdistinct. induction s as [| x s IH]; intros [| y t] Hs Ht; try done.
  assert (s ⊆ U) as Hs' by (intros z Hz; apply Hs; by right).
  assert (t ⊆ U) as Ht' by (intros z Hz; apply Ht; by right).
  simpl. rewrite (IH t Hs' Ht').
  destruct (item_eq x y) eqn:Hxy; simpl.
  - apply Hdistinct in Hxy as ->; [| apply Hs; by left | apply Ht; by left].
    apply bool_decide_ext. split; [by intros -> | by intros [= ->]].
  - symmetry. apply bool_decide_eq_false. intros [= -> _].
    by rewrite item_eq_refl in Hxy.
Qed.

Lemma every_other_cons {A} (x : A) (l : list A) :
  every_other (x :: l) = x :: every_other (tail l).
Proof. by destruct l. Qed.

(** A sequence is given by its items at the even and at the odd
    positions. *)
Lemma every_other_inj {A} (s : list A) :
  ∀ t, every_other s = every_other t →
       every_other (tail s) = every_other (tail t) → s = t.
Proof.
  induction s as [| x s IH]; intros [| y t]; rewrite ?every_other_cons; try done.
  simpl tail. intros [= -> Hodd] Heven. f_equal. by apply IH.
Qed.

Lemma slice_step2_inj {A} (s t : list A) :
  slice_step2 0 s = slice_step2 0 t → slice_step2 1 s = slice_step2 1 t → s = t.
Proof.
  unfold slice_step2. rewrite !drop_0. intros Heven Hodd.
  apply every_other_inj; [done |]. by destruct s, t.
Qed.

Lemma Walkable_init_plain (sequence : list (Entity Graph)) w :
  Walkable_init sequence = Ok w →
  Subgraph_init (Some (Walkable_nodes w)) (Some (Walkable_relationships w))
  = Ok (w_subgraph w).
Proof.
  unfold Walkable_init, Walkable_nodes, Walkable_relationships.
  destruct (Subgraph_init _ _) as [sg | e] eqn:Hsg; [| done].
  simpl. by intros [= <-].
Qed.

(** C4: Walkable.__eq__ is sensitive to order and Subgraph.__eq__ on
    plain subgraphs is not.  For two walkables [u] and [v] built from
    sequences of entities of which no two distinct ones compare equal,
    and the plain subgraphs [a] and [b] built from the nodes and the
    relationships of each: Walkable.__eq__ finds [u] and [v] equal exactly
    when the two sequences are the same; so does Subgraph.__eq__ when it
    is given the two walkables themselves, as it compares their node and
    relationship tuples; Subgraph.__eq__ finds [a] and [b] equal exactly
    when the two walkables have the same nodes, end nodes of their
    relationships included, and the same relationships, in whatever
    order.  A walkable and its reverse have equal plain subgraphs; they
    are unequal walkables when the start and the end node differ, and
    equal ones when the sequence reads the same in both directions. *)
Theorem C4_order_sensitive (U su sv : list (Entity Graph)) (u v : Walkable Graph) :
  entities_distinct U → universe su ⊆ U → universe sv ⊆ U →
  Walkable_init su = Ok u → Walkable_init sv = Ok v →
  ∃ a b : Subgraph Graph,
    Subgraph_init (Some (Walkable_nodes u)) (Some (Walkable_relationships u)) = Ok a
    ∧ Subgraph_init (Some (Walkable_nodes v)) (Some (Walkable_relationships v)) = Ok b
    ∧ Walkable_eq u v = Ok (bool_decide (su = sv))
    ∧ Subgraph_eq_structures (Walked u) (Walked v) = bool_decide (su = sv)
    ∧ (Subgraph_eq_structures (Plain a) (Plain b) = true
       ↔ (∀ x, x ∈ Walkable_nodes u ∨ x ∈ endpoints (Walkable_relationships u)
               ↔ x ∈ Walkable_nodes v ∨ x ∈ endpoints (Walkable_relationships v))
         ∧ (∀ x, x ∈ Walkable_relationships u ↔ x ∈ Walkable_relationships v))
    ∧ (∀ k : nat, length su = (2 * k + 1)%nat → sv = rev su →
         Subgraph_eq_structures (Plain a) (Plain b) = true
         ∧ (head su ≠ last su → Walkable_eq u v = Ok false)
         ∧ (su = rev su → Walkable_eq u v = Ok true)).
Proof.
  intros Hdistinct HUu HUv Hu Hv.
  exists (w_subgraph u), (w_subgraph v).
  change (Subgraph_eq_structures (Plain (w_subgraph u)) (Plain (w_subgraph v)))
    with (Subgraph_eq (w_subgraph u) (w_subgraph v)).
  pose proof (entities_distinct_keys U Hdistinct) as Hkeys.
  destruct (Walkable_init_sequence _ _ Hu) as [Hsu _].
  destruct (Walkable_init_sequence _ _ Hv) as [Hsv _].
  assert (su ⊆ U) as Hsu_U by (intros x Hx; apply HUu, elem_of_app; by left).
  assert (sv ⊆ U) as Hsv_U by (intros x Hx; apply HUv, elem_of_app; by left).
  assert (∀ j s, s ⊆ U → slice_step2 j s ⊆ U) as Hslice.
  { intros j s Hs x Hx. by apply Hs, (slice_step2_subset j). }
  assert (Walkable_eq u v = Ok (bool_decide (su = sv))) as Heq.
  { unfold Walkable_eq.
    rewrite (collect_walk_single _ _ Hv), (collect_walk_single _ _ Hu). simpl.
    by rewrite (distinct_items_eq U). }
  destruct (Walkable_members U su u Hkeys HUu Hu)
    as (HuN & HuR & HuNd & HuRd & HuRe & HuNe).
  destruct (Walkable_members U sv v Hkeys HUv Hv)
    as (HvN & HvR & HvNd & HvRd & HvRe & HvNe).
  assert (Subgraph_eq (w_subgraph u) (w_subgraph v) = true
          ↔ (∀ x, x ∈ Walkable_nodes u ∨ x ∈ endpoints (Walkable_relationships u)
                  ↔ x ∈ Walkable_nodes v ∨ x ∈ endpoints (Walkable_relationships v))
            ∧ (∀ x, x ∈ Walkable_relationships u ↔ x ∈ Walkable_relationships v))
    as Hsets.
  { unfold Walkable_nodes, Walkable_relationships. rewrite Hsu, Hsv.
    unfold Subgraph_eq. rewrite !andb_true_iff. split.
    - intros [[_ Hn] Hr]. split; intros x.
      + rewrite <- HuNe, <- HvNe.
        by apply (distinct_set_eq py_hash item_eq item_eq_refl U Hkeys).
      + rewrite <- HuRe, <- HvRe.
        by apply (distinct_set_eq py_hash item_eq item_eq_refl U Hkeys).
    - intros [Hn Hr].
      assert (set_eq py_hash item_eq (sg_nodes (w_subgraph u)) (sg_nodes (w_subgraph v))
              = true) as Hn'.
      { apply (NoDup_set_eq py_hash item_eq item_eq_refl); [done | done |].
        intros x. rewrite HuNe, HvNe. apply Hn. }
      assert (set_eq py_hash item_eq (sg_relationships (w_subgraph u))
                (sg_relationships (w_subgraph v)) = true) as Hr'.
      { apply (NoDup_set_eq py_hash item_eq item_eq_refl); [done | done |].
        intros x. rewrite HuRe, HvRe. apply Hr. }
      unfold order, size.
      rewrite (set_eq_length _ _ _ _ Hn'), (set_eq_length _ _ _ _ Hr').
      by rewrite !Nat.eqb_refl. }
  split; [by apply (Walkable_init_plain su) |].
  split; [by apply (Walkable_init_plain sv) |].
  split; [exact Heq |]. split; [| split; [exact Hsets |]].
  - unfold Subgraph_eq_structures.
    cbn [private_sets Structure_nodes Structure_relationships Members_eq].
    unfold Walkable_nodes, Walkable_relationships. rewrite Hsu, Hsv.
    rewrite !(distinct_items_eq U) by auto.
    destruct (decide (su = sv)) as [-> | Hne].
    + assert (u = v) as -> by congruence.
      by rewrite !Nat.eqb_refl, !bool_decide_eq_true_2.
    + rewrite (bool_decide_eq_false_2 (su = sv)) by done.
      destruct (decide (slice_step2 0 su = slice_step2 0 sv)) as [Heven | Heven];
        [| by rewrite (bool_decide_eq_false_2 _ Heven), andb_false_r].
      destruct (decide (slice_step2 1 su = slice_step2 1 sv)) as [Hodd | Hodd];
        [| by rewrite (bool_decide_eq_false_2 _ Hodd), andb_false_r].
      destruct Hne. by apply slice_step2_inj.
  - intros k Hlen ->. split; [| split].
    + apply Hsets. unfold Walkable_nodes, Walkable_relationships. rewrite Hsu, Hsv.
      assert (∀ j x, (j ≤ 1)%nat → x ∈ slice_step2 j su ↔ x ∈ slice_step2 j (rev su))
        as Hrev by (intros j x Hj; by apply slice_step2_rev with k).
      split; intros x; [| apply Hrev; lia].
      rewrite !elem_of_endpoints. rewrite (Hrev 0%nat) by lia.
      split; (intros [? | (r & Hr & Hx)]; [by left | right; exists r]);
        (split; [by apply (Hrev 1%nat) | done]).
    + intros Hends. rewrite Heq. f_equal. apply bool_decide_eq_false.
      intros Hsame. apply Hends. rewrite Hsame at 1.
      rewrite rev_alt. change (rev_append su []) with (reverse su).
      apply head_reverse.
    + intros Hsame. rewrite Heq. f_equal. by apply bool_decide_eq_true.
Qed.

(** C5: walking a walkable and building a walkable from the entities
    yielded succeeds and gives a walkable that Walkable.__eq__ finds equal
    to the first one. *)
Theorem C5_round_trip (iterable : list (Entity Graph)) w :
  Walkable_init iterable = Ok w →
  ∃ entities rebuilt,
    collect (walk [w]) = Ok entities
    ∧ Walkable_init entities = Ok rebuilt
    ∧ Walkable_eq rebuilt w = Ok true.
Proof.
  intros Hinit. pose proof (collect_walk_single _ _ Hinit) as Hwalk.
  exists iterable, w. split; [done |]. split; [done |].
  unfold Walkable_eq. rewrite Hwalk. simpl.
  by rewrite (items_eq_refl item_eq _ item_eq_refl).
Qed.

Lemma alternating_odd_positions (sequence : list (Entity Graph)) :
  alternating sequence = true →
  ∀ e, e ∈ slice_step2 1 sequence → is_Relationship e = true.
Proof.
  remember (length sequence) as n eqn:Hn.
  revert sequence Hn. induction n as [n IH] using lt_wf_ind.
  intros [| x [| y after]] Hn Halt e He; try done.
  - by apply elem_of_nil in He.
  - simpl in Halt. apply andb_true_iff in Halt as [_ Halt].
    apply andb_true_iff in Halt as [Hy Halt].
    unfold slice_step2 in He. simpl in He.
    apply elem_of_cons in He as [-> | He]; [done |].
    destruct after as [| z after]; [by apply elem_of_nil in He |].
    apply (IH (length (z :: after))) with (z :: after); try done.
    subst n. simpl. lia.
Qed.

Lemma py_index_elem {A} (l : list A) i x : py_index l i = Ok x → x ∈ l.
Proof.
  unfold py_index. destruct (_ <? 0)%Z; [done |].
  destruct (l !! _) as [y |] eqn:Hy; [| done].
  intros [= <-]. by apply list_elem_of_lookup_2 in Hy.
Qed.

Lemma Walkable_getitem_int w (k : nat) (i : Z) :
  length (w_sequence w) = (2 * k + 1)%nat →
  Walkable_getitem w (Int i)
  = (e ←? py_index (Walkable_relationships w) i; Ok (AnEntity e)).
Proof.
  intros Hlen. destruct (slice_step2_lengths k _ Hlen) as [_ Hrels].
  unfold Walkable_getitem, Walkable_relationships.
  destruct (Z.ltb_spec i 0) as [Hneg | Hpos].
  - rewrite !py_index_negative by lia. rewrite Hrels, Hlen.
    destruct (Z.ltb_spec (2 * i + Z.of_nat (2 * k + 1)) 0),
      (Z.ltb_spec (i + Z.of_nat k) 0); try lia; [done |].
    rewrite slice_step2_lookup.
    replace (Z.to_nat (2 * i + Z.of_nat (2 * k + 1)))
      with (1 + 2 * Z.to_nat (i + Z.of_nat k))%nat by lia.
    done.
  - rewrite !py_index_natural by lia. rewrite slice_step2_lookup.
    replace (Z.to_nat (2 * i + 1)) with (1 + 2 * Z.to_nat i)%nat by lia.
    done.
Qed.

Lemma Walkable_len_odd w (k : nat) :
  length (w_sequence w) = (2 * k + 1)%nat → Walkable_len w = Z.of_nat k.
Proof.
  intros Hlen. unfold Walkable_len. rewrite Hlen.
  replace (Z.of_nat (2 * k + 1) - 1)%Z with (Z.of_nat k * 2)%Z by lia.
  by rewrite Z.div_mul.
Qed.

(** A slice between two relationship positions within range. *)
Lemma Walkable_getitem_slice_in_range w (k a b : nat) :
  length (w_sequence w) = (2 * k + 1)%nat → a ≤ b ≤ k →
  ∃ part,
    Walkable_getitem w (Slice (Some (Z.of_nat a)) (Some (Z.of_nat b))) = Ok (AWalkable part)
    ∧ w_sequence part = take (2 * (b - a) + 1) (drop (2 * a) (w_sequence w))
    ∧ length (w_sequence part) = (2 * (b - a) + 1)%nat
    ∧ Walkable_relationships part
      = py_slice (Walkable_relationships w) (Some (Z.of_nat a)) (Some (Z.of_nat b)).
Proof.
  intros Hlen Hab. destruct (slice_step2_lengths k _ Hlen) as [_ Hrels].
  unfold Walkable_getitem, Walkable_relationships.
  assert ((Z.of_nat a <? 0)%Z = false) as -> by (apply Z.ltb_ge; lia).
  assert ((Z.of_nat b <? 0)%Z = false) as -> by (apply Z.ltb_ge; lia).
  assert (py_slice (w_sequence w) (Some (2 * Z.of_nat a)%Z) (Some (2 * Z.of_nat b + 1)%Z)
          = take (2 * (b - a) + 1) (drop (2 * a) (w_sequence w))) as ->.
  { unfold py_slice, slice_bound. rewrite Hlen.
    assert ((2 * Z.of_nat a <? 0)%Z = false) as -> by (apply Z.ltb_ge; lia).
    assert ((2 * Z.of_nat b + 1 <? 0)%Z = false) as -> by (apply Z.ltb_ge; lia).
    f_equal; [| f_equal]; lia. }
  assert (py_slice (slice_step2 1 (w_sequence w)) (Some (Z.of_nat a)) (Some (Z.of_nat b))
          = take (b - a) (drop a (slice_step2 1 (w_sequence w)))) as ->.
  { unfold py_slice, slice_bound. rewrite Hrels.
    assert ((Z.of_nat a <? 0)%Z = false) as -> by (apply Z.ltb_ge; lia).
    assert ((Z.of_nat b <? 0)%Z = false) as -> by (apply Z.ltb_ge; lia).
    f_equal; [| f_equal]; lia. }
  set (part := take (2 * (b - a) + 1) (drop (2 * a) (w_sequence w))).
  assert (length part = (2 * (b - a) + 1)%nat) as Hpart.
  { unfold part. rewrite length_take, length_drop, Hlen. lia. }
  destruct part as [| x l] eqn:Hshape; [simpl in Hpart; lia |].
  destruct (Walkable_init_cons x l) as [sg ->]. simpl.
  eexists. split; [done |]. simpl. split; [done |]. split; [done |].
  rewrite <- Hshape. unfold part. apply list_eq. intros j.
  rewrite slice_step2_lookup.
  destruct (decide (j < b - a)) as [Hj | Hj].
  - rewrite !lookup_take_lt by lia. rewrite !lookup_drop, slice_step2_lookup.
    f_equal. lia.
  - by rewrite !lookup_take_ge by lia.
Qed.

(** C7, as the code has it: on a walkable of [k] relationships, whose
    sequence [s] has length [2k+1], an integer index yields the
    relationship at that position of the relationship tuple, counted from
    the end when negative; it is read at [s[2*i+1]] when [i >= 0] and at
    [s[2*i]] when [i < 0], and is a relationship, never a node, when the
    sequence alternates.  A slice is the walkable built from
    [s[2*start : 2*stop+1]] after [k] is added to a negative bound, and
    between two positions within range it covers the relationships
    [start..stop-1]. *)
Theorem C7_getitem w (k : nat) :
  length (w_sequence w) = (2 * k + 1)%nat →
  (∀ i, Walkable_getitem w (Int i)
        = (e ←? py_index (Walkable_relationships w) i; Ok (AnEntity e)))
  ∧ (∀ i, (0 <= i)%Z →
        Walkable_getitem w (Int i)
        = (e ←? py_index (w_sequence w) (2 * i + 1); Ok (AnEntity e)))
  ∧ (∀ i, (i < 0)%Z →
        Walkable_getitem w (Int i)
        = (e ←? py_index (w_sequence w) (2 * i); Ok (AnEntity e)))
  ∧ (alternating (w_sequence w) = true →
     ∀ i e, Walkable_getitem w (Int i) = Ok (AnEntity e) →
            is_Relationship e = true ∧ is_Node e = false)
  ∧ Walkable_len w = Z.of_nat k
  ∧ (∀ start stop,
        Walkable_getitem w (Slice start stop)
        = (part ←? Walkable_init
                     (py_slice (w_sequence w)
                        (option_map (fun a => (2 * from_end w a)%Z) start)
                        (option_map (fun b => (2 * from_end w b + 1)%Z) stop));
           Ok (AWalkable part)))
  ∧ (∀ a b : nat, a ≤ b ≤ k →
        ∃ part,
          Walkable_getitem w (Slice (Some (Z.of_nat a)) (Some (Z.of_nat b)))
          = Ok (AWalkable part)
          ∧ length (w_sequence part) = (2 * (b - a) + 1)%nat
          ∧ Walkable_relationships part
            = py_slice (Walkable_relationships w) (Some (Z.of_nat a)) (Some (Z.of_nat b))).
Proof.
  intros Hlen.
  split; [intros i; by apply Walkable_getitem_int with k |].
  split.
  { intros i Hi. unfold Walkable_getitem.
    by assert ((i <? 0)%Z = false) as -> by (apply Z.ltb_ge; lia). }
  split.
  { intros i Hi. unfold Walkable_getitem.
    by assert ((i <? 0)%Z = true) as -> by (apply Z.ltb_lt; lia). }
  split.
  { intros Halt i e. rewrite (Walkable_getitem_int w k i Hlen).
    destruct (py_index (Walkable_relationships w) i) as [x |] eqn:Hx; [| done].
    simpl. intros [= <-]. apply py_index_elem in Hx.
    pose proof (alternating_odd_positions _ Halt x Hx) as Hrel.
    split; [done |]. by destruct x. }
  split; [by apply Walkable_len_odd |].
  split.
  { intros [a |] [b |]; reflexivity. }
  intros a b Hab.
  destruct (Walkable_getitem_slice_in_range w k a b Hlen Hab)
    as (part & Hget & _ & Hpart & Hrels).
  by exists part.
Qed.
End WalkableFacts.

(** ** Node: stale labels and properties *)

Section NodeFacts.
Context {Graph : Type}.
Variable pull : Graph → Node Graph → Node Graph.

Lemma pull_if_stale_run (what : string) (self : Node Graph) g i :
  n_graph self = Some g → n_identity self = Some i → what ∈ n_stale self →
  pull_if_stale pull what self = (tt, pull g self, [Pull g (n_id self)]).
Proof.
  intros Hg Hi Hstale. unfold pull_if_stale, bound_and_stale.
  by rewrite Hg, Hi, bool_decide_eq_true_2.
Qed.

(** C8, as the code has it: on a bound node whose labels are marked
    stale, every label read and every label mutation first calls the pull
    of the owning graph on the node, once, and then reads or changes the
    labels the pull left; on a bound node whose properties are marked
    stale, a property read does the same with the properties.  The stale
    set after the call is the one the pull left: the methods themselves
    never change it. *)
Theorem C8_pull_before_use (self : Node Graph) (g : Graph) (i : Z) :
  n_graph self = Some g → n_identity self = Some i →
  let fresh := pull g self in
  let calls := [Pull g (n_id self)] in
  ("labels" ∈ n_stale self →
     Node_labels pull self = (n_labels fresh, fresh, calls)
     ∧ (∀ label, Node_has_label pull label self
                 = (bool_decide (label ∈ n_labels fresh), fresh, calls))
     ∧ (∀ label, Node_add_label pull label self
                 = (tt, on_labels (fun labels => labels ∪ {[label]}) fresh, calls))
     ∧ (∀ label, Node_remove_label pull label self
                 = (tt, on_labels (fun labels => labels ∖ {[label]}) fresh, calls))
     ∧ Node_clear_labels pull self = (tt, on_labels (fun _ => ∅) fresh, calls)
     ∧ (∀ labels, Node_update_labels pull labels self
                  = (tt, on_labels (fun old => old ∪ list_to_set labels) fresh, calls))
     ∧ (∀ f, n_stale (on_labels f fresh) = n_stale fresh))
  ∧ ("properties" ∈ n_stale self →
     ∀ item, Node_getitem pull item self = (n_properties fresh !! item, fresh, calls)).
Proof.
  intros Hg Hi fresh calls. split.
  - intros Hstale.
    pose proof (pull_if_stale_run "labels" self g i Hg Hi Hstale) as Hrun.
    unfold Node_labels, Node_has_label, Node_add_label, Node_remove_label,
      Node_clear_labels, Node_update_labels, Node_ensure_labels, and_then.
    rewrite Hrun. by repeat split.
  - intros Hstale item.
    pose proof (pull_if_stale_run "properties" self g i Hg Hi Hstale) as Hrun.
    unfold Node_getitem, and_then. by rewrite Hrun.
Qed.
End NodeFacts.

(** * The properties on the sample objects *)

Lemma sample_graph_eq_transitive : graph_eq_transitive (Graph := string).
Proof.
  intros g1 g2 g3 H12 H23. simpl in *.
  apply String.eqb_eq in H12, H23. apply String.eqb_eq. congruence.
Qed.

Lemma C1_subgraph_invariant_witness :
  ∃ sg, Subgraph_init None (Some [ERel alice_knows_bob]) = Ok sg
        ∧ sg_nodes sg ≠ []
        ∧ contains (sg_nodes sg) (ENode alice) = true
        ∧ contains (sg_nodes sg) (ENode bob) = true.
Proof.
  destruct (C1_subgraph_invariant (Graph := string)) as [Hinit _].
  destruct (Hinit None (Some [ERel alice_knows_bob])) as (_ & _ & Hok).
  eexists. split; [vm_compute; reflexivity |].
  edestruct Hok as (_ & Hnonempty & Hclosed); [vm_compute; reflexivity |].
  split; [exact Hnonempty |].
  specialize (Hclosed sample_graph_eq_transitive).
  split; apply (Hclosed (ERel alice_knows_bob)); vm_compute; repeat constructor.
Defined.

(** A token whose seventh character from the end is a digit is drawn again. *)
Example token_drawn_again :
  Entity_uuid ["0b9f6c1e-52a7-4d0e-8c3b-6f1de2a47c90"%string; n_uuid bob] = Some (n_uuid bob).
Proof. reflexivity. Qed.

Example union_of_walkables :
  Subgraph_or ab bc
  = Ok (mkSubgraph [ENode alice; ENode bob; ENode carol]
                   [ERel alice_knows_bob; ERel bob_likes_carol]).
Proof. vm_compute. reflexivity. Qed.

Example intersection_of_strangers :
  Subgraph_and (mkSubgraph [ENode alice] []) (mkSubgraph [ENode carol] [])
  = Raise ValueError.
Proof. vm_compute. reflexivity. Qed.

(** The difference keeps the end nodes of the relationships it keeps. *)
Example difference_of_walkables :
  Subgraph_sub ab bc
  = Ok (mkSubgraph [ENode alice; ENode bob] [ERel alice_knows_bob]).
Proof. vm_compute. reflexivity. Qed.

Example symmetric_difference_of_walkables :
  Subgraph_xor ab (walkable_of forward)
  = Ok (mkSubgraph [ENode carol; ENode bob] [ERel bob_likes_carol]).
Proof. vm_compute. reflexivity. Qed.

Example walk_forward : collect (walk [ab; bc]) = Ok forward.
Proof. vm_compute. reflexivity. Qed.

Example concatenation : Walkable_add ab (Some bc) = Ok (walkable_of forward).
Proof. vm_compute. reflexivity. Qed.

(** A walkable met at its end node is walked backwards. *)
Example walk_reversed :
  collect (walk [ab; cb])
  = Ok [ENode alice; ERel alice_knows_bob; ENode bob; ERel carol_knows_bob; ENode carol].
Proof. vm_compute. reflexivity. Qed.

(** A walkable that shares no end with the running end is refused, after
    the first walkable has been yielded. *)
Example walk_disconnected :
  walk [bc; ab] = mkWalk (w_sequence bc) (Some ValueError).
Proof. vm_compute. reflexivity. Qed.

Lemma C2_walk_witness :
  walk [ab; bc] = walk_spec [ab; bc]
  ∧ (length (yielded (walk [ab; bc])) + 2 = S (total_length [ab; bc]))%nat.
Proof.
  destruct (C2_walk [ab; bc]) as [Heq Hlen].
  { repeat constructor; vm_compute; discriminate. }
  split; [exact Heq |]. apply Hlen; [discriminate | vm_compute; reflexivity].
Defined.

Lemma C3_node_equality_witness :
  (py_eq (ENode alice) (ENode bob) = true ↔ alice = bob)
  ∧ py_eq (ENode (n_with_cache {["Person"%string]} ∅ seventh_node))
          (ENode (n_with_cache ∅ {["name"%string := PStr "Alice"]} seventh_node_again)) = true.
Proof.
  destruct (C3_node_equality alice bob) as [Hunbound _].
  destruct (C3_node_equality seventh_node seventh_node_again) as [_ Hbound].
  split.
  - apply Hunbound. left. by left.
  - by apply (Hbound "data"%string "data"%string 7%Z).
Defined.

(** Two nodes and their differing caches are indeed two objects. *)
Example seventh_node_objects_differ :
  seventh_node ≠ seventh_node_again ∧ n_labels seventh_node ≠ n_labels seventh_node_again.
Proof. split; [discriminate |]. vm_compute. discriminate. Qed.

(** A decidable statement on sample objects, settled by running its decision. *)
Ltac by_computation := apply (bool_decide_unpack _); vm_compute; exact I.

(** The claim C4 has a walk and its reverse unequal as walkables, and the
    Subgraph views of two walkables over the same members equal.  The walk
    of a loop and its reverse are the same traversal and equal walkables;
    and Subgraph.__eq__ given alice-KNOWS->bob-LIKES->carol and its reverse
    themselves compares their tuples and answers False. *)
Lemma C4_counterexample :
  let loop := entity_sequence (ERel alice_knows_alice) in
  length loop = 3%nat
  ∧ Walkable_init loop = Ok (walkable_of loop)
  ∧ Walkable_init (rev loop) = Ok (walkable_of (rev loop))
  ∧ Walkable_relationships (walkable_of loop) = [ERel alice_knows_alice]
  ∧ Walkable_eq (walkable_of loop) (walkable_of (rev loop)) = Ok true
  ∧ Subgraph_eq_structures (Walked (walkable_of forward)) (Walked (walkable_of backward))
    = false.
Proof.
  intros loop.
  split; [reflexivity |]. split; [vm_compute; reflexivity |].
  split; [vm_compute; reflexivity |]. split; [vm_compute; reflexivity |].
  split; vm_compute; reflexivity.
Qed.

Lemma C4_order_sensitive_witness :
  ∃ a b,
    Subgraph_init (Some (Walkable_nodes (walkable_of forward)))
                  (Some (Walkable_relationships (walkable_of forward))) = Ok a
    ∧ Subgraph_init (Some (Walkable_nodes (walkable_of backward)))
                    (Some (Walkable_relationships (walkable_of backward))) = Ok b
    ∧ Walkable_eq (walkable_of forward) (walkable_of backward) = Ok false
    ∧ Subgraph_eq_structures (Walked (walkable_of forward)) (Walked (walkable_of backward))
      = false
    ∧ Subgraph_eq_structures (Plain a) (Plain b) = true.
Proof.
  destruct (C4_order_sensitive (universe forward) forward backward
              (walkable_of forward) (walkable_of backward))
    as (a & b & Ha & Hb & _ & Hstructures & _ & Hreversed).
  - apply entities_distinctb_sound. vm_compute. reflexivity.
  - intros x Hx. exact Hx.
  - by_computation.
  - vm_compute. reflexivity.
  - vm_compute. reflexivity.
  - destruct (Hreversed 2%nat eq_refl eq_refl) as (Hsets & Hwalks & _).
    exists a, b. split; [exact Ha |]. split; [exact Hb |].
    split; [apply Hwalks; simpl; discriminate |].
    split; [| exact Hsets].
    rewrite Hstructures. apply bool_decide_eq_false. discriminate.
Defined.

(** A loop reads the same in both directions: its reverse is the same
    traversal, and equal to it. *)
Example loop_reversed :
  rev (entity_sequence (ERel alice_knows_alice)) = entity_sequence (ERel alice_knows_alice)
  ∧ Walkable_eq (walkable_of (rev (entity_sequence (ERel alice_knows_alice))))
                (walkable_of (entity_sequence (ERel alice_knows_alice))) = Ok true.
Proof. split; vm_compute; reflexivity. Qed.

Lemma C5_round_trip_witness :
  ∃ entities rebuilt,
    collect (walk [walkable_of forward]) = Ok entities
    ∧ Walkable_init entities = Ok rebuilt
    ∧ Walkable_eq rebuilt (walkable_of forward) = Ok true.
Proof. apply (C5_round_trip forward). vm_compute. reflexivity. Defined.

(** The claim C6 promises a result for the difference of a subgraph of two
    nodes with itself; the constructor refuses it. *)
Lemma C6_counterexample :
  Subgraph_init (Some [ENode alice; ENode bob]) None = Ok two_nodes
  ∧ order two_nodes = 2%nat ∧ size two_nodes = 0%nat
  ∧ Subgraph_sub two_nodes two_nodes = Raise ValueError.
Proof. repeat split; vm_compute; reflexivity. Qed.

(** The claim C7 has a negative index yield a node; on alice-KNOWS->bob
    the index -1 yields the relationship. *)
Lemma C7_counterexample :
  length (w_sequence alice_to_bob) = 3%nat
  ∧ alternating (w_sequence alice_to_bob) = true
  ∧ py_index (w_sequence alice_to_bob) (2 * -1) = Ok (ERel alice_knows_bob)
  ∧ Walkable_getitem alice_to_bob (Int (-1)) = Ok (AnEntity (ERel alice_knows_bob))
  ∧ is_Node (ERel alice_knows_bob) = false.
Proof. repeat split; vm_compute; reflexivity. Qed.

Lemma C7_getitem_witness :
  Walkable_getitem (walkable_of forward) (Int (-1))
  = (e ←? py_index (Walkable_relationships (walkable_of forward)) (-1); Ok (AnEntity e))
  ∧ Walkable_len (walkable_of forward) = 2%Z.
Proof.
  destruct (C7_getitem (walkable_of forward) 2) as (Hint & _ & _ & _ & Hlen & _).
  { vm_compute. reflexivity. }
  split; [apply Hint | exact Hlen].
Defined.

Example slice_of_forward :
  Walkable_getitem (walkable_of forward) (Slice (Some 1%Z) None) = Ok (AWalkable bc).
Proof. vm_compute. reflexivity. Qed.

(** The claim C8 has the stale flag cleared after the read; with a pull
    that leaves the node as it is, the flag is still set. *)
Lemma C8_counterexample :
  n_graph stale_node = Some "data"%string
  ∧ n_identity stale_node = Some 7%Z
  ∧ "labels"%string ∈ n_stale stale_node
  ∧ calls_of (Node_has_label idle_pull "Person" stale_node) = [Pull "data"%string 16384%Z]
  ∧ "labels"%string ∈ n_stale (self_after (Node_has_label idle_pull "Person" stale_node)).
Proof.
  repeat split; reflexivity.
Qed.

Lemma C8_pull_before_use_witness :
  Node_has_label refreshing_pull "Person" stale_node
  = (bool_decide ("Person"%string ∈ n_labels (refreshing_pull "data"%string stale_node)),
     refreshing_pull "data"%string stale_node, [Pull "data"%string (n_id stale_node)])
  ∧ Node_getitem refreshing_pull "name" stale_node
    = (n_properties (refreshing_pull "data"%string stale_node) !! "name"%string,
       refreshing_pull "data"%string stale_node, [Pull "data"%string (n_id stale_node)]).
Proof.
  destruct (C8_pull_before_use refreshing_pull stale_node "data"%string 7%Z eq_refl eq_refl)
    as [Hlabels Hproperties].
  split.
  - apply Hlabels. unfold stale_node. simpl. apply elem_of_union_l, elem_of_singleton. done.
  - apply Hproperties. unfold stale_node. simpl. apply elem_of_union_r, elem_of_singleton. done.
Defined.

(** The claim C9 has two unbound entities equal only if they are one
    object with one token; two relationships built by the same call are two
    objects with two tokens, and equal. *)
Lemma C9_counterexample :
  unbound_relationship alice_knows_bob
  ∧ unbound_relationship alice_knows_bob_again
  ∧ r_uuid alice_knows_bob ≠ r_uuid alice_knows_bob_again
  ∧ alice_knows_bob ≠ alice_knows_bob_again
  ∧ py_eq (ERel alice_knows_bob) (ERel alice_knows_bob_again) = true
  ∧ py_hash (ERel alice_knows_bob) = py_hash (ERel alice_knows_bob_again).
Proof.
  repeat split; try (vm_compute; reflexivity); try (by left); discriminate.
Qed.

Lemma C9_unbound_equality_witness :
  (py_eq (ENode alice) (ENode bob) = true ↔ alice = bob)
  ∧ py_eq (ERel alice_knows_bob) (ERel alice_knows_bob_again) = true
  ∧ Node_hash alice = hash_int 4096.
Proof.
  destruct (C9_unbound_equality (Graph := string)) as (Hnodes & Hrels & Hhash & _).
  split; [| split].
  - apply Hnodes. left. by left.
  - apply Hrels; [left; by left |]. right. repeat split; vm_compute; reflexivity.
  - apply (Hhash alice ""%string). by left.
Defined.

(** C10, where the code leaves it: a node bound with identity 0 hashes by
    its address like an unbound one, whatever its graph, since 0 is not
    truthy in [if self.graph and self.identity]. *)
Theorem C10_node_hash_identity_zero {Graph : Type} `{!Externals Graph}
    (n : Node Graph) (g : Graph) :
  n_graph n = Some g → n_identity n = Some 0%Z →
  Node_hash n = hash_int (n_id n).
Proof.
  intros Hg Hi. unfold Node_hash. rewrite Hg, Hi. simpl. by rewrite andb_false_r.
Qed.

Lemma C10_node_hash_identity_zero_witness :
  Node_hash first_node = hash_int 12288
  ∧ py_eq (ENode first_node) (ENode first_node_again) = true
  ∧ Node_hash first_node ≠ Node_hash first_node_again
  ∧ Node_hash seventh_node = Node_hash seventh_node_again.
Proof.
  split; [by apply (C10_node_hash_identity_zero first_node "data"%string) |].
  split; [vm_compute; reflexivity |].
  split; [vm_compute; discriminate | vm_compute; reflexivity].
Defined.

(** * Further properties of the module *)

(** ** Strings and html_escape *)

Lemma append_cons x (a b : string) : String x a +:+ b = String x (a +:+ b).
Proof. reflexivity. Qed.

Lemma append_empty_r (a : string) : a +:+ EmptyString = a.
Proof. induction a as [| x a IH]; [done |]. by rewrite append_cons, IH. Qed.

Lemma append_assoc (a b c : string) : (a +:+ b) +:+ c = a +:+ (b +:+ c).
Proof. induction a as [| x a IH]; [done |]. by rewrite !append_cons, IH. Qed.

Lemma chars_append (a b : string) : chars (a +:+ b) = chars a ++ chars b.
Proof.
  unfold chars. induction a as [| x a IH]; [done |].
  rewrite append_cons. simpl. by rewrite IH.
Qed.

Lemma expand_append f s t : expand f (s +:+ t) = expand f s +:+ expand f t.
Proof.
  induction s as [| c s IH]; [done |].
  rewrite append_cons. simpl. by rewrite IH, append_assoc.
Qed.

Lemma expand_expand f g s : expand f (expand g s) = expand (fun c => expand f (g c)) s.
Proof. induction s as [| c s IH]; [done |]. simpl. by rewrite expand_append, IH. Qed.

Lemma expand_ext f g s : (∀ c, f c = g c) → expand f s = expand g s.
Proof. intros H. induction s as [| c s IH]; [done |]. simpl. by rewrite H, IH. Qed.

Lemma prefix_empty s : String.prefix EmptyString s = true.
Proof. by destruct s. Qed.

(** Replacing a single character replaces each of its occurrences. *)
Lemma str_replace_char c new s :
  str_replace (String c EmptyString) new s
  = expand (fun x => if decide (x = c) then new else String x EmptyString) s.
Proof.
  unfold str_replace. induction s as [| x s IH]; [done |].
  simpl. destruct (ascii_dec c x) as [-> | Hne].
  - rewrite decide_True by done. rewrite prefix_empty. by rewrite IH.
  - rewrite decide_False by congruence. by rewrite IH.
Qed.

(** The five replacements in a row replace every character once: the
    ampersands of the entities are not escaped again. *)
Lemma html_escape_chars s : html_escape s = expand escape_char s.
Proof.
  unfold html_escape. rewrite !str_replace_char, !expand_expand.
  apply expand_ext. intros c.
  destruct c as [[] [] [] [] [] [] [] []]; vm_compute; reflexivity.
Qed.

Lemma escape_char_plain c : html_special c = false → escape_char c = String c EmptyString.
Proof.
  unfold html_special, escape_char. rewrite !orb_false_iff, !bool_decide_eq_false.
  intros ((((H1 & H2) & H3) & H4) & H5).
  by rewrite !decide_False by done.
Qed.

Lemma escape_char_special c :
  html_special c = true →
  c = "&"%char ∨ c = "<"%char ∨ c = ">"%char ∨ c = quote_char ∨ c = "'"%char.
Proof.
  unfold html_special. rewrite !orb_true_iff, !bool_decide_eq_true. tauto.
Qed.

(** X1: html_escape works character by character: the escape of a
    concatenation is the concatenation of the escapes, each of the five
    characters becomes its entity, an ampersand included only once, and
    every other character is kept. *)
Theorem X1_html_escape_characterwise :
  (∀ s t, html_escape (s +:+ t) = html_escape s +:+ html_escape t)
  ∧ html_escape "&" = "&amp;"
  ∧ html_escape "<" = "&lt;"
  ∧ html_escape ">" = "&gt;"
  ∧ html_escape (String quote_char EmptyString) = "&quot;"
  ∧ html_escape "'" = "&#039;"
  ∧ (∀ c, html_special c = false →
          html_escape (String c EmptyString) = String c EmptyString).
Proof.
  split.
  { intros s t. by rewrite !html_escape_chars, expand_append. }
  repeat split; try reflexivity.
  intros c Hc. rewrite html_escape_chars. simpl.
  by rewrite escape_char_plain, append_empty_r.
Qed.

(** X2: the escaped text holds none of the characters that open or close
    a tag or an attribute value, and a text without the five characters is
    left as it is. *)
Theorem X2_html_escape_safe (s : string) :
  Forall (fun c => c ≠ "<"%char ∧ c ≠ ">"%char ∧ c ≠ quote_char ∧ c ≠ "'"%char)
         (chars (html_escape s))
  ∧ (forallb (fun c => negb (html_special c)) (chars s) = true → html_escape s = s).
Proof.
  rewrite html_escape_chars. split.
  - induction s as [| c s IH]; [constructor |].
    simpl. rewrite chars_append. apply Forall_app. split; [| done].
    destruct (html_special c) eqn:Hc.
    + apply escape_char_special in Hc as [-> | [-> | [-> | [-> | ->]]]];
        vm_compute; repeat constructor; discriminate.
    + rewrite escape_char_plain by done.
      unfold html_special in Hc. rewrite !orb_false_iff, !bool_decide_eq_false in Hc.
      repeat constructor; tauto.
  - induction s as [| c s IH]; [done |].
    simpl. rewrite andb_true_iff, negb_true_iff. intros [Hc Hs].
    by rewrite escape_char_plain, IH.
Qed.

Lemma escape_char_head c c' (r r' : string) :
  escape_char c +:+ r = escape_char c' +:+ r' → c = c' ∧ r = r'.
Proof.
  destruct (html_special c) eqn:Hc, (html_special c') eqn:Hc'.
  - apply escape_char_special in Hc as [-> | [-> | [-> | [-> | ->]]]];
      apply escape_char_special in Hc' as [-> | [-> | [-> | [-> | ->]]]];
      vm_compute; intros H; (split; [reflexivity | congruence]) || discriminate.
  - rewrite (escape_char_plain c') by done.
    assert (c' ≠ "&"%char) as Hamp.
    { intros ->. discriminate. }
    apply escape_char_special in Hc as [-> | [-> | [-> | [-> | ->]]]];
      vm_compute; intros H; congruence.
  - rewrite (escape_char_plain c) by done.
    assert (c ≠ "&"%char) as Hamp.
    { intros ->. discriminate. }
    apply escape_char_special in Hc' as [-> | [-> | [-> | [-> | ->]]]];
      vm_compute; intros H; congruence.
  - rewrite (escape_char_plain c), (escape_char_plain c') by done.
    rewrite !append_cons. intros [= -> H]. split; [done | exact H].
Qed.

Lemma escape_char_not_empty c (r : string) : escape_char c +:+ r ≠ EmptyString.
Proof.
  destruct (html_special c) eqn:Hc.
  - apply escape_char_special in Hc as [-> | [-> | [-> | [-> | ->]]]]; discriminate.
  - by rewrite escape_char_plain.
Qed.

(** X3: escaping loses nothing: two texts with the same escape are the
    same text. *)
Theorem X3_html_escape_injective (s t : string) :
  html_escape s = html_escape t → s = t.
Proof.
  rewrite !html_escape_chars. revert t.
  induction s as [| c s IH]; intros [| c' t]; simpl; intros H.
  - done.
  - symmetry in H. by apply escape_char_not_empty in H.
  - by apply escape_char_not_empty in H.
  - apply escape_char_head in H as [-> H]. by rewrite (IH t H).
Qed.

(** ** The generated token *)

(** X4: the loop keeps a token exactly when a value is drawn whose seventh
    character from the end is not a digit after values that all have a
    digit there, and the token kept is that value: the first drawn
    without a digit at that place. *)
Theorem X4_token_kept (draws : list string) (uuid : string) :
  Entity_uuid draws = Some uuid
  ↔ ∃ rejected later c,
      draws = rejected ++ uuid :: later
      ∧ seventh_from_end uuid = Some c ∧ is_digit c = false
      ∧ Forall (fun u => ∃ d, seventh_from_end u = Some d ∧ is_digit d = true) rejected.
Proof.
  split.
  - induction draws as [| u draws IH]; [done |].
    simpl. destruct (seventh_from_end u) as [d |] eqn:Hd; [| done].
    destruct (is_digit d) eqn:Hdigit.
    + intros (rejected & later & c & -> & Hc & Hnot & Hall)%IH.
      exists (u :: rejected), later, c. repeat split; try done.
      constructor; [by exists d | done].
    + intros [= <-]. exists [], draws, d. repeat split; try done.
  - intros (rejected & later & c & -> & Hc & Hnot & Hall).
    induction Hall as [| u rejected (d & Hd & Hdigit) _ IH]; simpl.
    + by rewrite Hc, Hnot.
    + by rewrite Hd, Hdigit.
Qed.

(** ** Labels of a node that needs no refresh *)

Section FreshNodeFacts.
Context {Graph : Type}.
Variable pull : Graph → Node Graph → Node Graph.

Lemma pull_if_stale_idle (what : string) (self : Node Graph) :
  n_graph self = None ∨ n_identity self = None ∨ what ∉ n_stale self →
  pull_if_stale pull what self = (tt, self, []).
Proof.
  intros Hidle. unfold pull_if_stale, bound_and_stale.
  destruct (n_graph self) as [g |]; [| done].
  destruct (n_identity self) as [i |]; [| done].
  destruct Hidle as [? | [? | Hfresh]]; [done | done |].
  by rewrite bool_decide_eq_false_2.
Qed.

(** X5: on a node that is not bound, or whose labels are not marked
    stale, the label methods never call the graph and act as a set: a label
    added is there, a label removed is not, the other labels are untouched,
    clearing leaves none and updating adds them all. *)
Theorem X5_labels_of_fresh_node (self : Node Graph) :
  n_graph self = None ∨ n_identity self = None ∨ "labels" ∉ n_stale self →
  Node_labels pull self = (n_labels self, self, [])
  ∧ (∀ label, Node_has_label pull label self
              = (bool_decide (label ∈ n_labels self), self, []))
  ∧ (∀ label,
       let added := self_after (Node_add_label pull label self) in
       calls_of (Node_add_label pull label self) = []
       ∧ Node_has_label pull label added = (true, added, [])
       ∧ ∀ other, other ≠ label →
           value_of (Node_has_label pull other added)
           = value_of (Node_has_label pull other self))
  ∧ (∀ label,
       let removed := self_after (Node_remove_label pull label self) in
       calls_of (Node_remove_label pull label self) = []
       ∧ Node_has_label pull label removed = (false, removed, [])
       ∧ ∀ other, other ≠ label →
           value_of (Node_has_label pull other removed)
           = value_of (Node_has_label pull other self))
  ∧ Node_labels pull (self_after (Node_clear_labels pull self))
    = (∅, self_after (Node_clear_labels pull self), [])
  ∧ (∀ labels label,
       value_of (Node_has_label pull label
                   (self_after (Node_update_labels pull labels self)))
       = bool_decide (label ∈ n_labels self ∨ label ∈ labels)).
Proof.
  intros Hidle.
  assert (∀ f, pull_if_stale pull "labels" (on_labels f self)
               = (tt, on_labels f self, [])) as Hafter.
  { intros f. by apply pull_if_stale_idle. }
  pose proof (pull_if_stale_idle "labels" self Hidle) as Hnow.
  unfold Node_labels, Node_has_label, Node_add_label, Node_remove_label,
    Node_clear_labels, Node_update_labels, Node_ensure_labels, and_then,
    self_after, calls_of, value_of.
  rewrite Hnow. simpl. rewrite !Hafter. simpl.
  split; [done |]. split; [done |].
  split.
  { intros label. rewrite Hafter. simpl. split; [done |]. split.
    - f_equal. f_equal. apply bool_decide_eq_true_2.
      apply elem_of_union_r. by apply elem_of_singleton.
    - intros other Hne. apply bool_decide_ext.
      rewrite elem_of_union, elem_of_singleton. intuition congruence. }
  split.
  { intros label. rewrite Hafter. simpl. split; [done |]. split.
    - f_equal. f_equal. apply bool_decide_eq_false_2.
      rewrite elem_of_difference, elem_of_singleton. intuition congruence.
    - intros other Hne. apply bool_decide_ext.
      rewrite elem_of_difference, elem_of_singleton. intuition congruence. }
  split; [done |].
  intros labels label. rewrite Hafter. simpl.
  apply bool_decide_ext. rewrite elem_of_union, elem_of_list_to_set. done.
Qed.
End FreshNodeFacts.

(** ** Hashes of subgraphs and walkables *)

Section HashFacts.
Context {Graph : Type} `{!EqDecision Graph, !Externals Graph}.
Implicit Types w : Walkable Graph.

Lemma xor_hashes_from (value : Z) (entities : list (Entity Graph)) :
  xor_hashes value entities = Z.lxor value (xor_hashes 0 entities).
Proof.
  revert value. induction entities as [| x l IH]; intros value.
  { simpl. by rewrite Z.lxor_0_r. }
  unfold xor_hashes in *. simpl.
  rewrite (IH (Z.lxor value (py_hash x))), (IH (Z.lxor 0 (py_hash x))).
  by rewrite Z.lxor_0_l, Z.lxor_assoc.
Qed.

Lemma xor_hashes_Permutation (value : Z) (l l' : list (Entity Graph)) :
  l ≡ₚ l' → xor_hashes value l = xor_hashes value l'.
Proof.
  intros Hperm. revert value.
  induction Hperm as [| x l l' _ IH | x y l | l l' l'' _ IH1 _ IH2]; intros value.
  - done.
  - unfold xor_hashes in *. simpl. apply IH.
  - unfold xor_hashes. simpl. f_equal.
    rewrite !Z.lxor_assoc. f_equal. apply Z.lxor_comm.
  - by rewrite IH1, IH2.
Qed.

Lemma rev_Permutation {A} (l : list A) : rev l ≡ₚ l.
Proof. rewrite rev_alt. apply reverse_Permutation. Qed.

(** X8: the hash of a walkable does not depend on the order of its
    sequence: a walkable and the walkable of the reversed sequence, which
    Walkable.__eq__ tells apart, have the same hash; and the hash of a
    sequence put together from two is the exclusive or of their hashes. *)
Theorem X8_walkable_hash :
  (∀ w w', w_sequence w' = rev (w_sequence w) → Walkable_hash w' = Walkable_hash w)
  ∧ (∀ w w', w_sequence w' ≡ₚ w_sequence w → Walkable_hash w' = Walkable_hash w)
  ∧ (∀ w p q, w_sequence w = w_sequence p ++ q →
              Walkable_hash w = Z.lxor (Walkable_hash p) (xor_hashes 0 q)).
Proof.
  unfold Walkable_hash. split; [| split].
  - intros w w' ->. apply xor_hashes_Permutation, rev_Permutation.
  - intros w w' Hperm. by apply xor_hashes_Permutation.
  - intros w p q ->. unfold xor_hashes at 1. rewrite fold_left_app.
    apply xor_hashes_from.
Qed.

(** Among pairwise distinct keys, the two sets of a subgraph hold each
    key once. *)
Lemma Subgraph_init_NoDup (U N R : list (Entity Graph)) sg :
  keys_distinct U → N ⊆ U → R ⊆ U → endpoints R ⊆ U →
  Subgraph_init (Some N) (Some R) = Ok sg →
  NoDup (sg_nodes sg) ∧ NoDup (sg_relationships sg)
  ∧ sg_nodes sg ⊆ U ∧ sg_relationships sg ⊆ U.
Proof.
  intros Hdistinct HN HR HX. rewrite Subgraph_init_unfold.
  unfold closed_nodes. rewrite !or_empty_Some.
  destruct (union _ _) as [| y nodes] eqn:Hnodes; [done |].
  intros [= <-]. simpl. rewrite <- Hnodes. clear y nodes Hnodes.
  assert ([] ⊆ U) as Hnil by (intros x Hx; by apply elem_of_nil in Hx).
  destruct (distinct_update py_hash item_eq item_eq_refl U Hdistinct R [])
    as [HR_nodup HR_elems]; [done | done | apply NoDup_nil_2 |].
  fold (frozenset R) in HR_nodup, HR_elems.
  assert (frozenset R ⊆ R) as HfR.
  { intros x Hx%HR_elems. by destruct Hx as [[]%elem_of_nil | Hx]. }
  destruct (distinct_update py_hash item_eq item_eq_refl U Hdistinct N [])
    as [HN_nodup HN_elems]; [done | done | apply NoDup_nil_2 |].
  fold (frozenset N) in HN_nodup, HN_elems.
  assert (endpoints (frozenset R) ⊆ U) as HXf.
  { intros x Hx. by apply HX, (endpoints_subset (frozenset R)). }
  destruct (distinct_update py_hash item_eq item_eq_refl U Hdistinct
              (endpoints (frozenset R)) [])
    as [HX_nodup HX_elems]; [done | done | apply NoDup_nil_2 |].
  fold (frozenset (endpoints (frozenset R))) in HX_nodup, HX_elems.
  assert (frozenset N ⊆ U) as HfN.
  { intros x Hx%HN_elems. destruct Hx as [[]%elem_of_nil | Hx]. by apply HN. }
  assert (frozenset (endpoints (frozenset R)) ⊆ U) as HfX.
  { intros x Hx%HX_elems. destruct Hx as [[]%elem_of_nil | Hx]. by apply HXf. }
  destruct (distinct_update py_hash item_eq item_eq_refl U Hdistinct
              (frozenset (endpoints (frozenset R))) (frozenset N))
    as [HU_nodup HU_elems]; [done | done | done |].
  fold (union (frozenset N) (frozenset (endpoints (frozenset R)))) in HU_nodup, HU_elems.
  repeat split; try done.
  - intros x Hx%HU_elems. destruct Hx as [Hx | Hx]; auto.
  - intros x Hx%HfR. by apply HR.
Qed.

(** Two sets without repetition that are equal as sets hold the same keys
    in some order. *)
Lemma set_eq_Permutation (U s t : list (Entity Graph)) :
  keys_distinct U → s ⊆ U → t ⊆ U → NoDup s →
  set_eq py_hash item_eq s t = true → s ≡ₚ t.
Proof.
  intros Hdistinct Hs Ht Hnodup. unfold set_eq.
  rewrite andb_true_iff, Nat.eqb_eq, forallb_forall. intros [Hlen Hall].
  apply submseteq_length_Permutation; [| lia].
  apply NoDup_submseteq; [done |]. intros x Hx.
  apply (distinct_contains py_hash item_eq item_eq_refl U Hdistinct t x Ht (Hs x Hx)).
  by apply Hall, list_elem_of_In.
Qed.

(** X7: the hash of a subgraph does not depend on the order in which its
    two sets are iterated, and two subgraphs built over pairwise distinct
    keys that Subgraph.__eq__ finds equal have the same hash. *)
Theorem X7_subgraph_hash :
  (∀ a b : Subgraph Graph,
     sg_nodes a ≡ₚ sg_nodes b → sg_relationships a ≡ₚ sg_relationships b →
     Subgraph_hash a = Subgraph_hash b)
  ∧ (∀ (U N R N' R' : list (Entity Graph)) a b,
       keys_distinct U →
       N ⊆ U → R ⊆ U → endpoints R ⊆ U →
       N' ⊆ U → R' ⊆ U → endpoints R' ⊆ U →
       Subgraph_init (Some N) (Some R) = Ok a →
       Subgraph_init (Some N') (Some R') = Ok b →
       Subgraph_eq a b = true → Subgraph_hash a = Subgraph_hash b).
Proof.
  assert (∀ a b : Subgraph Graph,
     sg_nodes a ≡ₚ sg_nodes b → sg_relationships a ≡ₚ sg_relationships b →
     Subgraph_hash a = Subgraph_hash b) as Hperm.
  { intros a b Hn Hr. unfold Subgraph_hash.
    rewrite (xor_hashes_Permutation _ _ _ Hr).
    by rewrite (xor_hashes_Permutation _ _ _ Hn). }
  split; [done |].
  intros U N R N' R' a b Hdistinct HN HR HX HN' HR' HX' Ha Hb Heq.
  destruct (Subgraph_init_NoDup U N R a) as (Han & Har & HaN & HaR); try done.
  destruct (Subgraph_init_NoDup U N' R' b) as (Hbn & Hbr & HbN & HbR); try done.
  unfold Subgraph_eq in Heq. rewrite !andb_true_iff in Heq.
  destruct Heq as [[_ Hnodes] Hrels].
  apply Hperm; by apply (set_eq_Permutation U).
Qed.
End HashFacts.

(** ** Union, counts and concatenation *)

Section CompositionFacts.
Context {Graph : Type} `{!EqDecision Graph, !Externals Graph}.
Implicit Types w p q : Walkable Graph.

Lemma set_update_prefix {A} (hash : A → Z) (eqb : A → A → bool) iterable :
  ∀ s, ∃ extra, set_update hash eqb s iterable = s ++ extra.
Proof.
  induction iterable as [| key iterable IH]; intros s.
  { exists []. by rewrite app_nil_r. }
  simpl. destruct (IH (set_add hash eqb s key)) as [extra ->].
  unfold set_add. destruct (set_contains hash eqb s key).
  - by exists extra.
  - exists ([key] ++ extra). by rewrite app_assoc.
Qed.

Lemma set_update_length_le {A} (hash : A → Z) (eqb : A → A → bool) iterable :
  ∀ s, length (set_update hash eqb s iterable) ≤ length s + length iterable.
Proof.
  induction iterable as [| key iterable IH]; intros s; [simpl; lia |].
  simpl. etrans; [apply IH |]. unfold set_add.
  destruct (set_contains hash eqb s key); [lia |]. rewrite length_app. simpl. lia.
Qed.

Lemma set_add_KeySet (s : list (Entity Graph)) key :
  KeySet s → KeySet (set_add py_hash item_eq s key).
Proof.
  intros Hs. unfold set_add.
  destruct (set_contains py_hash item_eq s key) eqn:Hkey; [done |].
  by constructor.
Qed.

Lemma set_update_KeySet iterable : ∀ s : list (Entity Graph),
  KeySet s → KeySet (set_update py_hash item_eq s iterable).
Proof.
  induction iterable as [| key iterable IH]; intros s Hs; [done |].
  simpl. by apply IH, set_add_KeySet.
Qed.

Lemma frozenset_KeySet (iterable : list (Entity Graph)) : KeySet (frozenset iterable).
Proof. apply set_update_KeySet. constructor. Qed.

(** Building a set from a set gives the set back. *)
Lemma KeySet_frozenset (s : list (Entity Graph)) : KeySet s → frozenset s = s.
Proof.
  induction 1 as [| s key _ IH Hkey]; [done |].
  unfold frozenset, set_of, set_update in *. rewrite fold_left_app, IH. simpl.
  unfold set_add. unfold contains in Hkey. by rewrite Hkey.
Qed.

(** X6: the union of a graph structure that has a node with any other
    never fails; its relationship set is the union of the two relationship
    sets, its node set starts with the union of the two node sets, and
    every node and relationship of the left operand is found in it, as is
    every node of the right operand when [==] on graphs is transitive. *)
Theorem X6_union_succeeds (S T : Type) (GS : GraphStructure S) (GT : GraphStructure T)
    (self : S) (other : T) :
  nodes_of self ≠ [] →
  ∃ sg extra,
    Subgraph_or self other = Ok sg
    ∧ sg_relationships sg = or_relationships self other
    ∧ sg_nodes sg = or_nodes self other ++ extra
    ∧ (∀ n, n ∈ nodes_of self → contains (sg_nodes sg) n = true)
    ∧ (∀ r, r ∈ relationships_of self → contains (sg_relationships sg) r = true)
    ∧ (graph_eq_transitive →
       ∀ n, ENode n ∈ nodes_of other → contains (sg_nodes sg) (ENode n) = true).
Proof.
  intros Hnodes.
  assert (KeySet (or_nodes self other)) as Hkn.
  { apply set_update_KeySet, frozenset_KeySet. }
  assert (KeySet (or_relationships self other)) as Hkr.
  { apply set_update_KeySet, frozenset_KeySet. }
  destruct (set_update_prefix py_hash item_eq
              (frozenset (endpoints (or_relationships self other)))
              (or_nodes self other)) as [extra Hextra].
  assert (closed_nodes (Some (or_nodes self other)) (Some (or_relationships self other))
          = or_nodes self other ++ extra) as Hclosed.
  { unfold closed_nodes. rewrite !or_empty_Some.
    by rewrite (KeySet_frozenset _ Hkn), (KeySet_frozenset _ Hkr). }
  assert (or_nodes self other ≠ []) as Hne.
  { unfold or_nodes, union, set_union. intros Hnil%set_update_nil_inv.
    by apply (set_of_nil_inv py_hash item_eq) in Hnil. }
  exists (mkSubgraph (or_nodes self other ++ extra) (or_relationships self other)), extra.
  split.
  { unfold Subgraph_or. rewrite Subgraph_init_unfold, Hclosed, or_empty_Some.
    rewrite (KeySet_frozenset _ Hkr).
    destruct (or_nodes self other ++ extra) as [| y l] eqn:Hshape; [| done].
    apply app_eq_nil in Hshape as [? _]. done. }
  simpl. repeat split; try done.
  - intros n Hn. unfold contains. rewrite set_contains_app.
    apply orb_true_iff. left. unfold or_nodes, union, set_union.
    apply set_update_keeps. by apply set_update_has; [apply item_eq_refl |].
  - intros r Hr. unfold contains, or_relationships, union, set_union.
    apply set_update_keeps. by apply set_update_has; [apply item_eq_refl |].
  - intros Htrans n Hn. unfold contains. rewrite set_contains_app.
    apply orb_true_iff. left.
    pose proof (set_update_has py_hash item_eq item_eq_refl _ [] _ Hn) as Hy.
    apply set_contains_stored in Hy as (y' & Hy' & Hyn).
    pose proof (set_update_has py_hash item_eq item_eq_refl _
                  (frozenset (nodes_of self)) _ Hy') as Hz.
    apply set_contains_stored in Hz as (z & Hz & Hzy).
    apply set_contains_stored. exists z. split; [done |].
    by apply (same_key_node_trans z y' n Htrans).
Qed.

(** X9: a walkable built from [2k+1] entities has [k+1] nodes and [k]
    relationships in its tuples and length [k]; its Subgraph part has at
    least one node and at most [k] relationships, and it is truthy exactly
    when its length is not zero. *)
Theorem X9_walkable_counts (sequence : list (Entity Graph)) w (k : nat) :
  Walkable_init sequence = Ok w → length sequence = (2 * k + 1)%nat →
  length (Walkable_nodes w) = S k
  ∧ length (Walkable_relationships w) = k
  ∧ Walkable_len w = Z.of_nat k
  ∧ 1 ≤ order (w_subgraph w)
  ∧ size (w_subgraph w) ≤ k
  ∧ Subgraph_bool (w_subgraph w) = (0 <? Walkable_len w)%Z.
Proof.
  intros Hinit Hlen.
  destruct (Walkable_init_sequence _ _ Hinit) as [Hseq _].
  destruct (slice_step2_lengths k sequence Hlen) as [Hn Hr].
  pose proof (Walkable_len_odd w k) as Hk. rewrite Hseq in Hk. specialize (Hk Hlen).
  unfold Walkable_nodes, Walkable_relationships. rewrite Hseq, Hk.
  split; [done |]. split; [done |]. split; [done |].
  rewrite (Walkable_init_subgraph _ _ Hinit).
  unfold order, size, Subgraph_bool. simpl.
  split; [| split].
  - destruct (union _ _) as [| y l] eqn:Hu; [| simpl; lia].
    unfold union, set_union in Hu. apply set_update_nil_inv in Hu.
    apply (set_of_nil_inv py_hash item_eq) in Hu. rewrite Hu in Hn. done.
  - pose proof (set_update_length_le py_hash item_eq (slice_step2 1 sequence) []) as Hle.
    unfold frozenset, set_of. simpl in Hle. lia.
  - destruct (frozenset (slice_step2 1 sequence)) as [| y l] eqn:Hf.
    + apply (set_of_nil_inv py_hash item_eq) in Hf. rewrite Hf in Hr.
      simpl in Hr. subst k. done.
    + destruct k as [| k]; [| done].
      destruct (slice_step2 1 sequence); [done | done].
Qed.

Lemma walk_attach_result running_end q entities running_end' :
  walk_attach running_end q = Ok (entities, running_end') →
  last entities = Some running_end'
  ∧ length entities = length (w_sequence q).
Proof.
  unfold walk_attach, start_node, end_node, Walkable_walk.
  rewrite py_index_first, py_index_last.
  destruct (head (w_sequence q)) as [s |] eqn:Hs; [| done].
  destruct (last (w_sequence q)) as [e |] eqn:He; [| by simpl; destruct (py_eq _ _)].
  simpl. destruct (py_eq running_end s).
  { intros [= <- <-]. done. }
  destruct (py_eq running_end e); [| done].
  intros [= <- <-]. split; [| by rewrite length_rev].
  rewrite rev_alt. change (rev_append (w_sequence q) []) with (reverse (w_sequence q)).
  rewrite last_reverse. done.
Qed.

(** X10: [p + None] is [p]; [p + q] is the walkable of [p]'s sequence
    followed by [q]'s without its first entity, forward when the end node
    of [p] equals the start node of [q], reversed when it equals only the
    end node of [q]; it starts where [p] starts, its length is the sum of
    the two lengths, and it fails with ValueError when [q] meets the end of
    [p] at neither end. *)
Theorem X10_concatenation p q (e s e' : Entity Graph) :
  last (w_sequence p) = Some e →
  head (w_sequence q) = Some s → last (w_sequence q) = Some e' →
  Walkable_add p None = Ok p
  ∧ (py_eq e s = true →
     ∃ w, Walkable_add p (Some q) = Ok w
          ∧ w_sequence w = w_sequence p ++ tail (w_sequence q))
  ∧ (py_eq e s = false → py_eq e e' = true →
     ∃ w, Walkable_add p (Some q) = Ok w
          ∧ w_sequence w = w_sequence p ++ tail (rev (w_sequence q)))
  ∧ (py_eq e s = false → py_eq e e' = false →
     Walkable_add p (Some q) = Raise ValueError)
  ∧ (∀ w, Walkable_add p (Some q) = Ok w →
          start_node w = start_node p
          ∧ (length (w_sequence w) + 1 = length (w_sequence p) + length (w_sequence q))%nat
          ∧ ∀ a b : nat, length (w_sequence p) = (2 * a + 1)%nat →
                         length (w_sequence q) = (2 * b + 1)%nat →
                         Walkable_len w = (Walkable_len p + Walkable_len q)%Z).
Proof.
  intros He Hs He'.
  assert (∃ x l, w_sequence p = x :: l) as (x & l & Hp).
  { destruct (w_sequence p) as [| x l]; [done | by exists x, l]. }
  assert (walk [p; q]
          = if py_eq e s then mkWalk (w_sequence p ++ tail (w_sequence q) ++ []) None
            else if py_eq e e'
                 then mkWalk (w_sequence p ++ tail (rev (w_sequence q)) ++ []) None
                 else mkWalk (w_sequence p ++ []) (Some ValueError)) as Hwalk.
  { unfold walk, end_node, Walkable_walk. rewrite py_index_last, He. simpl.
    rewrite (walk_attach_nonempty e q s e' Hs He').
    destruct (py_eq e s); [by rewrite yield_after_first_tail |].
    destruct (py_eq e e'); [by rewrite yield_after_first_tail | done]. }
  assert (∀ rest, ∃ w, Walkable_init (w_sequence p ++ rest) = Ok w
                       ∧ w_sequence w = w_sequence p ++ rest) as Hbuilt.
  { intros rest. rewrite Hp. simpl.
    destruct (Walkable_init_cons x (l ++ rest)) as [sg ->]. by eexists. }
  split; [done |].
  split.
  { intros Heq. unfold Walkable_add. rewrite Hwalk, Heq. unfold collect. simpl.
    rewrite app_nil_r. apply Hbuilt. }
  split.
  { intros Hne Heq. unfold Walkable_add. rewrite Hwalk, Hne, Heq. unfold collect. simpl.
    rewrite app_nil_r. apply Hbuilt. }
  split.
  { intros Hne Hne'. unfold Walkable_add. by rewrite Hwalk, Hne, Hne'. }
  intros w. unfold Walkable_add. rewrite Hwalk.
  assert (length (tail (w_sequence q)) + 1 = length (w_sequence q))%nat as Htail.
  { destruct (w_sequence q); [done | simpl; lia]. }
  assert (length (tail (rev (w_sequence q))) + 1 = length (w_sequence q))%nat as Hrev.
  { rewrite <- (length_rev (w_sequence q)).
    destruct (rev (w_sequence q)) eqn:Hr; [| simpl; lia].
    apply (f_equal (@length _)) in Hr. rewrite length_rev in Hr.
    destruct (w_sequence q); done. }
  assert (∀ rest, (length rest + 1 = length (w_sequence q))%nat →
            Walkable_init (w_sequence p ++ rest) = Ok w →
            start_node w = start_node p
            ∧ (length (w_sequence w) + 1
               = length (w_sequence p) + length (w_sequence q))%nat
            ∧ ∀ a b : nat, length (w_sequence p) = (2 * a + 1)%nat →
                           length (w_sequence q) = (2 * b + 1)%nat →
                           Walkable_len w = (Walkable_len p + Walkable_len q)%Z) as Hfacts.
  { intros rest Hrest Hinit.
    destruct (Walkable_init_sequence _ _ Hinit) as [Hseq _].
    split.
    { unfold start_node. rewrite !py_index_first, Hseq, Hp. done. }
    split.
    { rewrite Hseq, length_app. lia. }
    intros a b Ha Hb.
    rewrite (Walkable_len_odd p a Ha), (Walkable_len_odd q b Hb).
    rewrite (Walkable_len_odd w (a + b)); [lia |].
    rewrite Hseq, length_app. lia. }
  destruct (py_eq e s).
  { unfold collect. simpl. rewrite app_nil_r. by apply Hfacts. }
  destruct (py_eq e e'); [| done].
  unfold collect. simpl. rewrite app_nil_r. by apply Hfacts.
Qed.

(** X11: walking [p + q] and then further walkables is walking [p], [q]
    and then those walkables, when [q] has more than one entity. *)
Theorem X11_walk_regroups p q pq (rest : list (Walkable Graph)) :
  Walkable_add p (Some q) = Ok pq →
  2 ≤ length (w_sequence q) →
  walk (pq :: rest) = walk (p :: q :: rest).
Proof.
  unfold Walkable_add. intros Hadd Hq.
  destruct (collect (walk [p; q])) as [entities |] eqn:Hcollect; [| done].
  simpl in Hadd. destruct (Walkable_init_sequence _ _ Hadd) as [Hseq _].
  unfold walk in Hcollect |- *. unfold Walkable_walk in *.
  destruct (end_node p) as [e |]; [| done].
  simpl in Hcollect |- *.
  destruct (walk_attach e q) as [[ents e'] |] eqn:Hattach; [| done].
  destruct (walk_attach_result _ _ _ _ Hattach) as [Hlast Hlen].
  unfold collect in Hcollect. simpl in Hcollect. injection Hcollect as <-.
  rewrite app_nil_r in Hseq.
  assert (end_node pq = Ok e') as ->.
  { unfold end_node. rewrite py_index_last, Hseq, yield_after_first_tail.
    destruct ents as [| a [| b ents]]; simpl in Hlen; try lia.
    assert (last (b :: ents) = Some e') as Hb by exact Hlast.
    simpl tail. by rewrite last_app, Hb. }
  rewrite Hseq. simpl. by rewrite <- !app_assoc.
Qed.
End CompositionFacts.

(** ** Tables *)

Lemma py_range_length (start stop : Z) :
  length (py_range start stop) = Z.to_nat (stop - start).
Proof. unfold py_range. by rewrite length_map, length_seq. Qed.

Lemma py_range_lookup (start stop : Z) (j : nat) :
  py_range start stop !! j
  = if decide (j < Z.to_nat (stop - start)) then Some (start + Z.of_nat j)%Z else None.
Proof.
  unfold py_range. rewrite list_lookup_fmap.
  destruct (decide (j < Z.to_nat (stop - start))) as [Hj | Hj].
  - by rewrite lookup_seq_lt.
  - by rewrite lookup_seq_ge by lia.
Qed.

Lemma Table_range_shape (self : Table) (skip limit : option Z) :
  let len := Z.of_nat (length (t_records self)) in
  let first := default 0%Z skip in
  ∃ stop,
    Table_range self skip limit = py_range first stop
    ∧ (stop - first)%Z
      = match limit with
        | None => (len - first)%Z
        | Some limit => Z.min limit (len - first)
        end.
Proof.
  intros len first. unfold Table_range. fold len.
  change (match skip with Some skip => skip | None => 0%Z end) with first.
  destruct limit as [limit |]; [destruct (Z.ltb_spec len (first + limit)) |];
    eexists; (split; [reflexivity |]); lia.
Qed.

Lemma Table_range_valid (self : Table) (skip limit : option Z) :
  (0 <= default 0 skip)%Z →
  Forall (fun i => (0 <= i < Z.of_nat (length (t_records self)))%Z)
         (Table_range self skip limit).
Proof.
  intros Hfirst.
  destruct (Table_range_shape self skip limit) as (stop & -> & Hstop).
  apply Forall_forall. intros i (j & Hj)%list_elem_of_lookup.
  rewrite py_range_lookup in Hj.
  destruct (decide (j < Z.to_nat (stop - default 0%Z skip))); [| done].
  injection Hj as <-. destruct limit; lia.
Qed.

(** X12: the rows selected by [skip] and [limit] are consecutive from
    [skip], as many as [limit] allows and the table has left; when [skip]
    is not negative each of them is the position of a record. *)
Theorem X12_range (self : Table) (skip limit : option Z) :
  let len := Z.of_nat (length (t_records self)) in
  let first := default 0%Z skip in
  let count :=
    Z.to_nat (match limit with
              | None => len - first
              | Some limit => Z.min limit (len - first)
              end) in
  length (Table_range self skip limit) = count
  ∧ (∀ j : nat, j < count →
       Table_range self skip limit !! j = Some (first + Z.of_nat j)%Z)
  ∧ ((0 <= first)%Z →
     Forall (fun i => (0 <= i < len)%Z) (Table_range self skip limit)).
Proof.
  intros len first count.
  split; [| split]; [| | apply Table_range_valid].
  - destruct (Table_range_shape self skip limit) as (stop & -> & Hstop).
    rewrite py_range_length. subst count. by rewrite Hstop.
  - destruct (Table_range_shape self skip limit) as (stop & -> & Hstop).
    intros j Hj. rewrite py_range_lookup.
    rewrite decide_True; [done |]. subst count. by rewrite Hstop.
Qed.

Lemma list_index_None key keys : list_index key keys = None ↔ key ∉ keys.
Proof.
  induction keys as [| k keys IH]; simpl.
  - split; [intros _ []%elem_of_nil | done].
  - destruct (decide (k = key)) as [-> | Hne].
    + split; [done | intros []; by left].
    + destruct (list_index key keys) as [i |] eqn:Hi; simpl.
      * split; [done |]. intros Hnot. exfalso.
        assert (key ∉ keys) as Hk by (intros Hk; apply Hnot; by right).
        by apply IH in Hk.
      * split; [| done]. intros _ [Heq | Hin]%elem_of_cons; [congruence |].
        by apply IH in Hin.
Qed.

Lemma list_index_Some key keys (i : nat) :
  list_index key keys = Some i ↔ keys !! i = Some key ∧ key ∉ take i keys.
Proof.
  revert i. induction keys as [| k keys IH]; intros i; simpl.
  - split; [done | by intros [? _]].
  - destruct (decide (k = key)) as [-> | Hne].
    + split.
      * intros [= <-]. split; [done |]. simpl. by intros []%elem_of_nil.
      * destruct i as [| i]; [done |]. simpl. intros [_ []]. by left.
    + destruct i as [| i].
      * split; [by destruct (list_index key keys) | simpl; intros [[= ?] _]; done].
      * specialize (IH i). simpl.
        destruct (list_index key keys) as [j |]; simpl.
        -- split.
           ++ intros [= ->]. destruct IH as [IH _].
              destruct (IH eq_refl) as [Hat Hnot]. split; [done |].
              intros [? | ?]%elem_of_cons; [congruence | done].
           ++ intros [Hat Hnot]. destruct IH as [_ IH].
              enough (Some j = Some i) as [= ->] by done. apply IH.
              split; [done |]. intros Hin. apply Hnot. by right.
        -- split; [done |]. intros [Hat Hnot]. destruct IH as [_ IH].
           enough (None = Some i) by done.
           apply IH. split; [done |]. intros Hin. apply Hnot. by right.
Qed.

(** X13: looking a field up.  A name that is not a key gives [KeyError]
    and nothing else does; a name that is a key gives the field at the
    position of its first occurrence; an integer is a position, counted
    from the end when negative, and gives [IndexError] out of range; a
    bool is taken as the integer it is, [False] as 0 and [True] as 1;
    [None] and a value of any other class give [TypeError]. *)
Theorem X13_field (self : Table) :
  length (t_fields self) = length (t_keys self) →
  let len := Z.of_nat (length (t_fields self)) in
  (∀ name, name ∉ t_keys self
           ↔ (Table_field self (VStr name) = inl (KeyError name)))
  ∧ (∀ name, name ∈ t_keys self →
       ∃ (i : nat) field,
         t_keys self !! i = Some name ∧ (name ∉ take i (t_keys self))
         ∧ t_fields self !! i = Some field
         ∧ Table_field self (VStr name) = inr field
         ∧ Table_field self (VInt (Z.of_nat i)) = inr field)
  ∧ (∀ (i : nat) field, t_fields self !! i = Some field →
       Table_field self (VInt (Z.of_nat i)) = inr field
       ∧ Table_field self (VInt (Z.of_nat i - len)) = inr field)
  ∧ (∀ position, (position < - len ∨ len <= position)%Z →
       Table_field self (VInt position) = inl (Builtin IndexError))
  ∧ Table_field self (VBool false) = Table_field self (VInt 0)
  ∧ Table_field self (VBool true) = Table_field self (VInt 1)
  ∧ (∀ key, (∀ name, Table_field self key ≠ inl (KeyError name))
            ∨ ∃ name, key = VStr name)
  ∧ Table_field self VNone = inl (Builtin TypeError)
  ∧ ∀ class_name text,
      Table_field self (VOther class_name text) = inl (Builtin TypeError).
Proof.
  intros Hlen len. unfold Table_field.
  assert (∀ (i : nat) field, t_fields self !! i = Some field →
            py_index (t_fields self) (Z.of_nat i) = Ok field) as Hnat.
  { intros i field Hi. rewrite py_index_natural by lia.
    by rewrite Nat2Z.id, Hi. }
  split; [| split; [| split; [| split; [| split; [| split; [| split; [| split]]]]]]].
  - intros name. simpl. split.
    + intros Hnot%list_index_None. by rewrite Hnot.
    + destruct (list_index name (t_keys self)) as [i |] eqn:Hi.
      * by destruct (py_index _ _).
      * intros _. by apply list_index_None.
  - intros name Hin.
    destruct (list_index name (t_keys self)) as [i |] eqn:Hi;
      [| by apply list_index_None in Hi].
    pose proof Hi as [Hat Hfirst]%list_index_Some.
    assert (i < length (t_fields self)) as Hi'.
    { rewrite Hlen. by eapply lookup_lt_Some. }
    apply lookup_lt_is_Some in Hi' as [field Hfield].
    exists i, field. simpl. rewrite Hi, (Hnat _ _ Hfield). done.
  - intros i field Hi. simpl. rewrite (Hnat _ _ Hi). split; [done |].
    pose proof (lookup_lt_Some _ _ _ Hi) as Hlt.
    rewrite py_index_negative by (subst len; lia).
    replace (Z.of_nat i - len + Z.of_nat (length (t_fields self)))%Z
      with (Z.of_nat i) by (subst len; lia).
    destruct (Z.ltb_spec (Z.of_nat i) 0); [lia |].
    by rewrite Nat2Z.id, Hi.
  - intros position Hout. simpl.
    destruct (Z.lt_ge_cases position 0) as [Hneg | Hpos].
    + rewrite py_index_negative by done. fold len.
      destruct (Z.ltb_spec (position + len) 0) as [| Hge]; [done |].
      destruct Hout as [? | ?]; lia.
    + rewrite py_index_natural by done.
      rewrite lookup_ge_None_2; [done |]. subst len. lia.
  - done.
  - done.
  - intros [| b | z | name | class_name text]; try (left; intros name; simpl; discriminate).
    + left. intros name. simpl. by destruct (py_index _ _).
    + left. intros name. simpl. by destruct (py_index _ _).
    + right. by exists name.
  - done.
  - done.
Qed.

(** *** Writing separated values *)

Section SeparatedFacts.
Variable cypher_repr : PyValue → string.
Variables (separator newline quote : string).

#[local] Abbreviation line := (write_line cypher_repr separator newline quote).

Lemma write_rows_valid (self : Table) (header : bool) (count : nat) (indices : list Z) :
  Forall (fun i => (0 <= i < Z.of_nat (length (t_records self)))%Z) indices →
  ∃ records,
    Forall2 (fun i record => t_records self !! Z.to_nat i = Some record) indices records
    ∧ write_rows cypher_repr separator newline quote self header count indices
      = ((if bool_decide (count = 0 ∧ indices ≠ []) && header
          then line (map VStr (Table_keys self)) else [])
         ++ flat_map line records,
         Ok (count + length indices)).
Proof.
  revert count. induction indices as [| index later IH]; intros count Hvalid.
  - exists []. split; [constructor |]. simpl.
    rewrite bool_decide_eq_false_2 by (intros [_ ?]; done).
    simpl. by rewrite Nat.add_0_r.
  - apply Forall_cons in Hvalid as [Hindex Hlater].
    destruct (IH (S count) Hlater) as (records & Hrecords & Hwritten).
    assert (Z.to_nat index < length (t_records self)) as Hlt by lia.
    apply lookup_lt_is_Some in Hlt as [record Hrecord].
    exists (record :: records). split; [by constructor |].
    simpl. rewrite py_index_natural, Hrecord by lia.
    rewrite Hwritten.
    rewrite (bool_decide_eq_false_2 (S count = 0 ∧ _)) by (intros [? _]; done).
    simpl. f_equal; [| f_equal; lia].
    destruct count as [| count].
    + rewrite bool_decide_eq_true_2 by done. simpl. by destruct header.
    + by rewrite bool_decide_eq_false_2 by (intros [? _]; done).
Qed.

(** X14: writing the rows selected by a [skip] that is not negative
    succeeds, sends the heading (when asked for, and only if a row is
    selected) followed by the line of each selected record in order, and
    returns the number of these records. *)
Theorem X14_rows_written (self : Table) (header : bool) (skip limit : option Z) :
  (0 <= default 0 skip)%Z →
  let rows := Table_range self skip limit in
  ∃ records,
    Forall2 (fun i record => t_records self !! Z.to_nat i = Some record) rows records
    ∧ write_separated_values cypher_repr separator newline quote self header skip limit
      = ((if bool_decide (rows ≠ []) && header
          then line (map VStr (Table_keys self)) else [])
         ++ flat_map line records,
         Ok (length rows)).
Proof.
  intros Hskip rows.
  destruct (write_rows_valid self header 0 rows (Table_range_valid self skip limit Hskip))
    as (records & Hrecords & Hwritten).
  exists records. split; [done |].
  unfold write_separated_values. fold rows. rewrite Hwritten. simpl.
  rewrite (bool_decide_ext (0 = 0 ∧ rows ≠ []) (rows ≠ [])) by intuition.
  done.
Qed.
End SeparatedFacts.

Lemma append_char_inj (a b : string) (c : ascii) :
  a +:+ String c EmptyString = b +:+ String c EmptyString → a = b.
Proof.
  revert b. induction a as [| x a IH]; intros [| y b]; rewrite ?append_cons.
  - done.
  - intros [= -> H]. by destruct b.
  - intros [= -> H]. by destruct a.
  - intros [= -> H]. f_equal. by apply IH.
Qed.

Lemma char_in_append (c : ascii) (a b : string) :
  char_in c (a +:+ b) = char_in c a || char_in c b.
Proof. unfold char_in. by rewrite chars_append, existsb_app. Qed.

Lemma char_in_head (c : ascii) (s : string) : char_in c (String c s) = true.
Proof. unfold char_in. simpl. by rewrite bool_decide_eq_true_2. Qed.

Section QuotingFacts.
Variable cypher_repr : PyValue → string.
Variables (separator newline : string) (q : ascii).

#[local] Abbreviation quote := (String q EmptyString).
#[local] Abbreviation doubled :=
  (expand (fun c => if decide (c = q) then quote +:+ quote else String c EmptyString)).

Lemma doubled_inj (s t : string) : doubled s = doubled t → s = t.
Proof.
  revert t. induction s as [| c s IH]; intros [| c' t]; simpl.
  - done.
  - by destruct (decide (c' = q)).
  - by destruct (decide (c = q)).
  - destruct (decide (c = q)) as [-> | Hc], (decide (c' = q)) as [-> | Hc'];
      rewrite !append_cons.
    + intros [= H]. f_equal. by apply IH.
    + intros [= <- _]. done.
    + intros [= -> _]. done.
    + intros [= -> H]. f_equal. by apply IH.
Qed.

Lemma any_quotable (quotable value : string) :
  existsb (fun ch => char_in ch value) (chars quotable)
  = negb (forallb (fun c => negb (char_in c quotable)) (chars value)).
Proof.
  apply eq_true_iff_eq. rewrite negb_true_iff, <- not_true_iff_false.
  rewrite existsb_exists, forallb_forall. split.
  - intros (ch & Hin & Hch) Hall.
    unfold char_in in Hch. apply existsb_exists in Hch as (c & Hc & Heq).
    apply bool_decide_eq_true in Heq as ->.
    specialize (Hall _ Hc). apply negb_true_iff in Hall.
    unfold char_in in Hall. rewrite <- not_true_iff_false in Hall. apply Hall.
    apply existsb_exists. exists ch. split; [done | by apply bool_decide_eq_true].
  - intros Hnot.
    destruct (existsb (fun c => char_in c quotable) (chars value)) eqn:Hex.
    + apply existsb_exists in Hex as (c & Hc & Hin).
      unfold char_in in Hin. apply existsb_exists in Hin as (ch & Hch & Heq).
      apply bool_decide_eq_true in Heq as ->.
      exists c. split; [done |]. unfold char_in. apply existsb_exists.
      exists c. split; [done | by apply bool_decide_eq_true].
    + exfalso. apply Hnot. intros c Hc. apply negb_true_iff.
      rewrite <- not_true_iff_false. intros Hin.
      rewrite <- not_true_iff_false in Hex. apply Hex.
      apply existsb_exists. by exists c.
Qed.

(** X15: how a value is written when the quote is one character.  [None]
    is not written at all; a string with no character of the separator,
    of the newline or the quote is written as it is; any other string is
    written between quotes with each of its quotes doubled; no two
    strings are written alike. *)
Theorem X15_quoting :
  let write := write_value cypher_repr separator newline quote in
  let clean value :=
    forallb (fun c => negb (char_in c (separator +:+ newline +:+ quote))) (chars value) in
  write VNone = []
  ∧ (∀ value, clean value = true → write (VStr value) = [value])
  ∧ (∀ value, clean value = false →
       write (VStr value) = [quote +:+ doubled value +:+ quote])
  ∧ (∀ value other, write (VStr value) = write (VStr other) → value = other).
Proof.
  intros write clean.
  assert (∀ value, write (VStr value)
                   = [if clean value then value
                      else quote +:+ doubled value +:+ quote]) as Hwrite.
  { intros value. unfold write, write_value, quotable, escaped_quote, clean.
    rewrite any_quotable, str_replace_char.
    by destruct (forallb _ (chars value)). }
  assert (∀ rest, clean (String q rest) = false) as Hquote.
  { intros rest. apply not_true_iff_false. intros Hclean.
    unfold clean in Hclean. simpl in Hclean.
    apply andb_true_iff in Hclean as [Hclean _].
    apply negb_true_iff in Hclean.
    by rewrite !char_in_append, char_in_head, !orb_true_r in Hclean. }
  split; [done |]. split; [| split].
  - intros value Hclean. by rewrite Hwrite, Hclean.
  - intros value Hclean. by rewrite Hwrite, Hclean.
  - intros value other. rewrite !Hwrite.
    destruct (clean value) eqn:Hv, (clean other) eqn:Ho.
    + by intros [= ->].
    + intros [= ->]. rewrite append_cons in Hv. by rewrite Hquote in Hv.
    + intros [= <-]. rewrite append_cons in Ho. by rewrite Hquote in Ho.
    + rewrite !append_cons. intros [= H%append_char_inj]. by apply doubled_inj.
Qed.
End QuotingFacts.

(** *** Building a table *)

Lemma type_add_elem (types : list PyType) (t ty : PyType) :
  ty ∈ type_add types t ↔ ty ∈ types ∨ ty = t.
Proof.
  unfold type_add. destruct (decide (t ∈ types)) as [Hin | Hnot].
  - split; [by left | intros [? | ->]; done].
  - rewrite elem_of_app, list_elem_of_singleton. done.
Qed.

Lemma type_add_NoDup (types : list PyType) (t : PyType) :
  NoDup types → NoDup (type_add types t).
Proof.
  intros Hnd. unfold type_add. destruct (decide (t ∈ types)) as [Hin | Hnot]; [done |].
  apply NoDup_app. split; [done |]. split; [| apply NoDup_singleton].
  intros x Hx ->%list_elem_of_singleton. done.
Qed.

Lemma note_value_spec (t : list (list PyType)) (o : list bool) (i : nat) (v : PyValue) :
  length t = length o →
  if decide (i < length t)
  then ∃ t' o',
         note_value (t, o) i v = Ok (t', o')
         ∧ length t' = length t ∧ length o' = length o
         ∧ (∀ k, o' !! k = Some true ↔ o !! k = Some true ∨ (k = i ∧ v = VNone))
         ∧ (∀ k ty, (∃ ts, t' !! k = Some ts ∧ ty ∈ ts)
                    ↔ (∃ ts, t !! k = Some ts ∧ ty ∈ ts)
                      ∨ (k = i ∧ v ≠ VNone ∧ type_of v = ty))
         ∧ (Forall NoDup t → Forall NoDup t')
  else note_value (t, o) i v = Raise IndexError.
Proof.
  intros Hlen.
  destruct (decide (v = VNone)) as [-> | Hv].
  - simpl. rewrite <- Hlen. destruct (decide (i < length t)) as [Hi | Hi]; [| done].
    exists t, (<[i := true]> o). split; [done |]. split; [done |].
    split; [by rewrite length_insert |]. split; [| split; [| done]].
    + intros k. destruct (decide (k = i)) as [-> | Hk].
      * rewrite list_lookup_insert_eq by lia. intuition.
      * rewrite list_lookup_insert_ne by done. intuition.
    + intros k ty. intuition.
  - assert (note_value (t, o) i v
            = match t !! i with
              | Some types => Ok (<[i := type_add types (type_of v)]> t, o)
              | None => Raise IndexError
              end) as -> by (by destruct v).
    destruct (decide (i < length t)) as [Hi | Hi].
    + destruct (lookup_lt_is_Some_2 t i Hi) as [types Htypes]. rewrite Htypes.
      eexists _, o. split; [done |]. split; [by rewrite length_insert |].
      split; [done |]. split; [| split].
      * intros k. intuition.
      * intros k ty. destruct (decide (k = i)) as [-> | Hk].
        -- rewrite list_lookup_insert_eq by lia. split.
           ++ intros (ts & [= <-] & [Hin | ->]%type_add_elem).
              ** left. by exists types.
              ** by right.
           ++ intros [(ts & Hts & Hin) | (_ & _ & <-)].
              ** exists (type_add types (type_of v)). split; [done |].
                 apply type_add_elem. left. congruence.
              ** exists (type_add types (type_of v)). split; [done |].
                 apply type_add_elem. by right.
        -- rewrite list_lookup_insert_ne by done. intuition.
      * intros Hnd. apply Forall_insert; [done |].
        apply type_add_NoDup. by eapply Forall_lookup_1.
    + by rewrite lookup_ge_None_2 by lia.
Qed.

Lemma note_values_ok (vs : list PyValue) :
  ∀ (j : nat) (t : list (list PyType)) (o : list bool),
    length t = length o →
    j + length vs ≤ length t →
    ∃ t' o',
      note_values (t, o) (combine (seq j (length vs)) vs) = Ok (t', o')
      ∧ length t' = length t ∧ length o' = length o
      ∧ (∀ k, o' !! k = Some true
              ↔ o !! k = Some true ∨ (j ≤ k ∧ vs !! (k - j) = Some VNone))
      ∧ (∀ k ty, (∃ ts, t' !! k = Some ts ∧ ty ∈ ts)
                 ↔ (∃ ts, t !! k = Some ts ∧ ty ∈ ts)
                   ∨ (j ≤ k ∧ ∃ v, vs !! (k - j) = Some v ∧ v ≠ VNone ∧ type_of v = ty))
      ∧ (Forall NoDup t → Forall NoDup t').
Proof.
  induction vs as [| v vs IH]; intros j t o Hlen Hfit.
  - exists t, o. simpl. split; [done |]. split; [done |]. split; [done |].
    split; [| split; [| done]].
    + intros k. rewrite lookup_nil. intuition congruence.
    + intros k ty. rewrite lookup_nil. split; [by left |].
      intros [? | (_ & v & ? & _)]; done.
  - simpl in Hfit. pose proof (note_value_spec t o j v Hlen) as Hstep.
    rewrite decide_True in Hstep by lia.
    destruct Hstep as (t1 & o1 & Hnote & Ht1 & Ho1 & Hopt1 & Htypes1 & Hnd1).
    destruct (IH (S j) t1 o1) as (t' & o' & Hrest & Ht' & Ho' & Hopt & Htypes & Hnd);
      [congruence | lia |].
    exists t', o'. cbn [length seq combine note_values]. rewrite Hnote.
    split; [exact Hrest |]. split; [congruence |]. split; [congruence |].
    split; [| split; [| by auto]].
    + intros k. rewrite Hopt, Hopt1. split.
      * intros [[? | [-> ->]] | [Hk Hat]].
        -- by left.
        -- right. split; [lia |]. by rewrite Nat.sub_diag.
        -- right. split; [lia |]. by replace (k - j) with (S (k - S j)) by lia.
      * intros [? | [Hk Hat]]; [by left; left |].
        destruct (decide (k = j)) as [-> | Hne].
        -- rewrite Nat.sub_diag in Hat. injection Hat as ->. left. by right.
        -- right. split; [lia |].
           by replace (k - j) with (S (k - S j)) in Hat by lia.
    + intros k ty. rewrite Htypes, Htypes1. split.
      * intros [[? | (-> & Hv & Hty)] | (Hk & w & Hat & Hw)].
        -- by left.
        -- right. split; [lia |]. exists v. by rewrite Nat.sub_diag.
        -- right. split; [lia |]. exists w.
           by replace (k - j) with (S (k - S j)) by lia.
      * intros [? | (Hk & w & Hat & Hw)]; [by left; left |].
        destruct (decide (k = j)) as [-> | Hne].
        -- rewrite Nat.sub_diag in Hat. injection Hat as ->. left. by right.
        -- right. split; [lia |]. exists w.
           by replace (k - j) with (S (k - S j)) in Hat by lia.
Qed.

Lemma note_values_long (vs : list PyValue) :
  ∀ (j : nat) (t : list (list PyType)) (o : list bool),
    length t = length o →
    j ≤ length t < j + length vs →
    note_values (t, o) (combine (seq j (length vs)) vs) = Raise IndexError.
Proof.
  induction vs as [| v vs IH]; intros j t o Hlen Hlong;
    cbn [length seq combine note_values] in *; [lia |].
  pose proof (note_value_spec t o j v Hlen) as Hstep.
  destruct (decide (j < length t)) as [Hj | Hj].
  - destruct Hstep as (t1 & o1 & -> & Ht1 & Ho1 & _).
    apply (IH (S j) t1 o1); [congruence | lia].
  - by rewrite Hstep.
Qed.

Lemma note_records_spec (records : list (list PyValue)) :
  ∀ (t : list (list PyType)) (o : list bool),
    length t = length o →
    if decide (Forall (fun record => length record ≤ length t) records)
    then ∃ t' o',
           note_records (t, o) records = Ok (t', o')
           ∧ length t' = length t ∧ length o' = length o
           ∧ (∀ k, o' !! k = Some true
                   ↔ o !! k = Some true
                     ∨ ∃ record, record ∈ records ∧ record !! k = Some VNone)
           ∧ (∀ k ty, (∃ ts, t' !! k = Some ts ∧ ty ∈ ts)
                      ↔ (∃ ts, t !! k = Some ts ∧ ty ∈ ts)
                        ∨ ∃ record v, record ∈ records ∧ record !! k = Some v
                                      ∧ v ≠ VNone ∧ type_of v = ty)
           ∧ (Forall NoDup t → Forall NoDup t')
    else note_records (t, o) records = Raise IndexError.
Proof.
  induction records as [| record records IH]; intros t o Hlen.
  - rewrite decide_True by constructor.
    exists t, o. split; [done |]. split; [done |]. split; [done |].
    split; [| split; [| done]].
    + intros k. split; [by left |]. intros [? | (? & []%elem_of_nil & _)]. done.
    + intros k ty. split; [by left |].
      intros [? | (? & ? & []%elem_of_nil & _)]. done.
  - cbn [note_records]. unfold enumerate.
    destruct (decide (length record ≤ length t)) as [Hfit | Hlong].
    + destruct (note_values_ok record 0 t o Hlen)
        as (t1 & o1 & -> & Ht1 & Ho1 & Hopt1 & Htypes1 & Hnd1); [lia |].
      cbn [bind]. specialize (IH t1 o1). rewrite Ht1 in IH.
      destruct (decide (Forall (fun record => length record ≤ length t) records))
        as [Hall | Hnot].
      * rewrite decide_True by (by constructor).
        destruct IH as (t' & o' & -> & Ht' & Ho' & Hopt & Htypes & Hnd); [congruence |].
        exists t', o'. split; [done |]. split; [done |]. split; [congruence |].
        split; [| split; [| by auto]].
        -- intros k. rewrite Hopt, Hopt1. rewrite Nat.sub_0_r. split.
           ++ intros [[? | [_ Hat]] | (r & Hr & Hat)].
              ** by left.
              ** right. exists record. split; [by left | done].
              ** right. exists r. split; [by right | done].
           ++ intros [? | (r & [-> | Hr]%elem_of_cons & Hat)].
              ** by left; left.
              ** left. right. split; [lia | done].
              ** right. by exists r.
        -- intros k ty. rewrite Htypes, Htypes1. rewrite Nat.sub_0_r. split.
           ++ intros [[? | (_ & v & Hat & Hv)] | (r & v & Hr & Hat)].
              ** by left.
              ** right. exists record, v. split; [by left | done].
              ** right. exists r, v. split; [by right | done].
           ++ intros [? | (r & v & [-> | Hr]%elem_of_cons & Hat)].
              ** by left; left.
              ** left. right. split; [lia |]. by exists v.
              ** right. by exists r, v.
      * rewrite decide_False by (intros [_ ?]%Forall_cons; done).
        apply IH. congruence.
    + rewrite decide_False by (intros [? _]%Forall_cons; done).
      rewrite note_values_long; [done | done | lia].
Qed.

Lemma NoDup_all_same {A} (l : list A) (x : A) :
  NoDup l → l ≠ [] → (∀ y, y ∈ l → y = x) → l = [x].
Proof.
  intros Hnd Hne Hall. destruct l as [| a [| b l]]; [done | |].
  - f_equal. apply Hall. by left.
  - exfalso. apply NoDup_cons in Hnd as [Hnot _]. apply Hnot.
    rewrite (Hall a) by (by left).
    rewrite <- (Hall b) by (right; by left). by left.
Qed.

Section TableFacts.
Variable numeric_types : list PyType.

Lemma Table_init_columns (records : list (list PyValue)) (k : list string) :
  if decide (Forall (fun record => length record ≤ length k) records)
  then ∃ t o,
         note_records (replicate (length k) [], replicate (length k) false) records
         = Ok (t, o)
         ∧ length t = length k ∧ length o = length k
         ∧ (∀ i, o !! i = Some true
                 ↔ ∃ record, record ∈ records ∧ record !! i = Some VNone)
         ∧ (∀ i ty, (∃ ts, t !! i = Some ts ∧ ty ∈ ts)
                    ↔ ∃ record v, record ∈ records ∧ record !! i = Some v
                                  ∧ v ≠ VNone ∧ type_of v = ty)
         ∧ Forall NoDup t
  else note_records (replicate (length k) [], replicate (length k) false) records
       = Raise IndexError.
Proof.
  pose proof (note_records_spec records (replicate (length k) [])
                (replicate (length k) false)) as Hspec.
  rewrite !length_replicate in Hspec. specialize (Hspec eq_refl).
  destruct (decide (Forall _ records)); [| done].
  destruct Hspec as (t & o & Hnote & Ht & Ho & Hopt & Htypes & Hnd).
  exists t, o. split; [done |]. split; [done |]. split; [done |].
  split; [| split].
  - intros i. rewrite Hopt. split; [| by right].
    intros [[[=] _]%lookup_replicate | ?]; done.
  - intros i ty. rewrite Htypes. split; [| by right].
    intros [(ts & [-> _]%lookup_replicate & []%elem_of_nil) | ?]; done.
  - apply Hnd. apply Forall_replicate. constructor.
Qed.

(** X16: building a table.  Without keys of either kind it is
    [ValueError]; with keys it succeeds exactly when no record has more
    values than there are keys, and is [IndexError] otherwise; the table
    built holds the records and the keys given and one field for each
    key. *)
Theorem X16_table_init (records : list (list PyValue))
    (records_keys keys : option (list string)) :
  match (match keys with Some k => Some k | None => records_keys end) with
  | None => Table_init numeric_types records records_keys keys = Raise ValueError
  | Some k =>
      if decide (Forall (fun record => length record ≤ length k) records)
      then ∃ table,
             Table_init numeric_types records records_keys keys = Ok table
             ∧ t_records table = records ∧ Table_keys table = k
             ∧ length (t_fields table) = length k
      else Table_init numeric_types records records_keys keys = Raise IndexError
  end.
Proof.
  assert (∀ k, Table_init numeric_types records records_keys keys
               = Table_init numeric_types records None (Some k)
               ∨ match keys with Some k => Some k | None => records_keys end ≠ Some k)
    as Hkeys.
  { intros k. destruct keys as [k' |]; [| destruct records_keys as [k' |]];
      [| | by right]; (destruct (decide (k' = k)) as [-> | ?]; [by left | right; congruence]). }
  destruct (match keys with Some k => Some k | None => records_keys end) as [k |] eqn:Hk.
  - destruct (Hkeys k) as [-> | ?]; [| done]. clear Hkeys Hk.
    unfold Table_init. cbn [bind].
    pose proof (Table_init_columns records k) as Hcolumns.
    destruct (decide (Forall _ records)).
    + destruct Hcolumns as (t & o & -> & _). cbn [bind].
      eexists. split; [done |]. cbn. by rewrite length_map, length_seq.
    + by rewrite Hcolumns.
  - by destruct keys, records_keys.
Qed.

(** X17: the fields of a table that was built.  A field is optional
    exactly when a record has [None] in its column; it is numeric exactly
    when every value of the column other than [None] is of a numeric
    class; its type is a single class exactly when the column has a value
    other than [None] and all of these are of that class. *)
Theorem X17_fields (records : list (list PyValue))
    (records_keys keys : option (list string)) (table : Table) :
  Table_init numeric_types records records_keys keys = Ok table →
  ∀ (i : nat) (field : Field),
    t_fields table !! i = Some field →
    let column v := ∃ record, record ∈ records ∧ record !! i = Some v in
    (f_optional field = true ↔ column VNone)
    ∧ (f_numeric field = true
       ↔ ∀ v, column v → v ≠ VNone → type_of v ∈ numeric_types)
    ∧ (∀ ty, f_type field = OneType ty
             ↔ (∃ v, column v ∧ v ≠ VNone)
               ∧ ∀ v, column v → v ≠ VNone → type_of v = ty).
Proof.
  intros Hinit i field Hfield column.
  assert (∃ k, Table_init numeric_types records None (Some k) = Ok table) as [k Hk].
  { destruct keys as [k |]; [by exists k |].
    destruct records_keys as [k |]; [by exists k | done]. }
  clear Hinit. unfold Table_init in Hk. cbn [bind] in Hk.
  pose proof (Table_init_columns records k) as Hcolumns.
  destruct (decide (Forall _ records)); [| by rewrite Hcolumns in Hk].
  destruct Hcolumns as (t & o & Hnote & Ht & Ho & Hopt & Htypes & Hnd).
  rewrite Hnote in Hk. cbn [bind] in Hk. injection Hk as <-.
  cbn [t_fields fst snd] in Hfield.
  apply list_lookup_fmap_Some in Hfield as (i' & -> & Hi').
  apply lookup_seq in Hi' as [-> Hi]. cbn [Nat.add] in *.
  destruct (lookup_lt_is_Some_2 t i ltac:(lia)) as [ts Hts].
  destruct (lookup_lt_is_Some_2 o i ltac:(lia)) as [b Hb].
  rewrite Hts, Hb. cbn [from_option make_field f_optional f_numeric f_type]. unfold id.
  assert (∀ ty, ty ∈ ts ↔ ∃ v, column v ∧ v ≠ VNone ∧ type_of v = ty) as Hin.
  { intros ty. split.
    - intros Hty. destruct (proj1 (Htypes i ty)) as (record & v & ? & ? & ? & ?);
        [by exists ts |]. exists v. split; [by exists record | done].
    - intros (v & (record & ? & ?) & ? & ?).
      destruct (proj2 (Htypes i ty)) as (ts' & Hts' & ?); [by exists record, v |].
      congruence. }
  split; [| split].
  - unfold column. rewrite <- Hopt, Hb. split; [by intros -> | by intros [= ->]].
  - rewrite forallb_forall. split.
    + intros Hall v Hv Hnone. specialize (Hall (type_of v)).
      rewrite bool_decide_eq_true in Hall. apply Hall.
      apply list_elem_of_In, Hin. by exists v.
    + intros Hall ty Hty%list_elem_of_In. apply bool_decide_eq_true.
      apply Hin in Hty as (v & Hv & Hnone & <-). by apply Hall.
  - intros ty.
    assert ((match ts with [t] => OneType t | _ => TypeTuple ts end = OneType ty)
            ↔ ts = [ty]) as ->.
    { destruct ts as [| a1 [| a2 ts]]; split; congruence. }
    split.
    + intros ->. split.
      * destruct (proj1 (Hin ty)) as (v & ? & ? & _); [by left |]. by exists v.
      * intros v Hv Hnone. apply list_elem_of_singleton, Hin. by exists v.
    + intros [(v & Hv & Hnone) Hall]. apply NoDup_all_same.
      * by eapply Forall_lookup_1.
      * intros ->. by eapply elem_of_nil, Hin; exists v.
      * intros y (w & Hw & Hnone' & <-)%Hin. by apply Hall.
Qed.
End TableFacts.

(** *** Writing HTML *)

Section HtmlFacts.
Variable cypher_str : PyValue → string.

(** The cell written for the value numbered [i] and the row written for
    some values, when nothing is raised. *)
#[local] Abbreviation numeric_at self i :=
  (from_option f_numeric false (t_fields self !! i)).
#[local] Abbreviation cell_of self auto_align tag :=
  (fun numbered : nat * PyValue =>
     cell_template (auto_align && numeric_at self numbered.1) tag
                   (html_escape (cypher_str numbered.2))).
#[local] Abbreviation row_of self auto_align tag values :=
  ("<tr>"%string :: map (cell_of self auto_align tag) (enumerate values)
   ++ ["</tr>"%string]).

Lemma right_aligned_ok (self : Table) (auto_align : bool) (i : nat) :
  (auto_align = true → i < length (t_fields self)) →
  right_aligned self auto_align i = Ok (auto_align && numeric_at self i).
Proof.
  intros Hfit. unfold right_aligned. destruct auto_align; [| done].
  destruct (lookup_lt_is_Some_2 (t_fields self) i (Hfit eq_refl)) as [field Hfield].
  by rewrite py_index_natural, Nat2Z.id, Hfield by lia.
Qed.

Lemma write_cells_ok (self : Table) (auto_align : bool) (tag : string)
    (values : list PyValue) :
  ∀ j : nat,
    (auto_align = true → j + length values ≤ length (t_fields self)) →
    write_cells cypher_str self auto_align tag (combine (seq j (length values)) values)
    = (map (cell_of self auto_align tag) (combine (seq j (length values)) values), Ok tt).
Proof.
  induction values as [| value values IH]; intros j Hfit; [done |].
  cbn [length seq combine write_cells map].
  rewrite right_aligned_ok
    by (intros Haligned; specialize (Hfit Haligned); cbn [length] in Hfit; lia).
  rewrite (IH (S j))
    by (intros Haligned; specialize (Hfit Haligned); cbn [length] in Hfit; lia).
  done.
Qed.

Lemma write_tr_ok (self : Table) (auto_align : bool) (values : list PyValue)
    (tag : string) :
  (auto_align = true → length values ≤ length (t_fields self)) →
  write_tr cypher_str self auto_align values tag
  = (row_of self auto_align tag values, Ok tt).
Proof.
  intros Hfit. unfold write_tr, enumerate.
  by rewrite (write_cells_ok self auto_align tag values 0) by auto.
Qed.

Lemma write_html_rows_ok (self : Table) (auto_align header : bool) :
  (auto_align = true →
   length (t_keys self) ≤ length (t_fields self)
   ∧ Forall (fun record => length record ≤ length (t_fields self)) (t_records self)) →
  ∀ (indices : list Z) (count : nat),
    Forall (fun i => (0 <= i < Z.of_nat (length (t_records self)))%Z) indices →
    ∃ records,
      Forall2 (fun i record => t_records self !! Z.to_nat i = Some record) indices records
      ∧ write_html_rows cypher_str self auto_align header count indices
        = ((if bool_decide (count = 0 ∧ indices ≠ []) && header
            then row_of self auto_align "th"%string (map VStr (Table_keys self))
            else [])
           ++ flat_map (fun record => row_of self auto_align "td"%string record) records,
           Ok (count + length indices)).
Proof.
  intros Hfields. induction indices as [| index later IH]; intros count Hvalid.
  - exists []. split; [constructor |]. cbn [write_html_rows length flat_map].
    rewrite bool_decide_eq_false_2 by (intros [_ ?]; done).
    by rewrite Nat.add_0_r.
  - apply Forall_cons in Hvalid as [Hindex Hlater].
    assert (Z.to_nat index < length (t_records self)) as Hlt by lia.
    apply lookup_lt_is_Some in Hlt as [record Hrecord].
    destruct (IH (S count) Hlater) as (records & Hrecords & Hwritten).
    exists (record :: records). split; [by constructor |].
    cbn [write_html_rows flat_map].
    assert ((if (S count =? 1)%nat && header
             then write_tr cypher_str self auto_align (map VStr (Table_keys self)) "th"
             else ([], Ok tt))
            = (if bool_decide (count = 0 ∧ index :: later ≠ []) && header
               then row_of self auto_align "th"%string (map VStr (Table_keys self))
               else [], Ok tt)) as ->.
    { destruct count as [| count].
      - rewrite bool_decide_eq_true_2 by done. destruct header; [| done].
        cbn [Nat.eqb andb]. apply write_tr_ok.
        intros Haligned. rewrite length_map. by apply Hfields.
      - rewrite bool_decide_eq_false_2 by (intros [? _]; done).
        by destruct count. }
    rewrite py_index_natural, Hrecord by lia.
    rewrite (write_tr_ok self auto_align record "td").
    2:{ intros Haligned. destruct (Hfields Haligned) as [_ Hall].
        rewrite Forall_forall in Hall. apply Hall.
        by eapply list_elem_of_lookup_2. }
    rewrite Hwritten.
    rewrite (bool_decide_eq_false_2 (S count = 0 ∧ _)) by (intros [? _]; done).
    cbn [andb app length]. by rewrite Nat.add_succ_r.
Qed.

(** X19: writing a table as HTML.  With [auto_align] off, or on a table
    with a field for every key and for every value of every record, and
    a [skip] that is not negative, nothing is raised.  What is written is
    [<table>]; then, when a heading is asked for and a row is selected, a
    row with a [th] cell for each key; then, for each selected record in
    order, a row with a [td] cell for each of its values; then
    [</table>].  A row is [<tr>], its cells and [</tr>]; a cell is the
    template filled with the tag and the escaped text of the value,
    aligned right when [auto_align] is on and the field at the position
    of the value is numeric, left otherwise.  The number of the selected
    rows is returned. *)
Theorem X19_html_written (self : Table) (auto_align header : bool)
    (skip limit : option Z) :
  (auto_align = true →
   length (t_keys self) ≤ length (t_fields self)
   ∧ Forall (fun record => length record ≤ length (t_fields self)) (t_records self)) →
  (0 <= default 0 skip)%Z →
  let rows := Table_range self skip limit in
  ∃ records,
    Forall2 (fun i record => t_records self !! Z.to_nat i = Some record) rows records
    ∧ write_html cypher_str self auto_align header skip limit
      = ("<table>"%string
         :: ((if bool_decide (rows ≠ []) && header
              then row_of self auto_align "th"%string (map VStr (Table_keys self))
              else [])
             ++ flat_map (fun record => row_of self auto_align "td"%string record) records)
         ++ ["</table>"%string],
         Ok (length rows)).
Proof.
  intros Hfields Hskip rows.
  destruct (write_html_rows_ok self auto_align header Hfields rows 0
              (Table_range_valid self skip limit Hskip))
    as (records & Hrecords & Hwritten).
  exists records. split; [done |].
  unfold write_html. fold rows. rewrite Hwritten. cbn [Nat.add].
  by rewrite (bool_decide_ext (0 = 0 ∧ rows ≠ []) (rows ≠ [])) by intuition.
Qed.
End HtmlFacts.

(** ** A graph structure combined with itself *)

Section SelfOperations.
Context {Graph : Type} `{!EqDecision Graph, !Externals Graph}.

Lemma set_update_absorbed {A} (hash : A → Z) (eqb : A → A → bool) iterable :
  ∀ s, (∀ x, x ∈ iterable → set_contains hash eqb s x = true) →
       set_update hash eqb s iterable = s.
Proof.
  induction iterable as [| key iterable IH]; intros s Hall; [done |].
  simpl. unfold set_add. rewrite (Hall key) by (by left).
  apply IH. intros x Hx. apply Hall. by right.
Qed.

Lemma set_update_elem {A} (hash : A → Z) (eqb : A → A → bool) iterable :
  ∀ s x, x ∈ set_update hash eqb s iterable → x ∈ s ∨ x ∈ iterable.
Proof.
  induction iterable as [| key iterable IH]; intros s x Hx; [by left |].
  simpl in Hx. apply IH in Hx as [Hx | Hx]; [| right; by right].
  unfold set_add in Hx. destruct (set_contains hash eqb s key); [by left |].
  apply elem_of_app in Hx as [Hx | ->%list_elem_of_singleton]; [by left |].
  right. by left.
Qed.

Lemma set_toggle_all {A} (hash : A → Z) (eqb : A → A → bool) (s : list A) :
  (∀ x, eqb x x = true) → fold_left (set_toggle hash eqb) s s = [].
Proof.
  intros Hrefl. induction s as [| x s IH]; [done |].
  simpl. unfold set_toggle at 2. simpl.
  by rewrite (same_key_refl hash eqb Hrefl).
Qed.

Lemma set_intersection_diag {A} (hash : A → Z) (eqb : A → A → bool) (s : list A) :
  (∀ x, eqb x x = true) → set_intersection hash eqb s s = s.
Proof.
  intros Hrefl. unfold set_intersection. rewrite Nat.ltb_irrefl.
  assert (∀ l, (∀ x, x ∈ l → set_contains hash eqb s x = true) →
               List.filter (set_contains hash eqb s) l = l) as Hfilter.
  { induction l as [| x l IH]; intros Hall; [done |].
    simpl. rewrite (Hall x) by (by left). f_equal. apply IH.
    intros y Hy. apply Hall. by right. }
  apply Hfilter. intros x Hx. by apply set_contains_elem.
Qed.

Lemma frozenset_frozenset (l : list (Entity Graph)) : frozenset (frozenset l) = frozenset l.
Proof. apply KeySet_frozenset, frozenset_KeySet. Qed.

Lemma union_diag (l : list (Entity Graph)) : union (frozenset l) (frozenset l) = frozenset l.
Proof.
  unfold union, set_union. apply set_update_absorbed.
  intros x Hx. by apply set_contains_elem; [apply item_eq_refl |].
Qed.

(** X18: a graph structure combined with itself.  The symmetric
    difference is refused with ValueError, as it has no node; the union
    and the intersection are both the subgraph of its nodes and
    relationships; and when the structure is a subgraph that the
    constructor returned, and [==] on graphs is transitive, both are that
    subgraph again. *)
Theorem X18_combined_with_itself :
  (∀ (S : Type) (GS : GraphStructure S) (A : S),
     Subgraph_xor A A = Raise ValueError
     ∧ Subgraph_or A A = Subgraph_init (Some (nodes_of A)) (Some (relationships_of A))
     ∧ Subgraph_and A A = Subgraph_init (Some (nodes_of A)) (Some (relationships_of A)))
  ∧ (graph_eq_transitive →
     ∀ nodes relationships (sg : Subgraph Graph),
       Subgraph_init nodes relationships = Ok sg →
       Subgraph_or sg sg = Ok sg ∧ Subgraph_and sg sg = Ok sg).
Proof.
  assert (∀ (S : Type) (GS : GraphStructure S) (A : S),
     Subgraph_xor A A = Raise ValueError
     ∧ Subgraph_or A A = Subgraph_init (Some (nodes_of A)) (Some (relationships_of A))
     ∧ Subgraph_and A A = Subgraph_init (Some (nodes_of A)) (Some (relationships_of A)))
    as Hself.
  { intros S GS A.
    assert (∀ l : list (Entity Graph),
              set_symmetric_difference py_hash item_eq (frozenset l) (frozenset l) = [])
      as Hxor.
    { intros l. unfold set_symmetric_difference.
      change (set_of py_hash item_eq (frozenset l)) with (frozenset (frozenset l)).
      rewrite frozenset_frozenset. apply set_toggle_all, item_eq_refl. }
    assert (∀ N R : list (Entity Graph),
              Subgraph_init (Some (frozenset N)) (Some (frozenset R))
              = Subgraph_init (Some N) (Some R)) as Hfrozen.
    { intros N R. unfold Subgraph_init. by rewrite !or_empty_Some, !frozenset_frozenset. }
    split; [| split].
    - unfold Subgraph_xor, xor_nodes, xor_relationships. by rewrite !Hxor.
    - unfold Subgraph_or, or_nodes, or_relationships. by rewrite !union_diag, Hfrozen.
    - unfold Subgraph_and, and_nodes, and_relationships.
      by rewrite !(set_intersection_diag py_hash item_eq _ item_eq_refl), Hfrozen. }
  split; [exact Hself |].
  intros Htrans nodes relationships sg Hinit.
  destruct (Hself _ _ sg) as (_ & -> & ->).
  enough (Subgraph_init (Some (nodes_of sg)) (Some (relationships_of sg)) = Ok sg)
    by done.
  rewrite Subgraph_init_unfold in Hinit.
  destruct (closed_nodes nodes relationships) as [| y later] eqn:Hnodes; [done |].
  injection Hinit as <-. cbn [nodes_of relationships_of Subgraph_structure
                              sg_nodes sg_relationships].
  rewrite <- Hnodes.
  assert (closed_nodes (Some (closed_nodes nodes relationships))
                       (Some (frozenset (or_empty relationships)))
          = closed_nodes nodes relationships) as Hsame.
  { unfold closed_nodes at 1. rewrite !or_empty_Some, frozenset_frozenset.
    rewrite (KeySet_frozenset (closed_nodes nodes relationships))
      by apply set_update_KeySet, frozenset_KeySet.
    apply set_update_absorbed. intros x [Hx | Hx]%set_update_elem.
    { by apply elem_of_nil in Hx. }
    apply list_elem_of_In, in_concat in Hx as (l & Hl & Hx).
    apply in_map_iff in Hl as (r & <- & Hr).
    change (contains (closed_nodes nodes relationships) x = true).
    apply (closed_nodes_closure nodes relationships r x Htrans);
      by apply list_elem_of_In. }
  rewrite Subgraph_init_unfold, Hsame, or_empty_Some, frozenset_frozenset.
  by rewrite Hnodes.
Qed.
End SelfOperations.

(** * The further properties on the sample objects *)

Lemma X1_html_escape_characterwise_witness :
  html_special "a"%char = false ∧ html_escape "a" = "a"%string.
Proof.
  destruct X1_html_escape_characterwise as (_ & _ & _ & _ & _ & _ & Hplain).
  split; [reflexivity |]. apply Hplain. reflexivity.
Defined.

Lemma X2_html_escape_safe_witness :
  forallb (fun c => negb (html_special c)) (chars "Alice") = true
  ∧ html_escape "Alice" = "Alice"%string.
Proof.
  destruct (X2_html_escape_safe "Alice") as [_ Hplain].
  split; [reflexivity |]. apply Hplain. reflexivity.
Defined.

Lemma X3_html_escape_injective_witness :
  html_escape "a<b" = html_escape "a<b" ∧ "a<b"%string = "a<b"%string.
Proof.
  split; [reflexivity |]. apply (X3_html_escape_injective "a<b" "a<b"). reflexivity.
Defined.

Lemma X4_token_kept_witness :
  (∃ rejected later c,
     drawn_tokens = rejected ++ n_uuid bob :: later
     ∧ seventh_from_end (n_uuid bob) = Some c ∧ is_digit c = false
     ∧ Forall (fun u => ∃ d, seventh_from_end u = Some d ∧ is_digit d = true) rejected)
  ∧ Entity_uuid drawn_tokens = Some (n_uuid bob).
Proof.
  assert (∃ rejected later c,
     drawn_tokens = rejected ++ n_uuid bob :: later
     ∧ seventh_from_end (n_uuid bob) = Some c ∧ is_digit c = false
     ∧ Forall (fun u => ∃ d, seventh_from_end u = Some d ∧ is_digit d = true) rejected)
    as Hdrawn.
  { exists ["0b9f6c1e-52a7-4d0e-8c3b-6f1de2a47c90"%string], [], "b"%char.
    split; [reflexivity |]. split; [reflexivity |]. split; [reflexivity |].
    constructor; [| constructor]. exists "2"%char. split; reflexivity. }
  split; [exact Hdrawn |].
  apply (proj2 (X4_token_kept drawn_tokens (n_uuid bob))). exact Hdrawn.
Defined.

Lemma X5_labels_of_fresh_node_witness :
  n_graph alice = None
  ∧ Node_labels idle_pull alice = (n_labels alice, alice, []).
Proof.
  split; [reflexivity |].
  destruct (X5_labels_of_fresh_node idle_pull alice) as [Hlabels _]; [by left |].
  exact Hlabels.
Defined.

Lemma X6_union_succeeds_witness :
  nodes_of two_nodes ≠ []
  ∧ ∃ sg, Subgraph_or two_nodes bc = Ok sg
          ∧ sg_relationships sg = or_relationships two_nodes bc
          ∧ contains (sg_nodes sg) (ENode alice) = true.
Proof.
  split; [discriminate |].
  destruct (X6_union_succeeds _ _ _ _ two_nodes bc)
    as (sg & extra & Hor & Hrels & _ & Hleft & _); [discriminate |].
  exists sg. split; [exact Hor |]. split; [exact Hrels |].
  apply Hleft. vm_compute. repeat constructor.
Defined.

Lemma X7_subgraph_hash_witness :
  ∃ a b,
    Subgraph_init (Some [ENode alice; ENode bob]) (Some [ERel alice_knows_bob]) = Ok a
    ∧ Subgraph_init (Some [ENode bob; ENode alice]) (Some [ERel alice_knows_bob]) = Ok b
    ∧ Subgraph_eq a b = true
    ∧ Subgraph_hash a = Subgraph_hash b.
Proof.
  destruct (X7_subgraph_hash (Graph := string)) as [_ Hequal].
  eexists _, _. split; [vm_compute; reflexivity |]. split; [vm_compute; reflexivity |].
  split; [vm_compute; reflexivity |].
  apply (Hequal [ENode alice; ENode bob; ERel alice_knows_bob]
                [ENode alice; ENode bob] [ERel alice_knows_bob]
                [ENode bob; ENode alice] [ERel alice_knows_bob]).
  - apply keys_distinctb_sound. vm_compute. reflexivity.
  - by_computation.
  - by_computation.
  - by_computation.
  - by_computation.
  - by_computation.
  - by_computation.
  - vm_compute. reflexivity.
  - vm_compute. reflexivity.
  - vm_compute. reflexivity.
Defined.

Lemma X8_walkable_hash_witness :
  w_sequence (walkable_of backward) = rev (w_sequence (walkable_of forward))
  ∧ Walkable_hash (walkable_of backward) = Walkable_hash (walkable_of forward).
Proof.
  destruct (X8_walkable_hash (Graph := string)) as [Hreversed _].
  split; [vm_compute; reflexivity |]. apply Hreversed. vm_compute. reflexivity.
Defined.

Lemma X9_walkable_counts_witness :
  length (Walkable_nodes (walkable_of forward)) = 3
  ∧ length (Walkable_relationships (walkable_of forward)) = 2
  ∧ Walkable_len (walkable_of forward) = 2%Z.
Proof.
  destruct (X9_walkable_counts forward (walkable_of forward) 2) as (Hn & Hr & Hlen & _).
  - vm_compute. reflexivity.
  - reflexivity.
  - split; [exact Hn |]. split; [exact Hr | exact Hlen].
Defined.

Lemma X10_concatenation_witness :
  ∃ w, Walkable_add ab (Some bc) = Ok w
       ∧ w_sequence w = w_sequence ab ++ tail (w_sequence bc).
Proof.
  destruct (X10_concatenation ab bc (ENode bob) (ENode bob) (ENode carol))
    as (_ & Hforward & _).
  - vm_compute. reflexivity.
  - vm_compute. reflexivity.
  - vm_compute. reflexivity.
  - apply Hforward. vm_compute. reflexivity.
Defined.

Lemma X11_walk_regroups_witness :
  Walkable_add ab (Some bc) = Ok (walkable_of forward)
  ∧ walk [walkable_of forward; cb] = walk [ab; bc; cb].
Proof.
  assert (Walkable_add ab (Some bc) = Ok (walkable_of forward)) as Hadd
    by (vm_compute; reflexivity).
  split; [exact Hadd |].
  apply (X11_walk_regroups ab bc (walkable_of forward) [cb] Hadd).
  vm_compute. lia.
Defined.

Lemma X12_range_witness :
  Table_range people (Some 1%Z) (Some 5%Z) = [1%Z; 2%Z]
  ∧ length (Table_range people (Some 1%Z) (Some 5%Z)) = 2
  ∧ Forall (fun i => (0 <= i < 3)%Z) (Table_range people (Some 1%Z) (Some 5%Z)).
Proof.
  destruct (X12_range people (Some 1%Z) (Some 5%Z)) as (Hlen & _ & Hvalid).
  split; [reflexivity |]. split; [exact Hlen |]. apply Hvalid. simpl. lia.
Defined.

Lemma X13_field_witness :
  length (t_fields people) = length (t_keys people)
  ∧ Table_field people (VStr "height") = inl (KeyError "height")
  ∧ ∃ field, Table_field people (VStr "age") = inr field
             ∧ Table_field people (VInt 1) = inr field
             ∧ Table_field people (VInt (-1)) = inr field
             ∧ Table_field people (VBool true) = inr field.
Proof.
  destruct (X13_field people eq_refl) as (Habsent & Hnamed & Hat & _ & _ & Htrue & _).
  split; [reflexivity |]. split.
  - apply Habsent. by_computation.
  - destruct (Hnamed "age"%string) as (i & field & Hi & _ & Hfield & Hname & _).
    { by_computation. }
    assert (i = 1) as ->.
    { destruct i as [| [| [| i]]]; [discriminate | reflexivity | discriminate | discriminate]. }
    destruct (Hat 1 field Hfield) as [Hfirst Hlast].
    exists field. split; [exact Hname |]. split; [exact Hfirst |].
    split; [exact Hlast |]. rewrite Htrue. exact Hfirst.
Defined.

Lemma X14_rows_written_witness :
  (0 <= default 0 (Some 1))%Z
  ∧ snd (write_csv sample_cypher_repr people true (Some 1%Z) None) = Ok 2.
Proof.
  split; [simpl; lia |].
  destruct (X14_rows_written sample_cypher_repr "," crlf double_quote people true
              (Some 1%Z) None) as (records & _ & Hwritten).
  { simpl. lia. }
  unfold write_csv. rewrite Hwritten. reflexivity.
Defined.

Lemma X15_quoting_witness :
  write_value sample_cypher_repr "," crlf double_quote (VStr "Carol") = ["Carol"%string]
  ∧ write_value sample_cypher_repr "," crlf double_quote (VStr "Bob, Jr.")
    = [double_quote +:+ "Bob, Jr." +:+ double_quote].
Proof.
  destruct (X15_quoting sample_cypher_repr "," crlf quote_char)
    as (_ & Hclean & Hquoted & _).
  split.
  - apply Hclean. vm_compute. reflexivity.
  - unfold double_quote. rewrite (Hquoted "Bob, Jr."%string); [reflexivity |].
    vm_compute. reflexivity.
Defined.

Lemma X16_table_init_witness :
  ∃ table,
    Table_init sample_numeric_types people_records None (Some people_keys) = Ok table
    ∧ t_records table = people_records ∧ Table_keys table = people_keys
    ∧ length (t_fields table) = length people_keys.
Proof.
  pose proof (X16_table_init sample_numeric_types people_records None (Some people_keys))
    as Hinit.
  cbv beta iota in Hinit. rewrite decide_True in Hinit; [exact Hinit |].
  repeat constructor.
Defined.

Lemma X17_fields_witness :
  Table_init sample_numeric_types people_records None (Some people_keys) = Ok people
  ∧ ∃ field,
      t_fields people !! 1 = Some field
      ∧ (∃ record, record ∈ people_records ∧ record !! 1 = Some VNone)
      ∧ ∀ v, (∃ record, record ∈ people_records ∧ record !! 1 = Some v) →
             v ≠ VNone → type_of v ∈ sample_numeric_types.
Proof.
  assert (Table_init sample_numeric_types people_records None (Some people_keys)
          = Ok people) as Hinit by (vm_compute; reflexivity).
  split; [exact Hinit |].
  eexists. split; [vm_compute; reflexivity |].
  edestruct (X17_fields sample_numeric_types people_records None (Some people_keys)
               people Hinit 1) as (Hoptional & Hnumeric & _).
  { vm_compute. reflexivity. }
  split.
  - apply Hoptional. reflexivity.
  - apply Hnumeric. reflexivity.
Defined.

Lemma X18_combined_with_itself_witness :
  let sg := mkSubgraph [ENode alice; ENode bob] [ERel alice_knows_bob] in
  Subgraph_init (Some [ENode alice; ENode bob]) (Some [ERel alice_knows_bob]) = Ok sg
  ∧ Subgraph_or sg sg = Ok sg ∧ Subgraph_and sg sg = Ok sg
  ∧ Subgraph_xor sg sg = Raise ValueError.
Proof.
  intros sg.
  destruct (X18_combined_with_itself (Graph := string)) as [Hself Hbuilt].
  assert (Subgraph_init (Some [ENode alice; ENode bob]) (Some [ERel alice_knows_bob])
          = Ok sg) as Hinit by (vm_compute; reflexivity).
  destruct (Hbuilt sample_graph_eq_transitive _ _ sg Hinit) as [Hor Hand].
  destruct (Hself _ _ sg) as [Hxor _].
  split; [exact Hinit |]. split; [exact Hor |]. split; [exact Hand | exact Hxor].
Defined.

Lemma X19_html_written_witness :
  (0 <= default 0 (Some 1))%Z
  ∧ write_html sample_cypher_str people true true (Some 1%Z) None
    = (["<table>";
        "<tr>"; cell_template false "th" "name"; cell_template true "th" "age"; "</tr>";
        "<tr>"; cell_template false "td" "Bob, Jr."; cell_template true "td" "null"; "</tr>";
        "<tr>"; cell_template false "td" "Carol"; cell_template true "td" "44.5"; "</tr>";
        "</table>"]%string,
       Ok 2).
Proof.
  split; [simpl; lia |].
  destruct (X19_html_written sample_cypher_str people true true (Some 1%Z) None)
    as (records & Hrecords & Hwritten).
  { intros _. split; [vm_compute; lia | repeat constructor]. }
  { simpl. lia. }
  assert (records = [[VStr "Bob, Jr."; VNone]; [VStr "Carol"; VOther "float" "44.5"]])
    as ->.
  { apply Forall2_lookup_l with (i := 0%nat) (x := 1%Z) in Hrecords as Hfirst;
      [| reflexivity].
    apply Forall2_lookup_l with (i := 1%nat) (x := 2%Z) in Hrecords as Hsecond;
      [| reflexivity].
    apply Forall2_length in Hrecords.
    destruct Hfirst as (first & Hfirst & [= <-]).
    destruct Hsecond as (second & Hsecond & [= <-]).
    destruct records as [| r1 [| r2 [| r3 records]]]; try discriminate.
    by injection Hfirst as ->; injection Hsecond as ->. }
  rewrite Hwritten. vm_compute. reflexivity.
Defined.
